(** * DeDup: scan, hash and group pipeline with its SQLite-backed workspace

    A shallow embedding of the Python sources
    [dedup/hasher.py], [dedup/workspace.py], [dedup/scanner.py],
    [dedup/parallel_processor.py], [dedup/deduper.py], [dedup/engine.py],
    [dedup/recent_workspaces.py], and of
    [ScanThread._filter_unhashed_files] and [ScanThread._add_file_to_db] in
    [dedup/gui/scan_thread.py].

    Conventions.
    - The operating system and the third-party libraries (os, open, xxhash,
      hashlib, json, sqlite3, concurrent.futures) are not part of the
      repository; they enter as records of functions: [FileSystem],
      [HashLib], [JsonCodec], [Sqlite], [Scheduler], [ScanScheduler],
      [TrackedScheduler], [Poller].
    - A Python exception is a value of [exn]; a call that may raise returns
      [result].
    - A file of [FileSystem] ends.  Files that never end (a FIFO, a device
      node) and calls that never return are the matter of [HasherSteps] and
      of the [finishing] argument of the core-tracking processor.
    - A table of the SQLite file is the list of its rows in rowid order.
      [sqlite3] refuses to bind a path that is no valid UTF-8, and adds
      INTEGER values in 64 bits: [try_add_file] and
      [try_update_workspace_metadata] are [add_file] and
      [update_workspace_metadata] with these failures.
    - A Python dict that is mutated in place lives in a heap of objects and
      is passed around as a reference. *)

From Stdlib Require Import List String Ascii ZArith Bool Lia Permutation Arith.
From Stdlib Require Import Strings.Byte.
Import ListNotations.
Local Open Scope string_scope.
Local Open Scope Z_scope.
Local Open Scope list_scope.

Set Implicit Arguments.

(** ** Python values *)

Inductive exn : Type :=
| ValueError (msg : string)
| OSError
| JSONDecodeError
| UnicodeEncodeError
| OperationalError.

Inductive result (A : Type) : Type :=
| Ok (a : A)
| Raise (e : exn).
Arguments Ok {A} a.
Arguments Raise {A} e.

(** Truth value of an [Optional[str]]: [None] and the empty string are
    falsy. *)
Definition truthy (v : option string) : bool :=
  match v with
  | Some (String _ _) => true
  | _ => false
  end.

Definition opt_eqb (a b : option string) : bool :=
  match a, b with
  | None, None => true
  | Some x, Some y => String.eqb x y
  | _, _ => false
  end.

(** ** The environment *)

(** An open binary file: the bytes not yet read, and, for a file whose
    reads break, the number of [read] calls that still succeed. *)
Record file_object : Type := {
  remaining : list byte;
  reads_until_fault : option nat
}.

Record FileSystem : Type := {
  os_path_exists : string -> bool;
  os_path_join : string -> string -> string;
  os_path_basename : string -> string;
  (** [os.walk(top)]: the [(root, dirs, filenames)] triples it yields. *)
  os_walk : string -> list (string * list string * list string);
  (** [os.stat(path)] as [(st_size, int(st_mtime))]. *)
  os_stat : string -> result (Z * Z);
  (** [open(path, 'rb')]. *)
  open_rb : string -> result file_object
}.

(** [xxhash.xxh64], [hashlib.md5], [hashlib.sha1]: the hex digest of a
    message. *)
Record HashLib : Type := {
  xxh64_hexdigest : list byte -> string;
  md5_hexdigest : list byte -> string;
  sha1_hexdigest : list byte -> string
}.

Record JsonCodec : Type := {
  json_dumps : list string -> string;
  json_loads : string -> result (list string)
}.

(** [sqlite3] binds a [str] parameter by encoding it as UTF-8.  A path
    that [os.walk] decoded from a file name that is not valid UTF-8 holds
    a lone surrogate and does not encode: the [execute] call raises
    [UnicodeEncodeError] and its statement does not run.  [binds] tells
    which strings encode. *)
Record Sqlite : Type := {
  binds : string -> bool
}.

(** ** hasher.py *)

Module Hasher.

Definition CHUNK_SIZE : N := (1024 * 1024)%N.

Fixpoint take (n : N) (l : list byte) : list byte :=
  match l with
  | [] => []
  | b :: l' => if (n =? 0)%N then [] else b :: take (N.pred n) l'
  end.

Fixpoint drop (n : N) (l : list byte) : list byte :=
  match l with
  | [] => []
  | b :: l' => if (n =? 0)%N then l else drop (N.pred n) l'
  end.

(** [f.read(n)]: at most [n] bytes from the current position; short only
    at end of file. *)
Definition read (f : file_object) (n : N) : result (list byte * file_object) :=
  match reads_until_fault f with
  | Some O => Raise OSError
  | Some (S k) =>
      Ok (take n (remaining f),
          {| remaining := drop n (remaining f); reads_until_fault := Some k |})
  | None =>
      Ok (take n (remaining f),
          {| remaining := drop n (remaining f); reads_until_fault := None |})
  end.

(** A hash object is the message fed to it so far: [update] appends,
    [hexdigest] digests the whole message. *)
Definition hash_object : Type := list byte.
Definition new_hash : hash_object := [].
Definition update (h : hash_object) (chunk : list byte) : hash_object := h ++ chunk.

(** [while chunk := f.read(CHUNK_SIZE): h.update(chunk)].  [None] means
    the iteration budget ran out before the loop ended. *)
Fixpoint read_loop (fuel : nat) (f : file_object) (h : hash_object)
  : option (result hash_object) :=
  match fuel with
  | O => None
  | S fuel' =>
      match read f CHUNK_SIZE with
      | Raise e => Some (Raise e)
      | Ok ([], _) => Some (Ok h)
      | Ok (chunk, f') => read_loop fuel' f' (update h chunk)
      end
  end.

(** The body of the [try] block shared by the three functions. *)
Definition stream_digest (hexdigest : list byte -> string) (fs : FileSystem)
    (path : string) : option (result string) :=
  match open_rb fs path with
  | Raise e => Some (Raise e)
  | Ok f =>
      match read_loop (S (List.length (remaining f))) f new_hash with
      | None => None
      | Some (Raise e) => Some (Raise e)
      | Some (Ok h) => Some (Ok (hexdigest h))
      end
  end.

(** [try: ... except Exception: return None]. *)
Definition catch_all (r : option (result string)) : option string :=
  match r with
  | Some (Ok d) => Some d
  | _ => None
  end.

Definition compute_xxhash (lib : HashLib) (fs : FileSystem) (path : string)
  : option string :=
  catch_all (stream_digest (xxh64_hexdigest lib) fs path).

Definition compute_md5 (lib : HashLib) (fs : FileSystem) (path : string)
  : option string :=
  catch_all (stream_digest (md5_hexdigest lib) fs path).

Definition compute_sha1 (lib : HashLib) (fs : FileSystem) (path : string)
  : option string :=
  catch_all (stream_digest (sha1_hexdigest lib) fs path).

End Hasher.

(** ** hasher.py on files that need not end

    [open(path, 'rb')] also opens what is no regular file: a FIFO, a
    device node.  Such a file may never reach its end: every [read] on
    [/dev/zero] returns as many bytes as asked for.  Module [Hasher] has
    the three functions on the files that end; here the same code runs on
    either kind of file, read by read, so that a call that never returns
    is told from one that returns. *)

Module HasherSteps.
Import Hasher.

(** An open binary file: one that ends, or one that never does, given by
    the byte at each position and by the current position. *)
Inductive opened : Type :=
| Ending (f : file_object)
| Endless (bytes : N -> byte) (pos : N).

(** [f.read(n)]. *)
Definition read (f : opened) (n : N) : result (list byte * opened) :=
  match f with
  | Ending f =>
      match Hasher.read f n with
      | Ok (chunk, f') => Ok (chunk, Ending f')
      | Raise e => Raise e
      end
  | Endless bytes pos =>
      Ok (map (fun i => bytes (pos + N.of_nat i)%N) (seq 0 (N.to_nat n)),
          Endless bytes (pos + n)%N)
  end.

(** [while chunk := f.read(CHUNK_SIZE): h.update(chunk)], followed for
    [reads] calls of [read]: [None] means that the loop is still running
    after that many. *)
Fixpoint read_loop (reads : nat) (f : opened) (h : hash_object)
  : option (result hash_object) :=
  match reads with
  | O => None
  | S reads' =>
      match read f CHUNK_SIZE with
      | Raise e => Some (Raise e)
      | Ok ([], _) => Some (Ok h)
      | Ok (chunk, f') => read_loop reads' f' (update h chunk)
      end
  end.

(** The body of the [try] block; [open_] is [open(path, 'rb')]. *)
Definition stream_digest (reads : nat) (hexdigest : list byte -> string)
    (open_ : string -> result opened) (path : string)
  : option (result string) :=
  match open_ path with
  | Raise e => Some (Raise e)
  | Ok f =>
      match read_loop reads f new_hash with
      | None => None
      | Some (Raise e) => Some (Raise e)
      | Some (Ok h) => Some (Ok (hexdigest h))
      end
  end.

(** [try: ... except Exception: return None]: what the call has returned,
    if it has returned. *)
Definition catch_all (r : option (result string)) : option (option string) :=
  match r with
  | None => None
  | Some (Ok d) => Some (Some d)
  | Some (Raise _) => Some None
  end.

Definition compute_xxhash (reads : nat) (lib : HashLib)
    (open_ : string -> result opened) (path : string) : option (option string) :=
  catch_all (stream_digest reads (xxh64_hexdigest lib) open_ path).

Definition compute_md5 (reads : nat) (lib : HashLib)
    (open_ : string -> result opened) (path : string) : option (option string) :=
  catch_all (stream_digest reads (md5_hexdigest lib) open_ path).

Definition compute_sha1 (reads : nat) (lib : HashLib)
    (open_ : string -> result opened) (path : string) : option (option string) :=
  catch_all (stream_digest reads (sha1_hexdigest lib) open_ path).

(** [open(path, 'rb')] of a file system all of whose files end. *)
Definition ending (fs : FileSystem) (path : string) : result opened :=
  match open_rb fs path with
  | Ok f => Ok (Ending f)
  | Raise e => Raise e
  end.

End HasherSteps.

(** ** Python dicts

    A dict is the list of its items in insertion order; assigning to an
    existing key keeps the key's position. *)

Section PyDict.
Variables (K V : Type) (eqb : K -> K -> bool).

Fixpoint dict_get (d : list (K * V)) (k : K) : option V :=
  match d with
  | [] => None
  | (k', v) :: d' => if eqb k k' then Some v else dict_get d' k
  end.

Fixpoint dict_set (d : list (K * V)) (k : K) (v : V) : list (K * V) :=
  match d with
  | [] => [(k, v)]
  | (k', v') :: d' =>
      if eqb k k' then (k', v) :: d' else (k', v') :: dict_set d' k v
  end.

Definition dict_values (d : list (K * V)) : list V := map snd d.
Definition dict_keys (d : list (K * V)) : list K := map fst d.
End PyDict.

(** [d[k].append(x)] on a [defaultdict(list)]. *)
Definition dd_append (K X : Type) (eqb : K -> K -> bool)
    (d : list (K * list X)) (k : K) (x : X) : list (K * list X) :=
  match dict_get eqb d k with
  | Some xs => dict_set eqb d k (xs ++ [x])
  | None => dict_set eqb d k [x]
  end.

(** ** workspace.py *)

(** A row of table [files].  Columns [id] and [created_at] are assigned
    by SQLite and read by no operation below; the position of a row in the
    table is its rowid order. *)
Record FileRecord : Type := {
  path : string;
  size : Z;
  modified : Z;
  xxhash : option string;
  md5 : option string;
  sha1 : option string;
  status : string
}.

Definition set_xxhash (file : FileRecord) (v : option string) : FileRecord :=
  {| path := path file; size := size file; modified := modified file;
     xxhash := v; md5 := md5 file; sha1 := sha1 file; status := status file |}.

Definition set_md5 (file : FileRecord) (v : option string) : FileRecord :=
  {| path := path file; size := size file; modified := modified file;
     xxhash := xxhash file; md5 := v; sha1 := sha1 file; status := status file |}.

Module Workspace.

Record DirectoryRow : Type := {
  directory_path : string;
  added_at : Z
}.

Record MetadataRow : Type := {
  workspace_name : string;
  created_at : Z;
  last_scan : Z;
  total_files : Z;
  total_size : Z;
  duplicate_groups : Z
}.

(** The SQLite file behind one connection.  [workspace_metadata] holds
    the row with [id = 1], the only one ever written. *)
Record t : Type := {
  db_path : string;
  files : list FileRecord;
  workspace_config : list (string * string);
  workspace_metadata : option MetadataRow;
  workspace_directories : list DirectoryRow
}.

(** [Workspace(db_path)] on a path with no file yet: [_init_db] creates the
    four tables, empty. *)
Definition create_workspace (workspace_path : string) : t :=
  {| db_path := workspace_path; files := []; workspace_config := [];
     workspace_metadata := None; workspace_directories := [] |}.

(** [INSERT OR REPLACE INTO files]: [path] is [UNIQUE], so the rows in
    conflict are deleted and the new row gets a fresh rowid. *)
Definition insert_or_replace_file (rows : list FileRecord) (r : FileRecord)
  : list FileRecord :=
  filter (fun r' => negb (String.eqb (path r') (path r))) rows ++ [r].

(** [INSERT OR REPLACE INTO workspace_config]: [key] is the primary key. *)
Definition insert_or_replace_config (rows : list (string * string))
    (key value : string) : list (string * string) :=
  filter (fun kv => negb (String.eqb (fst kv) key)) rows ++ [(key, value)].

Definition select_config (rows : list (string * string)) (key : string)
  : list string :=
  map snd (filter (fun kv => String.eqb (fst kv) key) rows).

Definition add_file (ws : t) (path_ : string) (size_ modified_ : Z)
    (xxhash_ md5_ sha1_ : option string) (status_ : string) : t :=
  {| db_path := db_path ws;
     files := insert_or_replace_file (files ws)
                {| path := path_; size := size_; modified := modified_;
                   xxhash := xxhash_; md5 := md5_; sha1 := sha1_;
                   status := status_ |};
     workspace_config := workspace_config ws;
     workspace_metadata := workspace_metadata ws;
     workspace_directories := workspace_directories ws |}.

(** [add_file] called on a path that comes from the file system: the
    statement runs when [sqlite3] binds the path, else the call raises and
    the table is as it was. *)
Definition try_add_file (sq : Sqlite) (ws : t) (path_ : string)
    (size_ modified_ : Z) (xxhash_ md5_ sha1_ : option string)
    (status_ : string) : result t :=
  if binds sq path_
  then Ok (add_file ws path_ size_ modified_ xxhash_ md5_ sha1_ status_)
  else Raise UnicodeEncodeError.

Definition get_files (ws : t) : list FileRecord := files ws.

(** [now] is the reading of [CURRENT_TIMESTAMP] (one-second resolution)
    taken by the inserts of this call. *)
Definition save_directories (codec : JsonCodec) (now : Z) (ws : t)
    (directories : list string) : t :=
  {| db_path := db_path ws;
     files := files ws;
     workspace_config :=
       insert_or_replace_config (workspace_config ws) "directories"
         (json_dumps codec directories);
     workspace_metadata := workspace_metadata ws;
     workspace_directories :=
       fold_left
         (fun rows directory =>
            rows ++ [{| directory_path := directory; added_at := now |}])
         directories [] |}.

(** [ORDER BY added_at]: a stable sort. *)
Fixpoint insert_by_added_at (row : DirectoryRow) (sorted : list DirectoryRow)
  : list DirectoryRow :=
  match sorted with
  | [] => [row]
  | row' :: rest =>
      if added_at row' <=? added_at row
      then row' :: insert_by_added_at row rest
      else row :: sorted
  end.

Definition order_by_added_at (rows : list DirectoryRow) : list DirectoryRow :=
  fold_left (fun sorted row => insert_by_added_at row sorted) rows [].

Definition load_directories (codec : JsonCodec) (ws : t)
  : result (list string) :=
  let rows := order_by_added_at (workspace_directories ws) in
  match rows with
  | _ :: _ => Ok (map directory_path rows)
  | [] =>
      match select_config (workspace_config ws) "directories" with
      | value :: _ => json_loads codec value
      | [] => Ok []
      end
  end.

Fixpoint sum_sizes (rows : list FileRecord) : Z :=
  match rows with
  | [] => 0
  | r :: rows' => size r + sum_sizes rows'
  end.

(** [SELECT xxhash FROM files WHERE xxhash IS NOT NULL]. *)
Fixpoint select_xxhash_not_null (rows : list FileRecord) : list string :=
  match rows with
  | [] => []
  | r :: rows' =>
      match xxhash r with
      | Some h => h :: select_xxhash_not_null rows'
      | None => select_xxhash_not_null rows'
      end
  end.

(** [GROUP BY xxhash HAVING COUNT( * ) > 1], counted. *)
Definition count_duplicate_groups (rows : list FileRecord) : Z :=
  let hashes := select_xxhash_not_null rows in
  Z.of_nat
    (List.length
       (filter (fun h => (1 <? count_occ string_dec hashes h)%nat)
               (nodup string_dec hashes))).

Definition update_workspace_metadata (fs : FileSystem) (now : Z) (ws : t)
    (name : option string) : t :=
  let total_files_ := Z.of_nat (List.length (files ws)) in
  let total_size_ := sum_sizes (files ws) in
  let duplicate_groups_ := count_duplicate_groups (files ws) in
  {| db_path := db_path ws;
     files := files ws;
     workspace_config := workspace_config ws;
     workspace_metadata :=
       Some {| workspace_name :=
                 match name with
                 | Some (String _ _ as n) => n
                 | _ => os_path_basename fs (db_path ws)
                 end;
               created_at := now;
               last_scan := now;
               total_files := total_files_;
               total_size := total_size_;
               duplicate_groups := duplicate_groups_ |};
     workspace_directories := workspace_directories ws |}.

(** The range of an INTEGER of SQLite. *)
Definition int64 (z : Z) : bool :=
  (-9223372036854775808 <=? z) && (z <=? 9223372036854775807).

(** [SUM(size)] as SQLite computes it over INTEGER values: a running
    64-bit sum over the rows it scans, taken here in rowid order, and the
    error "integer overflow" when a running sum leaves the range. *)
Fixpoint sqlite_sum (acc : Z) (rows : list FileRecord) : result Z :=
  match rows with
  | [] => Ok acc
  | r :: rows' =>
      if int64 (acc + size r) then sqlite_sum (acc + size r) rows'
      else Raise OperationalError
  end.

(** [update_workspace_metadata] with the arithmetic of SQLite: when
    [SUM(size)] overflows, the first [SELECT] raises and no row is
    written. *)
Definition try_update_workspace_metadata (fs : FileSystem) (now : Z) (ws : t)
    (name : option string) : result t :=
  let total_files_ := Z.of_nat (List.length (files ws)) in
  match sqlite_sum 0 (files ws) with
  | Raise e => Raise e
  | Ok total_size_ =>
      let duplicate_groups_ := count_duplicate_groups (files ws) in
      Ok {| db_path := db_path ws;
            files := files ws;
            workspace_config := workspace_config ws;
            workspace_metadata :=
              Some {| workspace_name :=
                        match name with
                        | Some (String _ _ as n) => n
                        | _ => os_path_basename fs (db_path ws)
                        end;
                      created_at := now;
                      last_scan := now;
                      total_files := total_files_;
                      total_size := total_size_;
                      duplicate_groups := duplicate_groups_ |};
            workspace_directories := workspace_directories ws |}
  end.

Definition clear_files (ws : t) : t :=
  {| db_path := db_path ws;
     files := [];
     workspace_config := workspace_config ws;
     workspace_metadata := workspace_metadata ws;
     workspace_directories := workspace_directories ws |}.

(** The write operations of the store, as data, and a run of a sequence
    of them. *)
Inductive op : Type :=
| AddFile (path_ : string) (size_ modified_ : Z)
    (xxhash_ md5_ sha1_ : option string) (status_ : string)
| SaveDirectories (now : Z) (directories : list string)
| UpdateWorkspaceMetadata (now : Z) (name : option string)
| ClearFiles.

Definition exec (codec : JsonCodec) (fs : FileSystem) (ws : t) (o : op) : t :=
  match o with
  | AddFile p s m x m5 s1 st => add_file ws p s m x m5 s1 st
  | SaveDirectories now ds => save_directories codec now ws ds
  | UpdateWorkspaceMetadata now name => update_workspace_metadata fs now ws name
  | ClearFiles => clear_files ws
  end.

Definition run (codec : JsonCodec) (fs : FileSystem) (ws : t) (ops : list op)
  : t :=
  fold_left (exec codec fs) ops ws.

(** The dict [get_workspace_stats] returns; the two timestamps are [None]
    in the defaults. *)
Record Stats : Type := {
  stats_workspace_name : string;
  stats_total_files : Z;
  stats_total_size : Z;
  stats_duplicate_groups : Z;
  stats_created_at : option Z;
  stats_last_scan : option Z
}.

Definition get_workspace_stats (fs : FileSystem) (ws : t) : Stats :=
  match workspace_metadata ws with
  | Some row =>
      {| stats_workspace_name := workspace_name row;
         stats_total_files := total_files row;
         stats_total_size := total_size row;
         stats_duplicate_groups := duplicate_groups row;
         stats_created_at := Some (created_at row);
         stats_last_scan := Some (last_scan row) |}
  | None =>
      {| stats_workspace_name := os_path_basename fs (db_path ws);
         stats_total_files := 0;
         stats_total_size := 0;
         stats_duplicate_groups := 0;
         stats_created_at := None;
         stats_last_scan := None |}
  end.

End Workspace.

(** ** scanner.py *)

(** A discovered file: [(path, size, modified_time)]. *)
Definition file_info : Type := (string * Z * Z)%type.

Module Scanner.

Definition scan_directories (fs : FileSystem) (directories : list string)
  : list file_info :=
  fold_left
    (fun files directory =>
       fold_left
         (fun files '(root, _, filenames) =>
            fold_left
              (fun files filename =>
                 let path_ := os_path_join fs root filename in
                 match os_stat fs path_ with
                 | Ok (st_size, st_mtime) => files ++ [(path_, st_size, st_mtime)]
                 | Raise _ => files
                 end)
              filenames files)
         (os_walk fs directory) files)
    directories [].

(** [scan_single_directory], the worker of [scan_directories_parallel]:
    every exception is caught inside, so its future never raises. *)
Definition scan_single_directory (fs : FileSystem) (directory_info : string * Z)
  : string * list file_info * Z :=
  let '(directory, core_id) := directory_info in
  let directory_files :=
    fold_left
      (fun files '(root, _, filenames) =>
         fold_left
           (fun files filename =>
              let path_ := os_path_join fs root filename in
              match os_stat fs path_ with
              | Ok (st_size, st_mtime) => files ++ [(path_, st_size, st_mtime)]
              | Raise _ => files
              end)
           filenames files)
      (os_walk fs directory) [] in
  (directory, directory_files, core_id).

(** What [future.result()] gives for a submitted [scan_single_directory]. *)
Definition scan_future : Type := result (string * list file_info * Z).

(** [as_completed] over [future_to_dir]: the entries in the order in which
    the thread pool finishes them. *)
Record ScanScheduler : Type := {
  scans_completed : list (scan_future * string) -> list (scan_future * string);
  scans_completed_perm :
    forall futures, Permutation (scans_completed futures) futures
}.

(** [enumerate(l)], counting from [i]. *)
Fixpoint enumerate_from (A : Type) (i : Z) (l : list A) : list (Z * A) :=
  match l with
  | [] => []
  | x :: l' => (i, x) :: enumerate_from (i + 1) l'
  end.

(** [scan_directories_parallel] called without callbacks; [cpu_count] is
    [multiprocessing.cpu_count()]. *)
Definition scan_directories_parallel (fs : FileSystem) (cpu_count : positive)
    (sched : ScanScheduler) (directories : list string) : list file_info :=
  match directories with
  | [] => []
  | _ :: _ =>
      let max_workers :=
        Z.min 8 (Z.min (Z.pos cpu_count) (Z.of_nat (List.length directories))) in
      let directory_assignments :=
        map (fun '(i, dir_path) => (dir_path, i mod max_workers))
          (enumerate_from 0 directories) in
      let future_to_dir :=
        map (fun assignment =>
               (Ok (scan_single_directory fs assignment), fst assignment))
          directory_assignments in
      fold_left
        (fun all_files '(fut, directory_path) =>
           match fut with
           | Ok (directory, directory_files, core_id) =>
               all_files ++ directory_files
           | Raise _ => all_files
           end)
        (scans_completed sched future_to_dir) []
  end.

End Scanner.

(** ** parallel_processor.py *)

(** A submitted call [executor.submit(hash_func, path)] is known by what
    [future.result()] gives: the value returned or the exception raised.
    An entry of [future_to_file] pairs it with the path it was submitted
    for. *)
Definition future : Type := result (option string).

(** [as_completed]: the entries of [future_to_file] in the order in which
    the pool finishes them, some rearrangement of the submitted ones. *)
Record Scheduler : Type := {
  as_completed : list (future * string) -> list (future * string);
  as_completed_perm : forall futures, Permutation (as_completed futures) futures
}.

Definition fifo : Scheduler :=
  {| as_completed := fun futures => futures;
     as_completed_perm := fun futures => Permutation_refl futures |}.

Definition lifo : Scheduler :=
  {| as_completed := fun futures => rev futures;
     as_completed_perm := fun futures => Permutation_sym (Permutation_rev futures) |}.

Module ParallelProcessor.

Definition large_file_threshold : Z := 50 * 1024 * 1024.

(** One [with ...Executor(...) as executor:] block: submit every file of
    the pool, then collect in completion order.  The number of workers
    changes the completion order only; [progress_callback] is left at its
    default, [None]. *)
Definition run_pool (sched : Scheduler) (hash_func : string -> future)
    (pool_files : list file_info) (results : list (string * string))
  : list (string * string) :=
  let future_to_file :=
    map (fun f : file_info => (hash_func (fst (fst f)), fst (fst f))) pool_files in
  fold_left
    (fun results '(fut, filepath) =>
       match fut with
       | Ok (Some hash_result) =>
           if truthy (Some hash_result)
           then results ++ [(filepath, hash_result)]
           else results
       | Ok None => results
       | Raise _ => results
       end)
    (as_completed sched future_to_file) results.

Definition process_files_parallel (sched : Scheduler)
    (files : list file_info) (hash_func : string -> future)
  : list (string * string) :=
  let large_files :=
    filter (fun '(_, s, _) => large_file_threshold <=? s) files in
  let small_files :=
    filter (fun '(_, s, _) => s <? large_file_threshold) files in
  let results := [] in
  let results :=
    match large_files with
    | [] => results
    | _ :: _ => run_pool sched hash_func large_files results
    end in
  let results :=
    match small_files with
    | [] => results
    | _ :: _ => run_pool sched hash_func small_files results
    end in
  results.

(** The single-pool reference of the specification: the hash function
    applied to each file in turn, in input order, keeping the files that
    hashed. *)
Fixpoint single_pool_reference (files : list file_info)
    (hash_func : string -> future) : list (string * string) :=
  match files with
  | [] => []
  | (filepath, _, _) :: files' =>
      match hash_func filepath with
      | Ok (Some (String _ _ as h)) =>
          (filepath, h) :: single_pool_reference files' hash_func
      | _ => single_pool_reference files' hash_func
      end
  end.

(** *** process_files_with_core_tracking

    Called with [core_callback] and [progress_callback] at their default,
    [None]; [max_workers] is at least 1, as [ThreadPoolExecutor] demands. *)

(** A value of [self.core_activity]. *)
Record activity : Type := {
  activity_status : string;
  activity_file : option string
}.

Definition idle : activity :=
  {| activity_status := "Idle"; activity_file := None |}.

(** [self.core_activity], from core id to activity. *)
Definition core_activity : Type := list (nat * activity).

Definition set_core (cores : core_activity) (core_id : nat) (a : activity)
  : core_activity :=
  dict_set Nat.eqb cores core_id a.

(** An entry of [future_to_file]: the future, and the pair of the path and
    the core id stored for it. *)
Definition entry : Type := (future * (string * nat))%type.

(** [as_completed(future_to_file)] of the large-file pool. *)
Record TrackedScheduler : Type := {
  tracked_completed : list entry -> list entry;
  tracked_completed_perm :
    forall futures, Permutation (tracked_completed futures) futures
}.

(** Whether the call [hash_func(path)] ever finishes.  On a file that
    never ends the read loop of the hash functions does not end, and the
    future of the call never completes; [hash_func path] is what
    [future.result()] gives for the calls that do finish. *)
Definition finishing : Type := string -> bool.

(** What the small-file loop sees of the pool at its [n]-th pass: which
    of the pending futures answer [done()], by position in
    [future_to_file] (a future whose call never finishes never does), and,
    when none does, which of the pending futures whose call finishes
    completes within the 0.1 s the loop then waits, counted among those,
    if any does. *)
Record Poller : Type := {
  done : nat -> list bool;
  completes_in_time : nat -> option nat
}.

(** The call returns, or [next(as_completed(..., timeout=0.1))] raises
    [TimeoutError], which nothing catches, or the call blocks for ever,
    waiting for a submitted call that never finishes. *)
Inductive outcome (A : Type) : Type :=
| Returned (a : A)
| TimeoutError
| Blocks.
Arguments Returned {A} a.
Arguments TimeoutError {A}.
Arguments Blocks {A}.

(** The body run for a finished future: its result is kept when truthy,
    an exception is printed, and the core is marked idle. *)
Definition collect (acc : list (string * string) * core_activity) (e : entry)
  : list (string * string) * core_activity :=
  let '(results, cores) := acc in
  let '(fut, (filepath, core_id)) := e in
  let results :=
    match fut with
    | Ok (Some hash_result) =>
        if truthy (Some hash_result)
        then results ++ [(filepath, hash_result)]
        else results
    | Ok None => results
    | Raise _ => results
    end in
  (results, set_core cores core_id idle).

(** [enumerate(l)] with natural indices, counting from [i]. *)
Fixpoint enumerate_nat (A : Type) (i : nat) (l : list A) : list (nat * A) :=
  match l with
  | [] => []
  | x :: l' => (i, x) :: enumerate_nat (S i) l'
  end.

(** Body of the submission loop of the large-file pool. *)
Definition submit_large (hash_func : string -> future) (large_cores : nat)
    (acc : list entry * core_activity) (item : nat * file_info)
  : list entry * core_activity :=
  let '(future_to_file, cores) := acc in
  let '(i, file_info_) := item in
  if (List.length future_to_file <? large_cores)%nat then
    let core_id := (i mod large_cores)%nat in
    (future_to_file ++ [(hash_func (fst (fst file_info_)),
                         (fst (fst file_info_), core_id))],
     set_core cores core_id
       {| activity_status := "Hashing (Large)";
          activity_file := Some (fst (fst file_info_)) |})
  else acc.

(** The inner [while] of the small-file loop: submit while there is
    capacity; [rest] is [small_files[file_index:]]. *)
Fixpoint submit_small (hash_func : string -> future) (small_cores : nat)
    (rest : list file_info) (file_index : nat) (pending : list entry)
    (cores : core_activity)
  : list file_info * nat * list entry * core_activity :=
  match rest with
  | [] => (rest, file_index, pending, cores)
  | file_info_ :: rest' =>
      if (List.length pending <? small_cores)%nat then
        let core_id := (file_index mod small_cores)%nat in
        submit_small hash_func small_cores rest' (S file_index)
          (pending ++ [(hash_func (fst (fst file_info_)),
                        (fst (fst file_info_), core_id))])
          (set_core cores core_id
             {| activity_status := "Hashing (Small)";
                activity_file := Some (fst (fst file_info_)) |})
      else (rest, file_index, pending, cores)
  end.

(** Whether the call behind an entry of [future_to_file] ever finishes. *)
Definition completes (finishes : finishing) (e : entry) : bool :=
  finishes (fst (snd e)).

(** The pending futures that answer [done()], and the others. *)
Fixpoint split_done (finishes : finishing) (mask : list bool)
    (pending : list entry) : list entry * list entry :=
  match pending with
  | [] => ([], [])
  | e :: pending' =>
      let '(finished, waiting) := split_done finishes (tl mask) pending' in
      if hd false mask && completes finishes e
      then (e :: finished, waiting)
      else (finished, e :: waiting)
  end.

(** The [k]-th of the pending futures whose call finishes, and
    [future_to_file] after the [pop] of that future. *)
Fixpoint pick (finishes : finishing) (k : nat) (pending : list entry)
  : option (entry * list entry) :=
  match pending with
  | [] => None
  | e :: pending' =>
      let keep := fun '(x, l) => (x, e :: l) in
      if completes finishes e then
        match k with
        | O => Some (e, pending')
        | S k' => option_map keep (pick finishes k' pending')
        end
      else option_map keep (pick finishes k pending')
  end.

(** An exception leaves the [with ThreadPoolExecutor] block through the
    executor's [shutdown(wait=True)], which waits for every pending call:
    the exception reaches the caller only if all of them finish. *)
Definition leave_pool (A : Type) (finishes : finishing) (pending : list entry)
    (out : outcome A) : outcome A :=
  if forallb (completes finishes) pending then out else Blocks.

(** The outer [while] of the small-file loop, [pass] counting its
    passes.  Every pass pops a future or ends the call, so [fuel] passes
    suffice when [fuel] exceeds the number of files not yet popped. *)
Fixpoint small_loop (fuel : nat) (poll : Poller) (hash_func : string -> future)
    (finishes : finishing)
    (small_cores : nat) (pass : nat) (rest : list file_info) (file_index : nat)
    (pending : list entry) (acc : list (string * string) * core_activity)
  : option (outcome (list (string * string) * core_activity)) :=
  match fuel with
  | O => None
  | S fuel' =>
      match rest, pending with
      | [], [] => Some (Returned acc)
      | _, _ =>
          let '(rest, file_index, pending, cores) :=
            submit_small hash_func small_cores rest file_index pending (snd acc) in
          let acc := (fst acc, cores) in
          match pending with
          | [] =>
              small_loop fuel' poll hash_func finishes small_cores (S pass) rest
                file_index pending acc
          | _ :: _ =>
              let '(finished, waiting) :=
                split_done finishes (done poll pass) pending in
              match finished with
              | _ :: _ =>
                  small_loop fuel' poll hash_func finishes small_cores (S pass)
                    rest file_index waiting (fold_left collect finished acc)
              | [] =>
                  match completes_in_time poll pass with
                  | None => Some (leave_pool finishes pending TimeoutError)
                  | Some k =>
                      let able :=
                        List.length (filter (completes finishes) pending) in
                      match pick finishes (k mod able) pending with
                      | Some (e, pending) =>
                          small_loop fuel' poll hash_func finishes small_cores
                            (S pass) rest file_index pending (collect acc e)
                      | None =>
                          Some (leave_pool finishes pending TimeoutError)
                      end
                  end
              end
          end
      end
  end.

(** [cpu_count] is [multiprocessing.cpu_count()], [cores] the value of
    [self.core_activity] at the call.  [for future in
    as_completed(future_to_file)] of the large-file pool ends only when
    every submitted call has finished.  The result is [None] only if the
    passes allowed to the small-file loop do not suffice. *)
Definition process_files_with_core_tracking (sched : TrackedScheduler)
    (poll : Poller) (max_workers cpu_count : positive)
    (cores : core_activity) (files : list file_info)
    (hash_func : string -> future) (finishes : finishing)
  : option (outcome (list (string * string) * core_activity)) :=
  let large_files :=
    filter (fun '(_, s, _) => large_file_threshold <=? s) files in
  let small_files :=
    filter (fun '(_, s, _) => s <? large_file_threshold) files in
  let results : list (string * string) := [] in
  let max_cores := Nat.min (Pos.to_nat max_workers) (Pos.to_nat cpu_count) in
  let cores :=
    fold_left (fun cores i => set_core cores i idle) (seq 0 max_cores) cores in
  let large :=
    match large_files with
    | [] => Some (results, cores)
    | _ :: _ =>
        let large_cores := Nat.min 4 (Nat.max 2 (max_cores / 2)) in
        let '(future_to_file, cores) :=
          fold_left (submit_large hash_func large_cores)
            (enumerate_nat 0 large_files) ([], cores) in
        if forallb (completes finishes) future_to_file
        then Some (fold_left collect (tracked_completed sched future_to_file)
                     (results, cores))
        else None
    end in
  match large with
  | None => Some Blocks
  | Some acc =>
      match small_files with
      | [] => Some (Returned acc)
      | _ :: _ =>
          let small_cores := Nat.min (Pos.to_nat max_workers) max_cores in
          small_loop (S (List.length small_files)) poll hash_func finishes
            small_cores 0 small_files 0 [] acc
      end
  end.

End ParallelProcessor.

(** ** deduper.py *)

(** The dict objects built by [get_files] and mutated by the resolver. *)
Module Heap.

Definition ref : Type := nat.

Record t : Type := {
  cell : ref -> FileRecord;
  next_ref : ref
}.

Definition get (h : t) (r : ref) : FileRecord := cell h r.

Definition set (h : t) (r : ref) (v : FileRecord) : t :=
  {| cell := fun r' => if Nat.eqb r' r then v else cell h r';
     next_ref := next_ref h |}.

Definition alloc (h : t) (v : FileRecord) : ref * t :=
  (next_ref h,
   {| cell := fun r' => if Nat.eqb r' (next_ref h) then v else cell h r';
      next_ref := S (next_ref h) |}).

(** A list of fresh objects, one per value. *)
Definition alloc_all (h : t) (vs : list FileRecord) : list ref * t :=
  fold_left
    (fun '(refs, h) v => let '(r, h') := alloc h v in (refs ++ [r], h'))
    vs ([], h).

End Heap.

Module Deduper.

Record state : Type := {
  heap : Heap.t;
  workspace : Workspace.t
}.

Definition write_back (ws : Workspace.t) (file : FileRecord) : Workspace.t :=
  Workspace.add_file ws (path file) (size file) (modified file)
    (xxhash file) (md5 file) (sha1 file) (status file).

(** Body of the loop of [find_potential_duplicates]. *)
Definition potential_step (lib : HashLib) (fs : FileSystem)
    (acc : state * list (option string * list Heap.ref)) (file : Heap.ref)
  : state * list (option string * list Heap.ref) :=
  let '(st, hash_map) := acc in
  let st :=
    if negb (truthy (xxhash (Heap.get (heap st) file))) then
      let h := Heap.set (heap st) file
                 (set_xxhash (Heap.get (heap st) file)
                    (Hasher.compute_xxhash lib fs
                       (path (Heap.get (heap st) file)))) in
      {| heap := h; workspace := write_back (workspace st) (Heap.get h file) |}
    else st in
  (st, dd_append opt_eqb hash_map (xxhash (Heap.get (heap st) file)) file).

Definition find_potential_duplicates (lib : HashLib) (fs : FileSystem)
    (st : state) : list (list Heap.ref) * state :=
  let '(files, h) := Heap.alloc_all (heap st) (Workspace.get_files (workspace st)) in
  let st := {| heap := h; workspace := workspace st |} in
  let '(st, hash_map) := fold_left (potential_step lib fs) files (st, []) in
  (filter (fun group => (1 <? List.length group)%nat) (dict_values hash_map), st).

(** Body of the inner loop of [confirm_duplicates]. *)
Definition confirm_step (lib : HashLib) (fs : FileSystem)
    (acc : state * list (option string * list Heap.ref)) (file : Heap.ref)
  : state * list (option string * list Heap.ref) :=
  let '(st, md5_map) := acc in
  let st :=
    if negb (truthy (md5 (Heap.get (heap st) file))) then
      let h := Heap.set (heap st) file
                 (set_md5 (Heap.get (heap st) file)
                    (Hasher.compute_md5 lib fs
                       (path (Heap.get (heap st) file)))) in
      {| heap := h; workspace := write_back (workspace st) (Heap.get h file) |}
    else st in
  (st, dd_append opt_eqb md5_map (md5 (Heap.get (heap st) file)) file).

(** Body of the outer loop of [confirm_duplicates]. *)
Definition confirm_group (lib : HashLib) (fs : FileSystem)
    (acc : state * list (list Heap.ref)) (group : list Heap.ref)
  : state * list (list Heap.ref) :=
  let '(st, confirmed) := acc in
  let '(st, md5_map) := fold_left (confirm_step lib fs) group (st, []) in
  (st,
   fold_left
     (fun confirmed md5_group =>
        if (1 <? List.length md5_group)%nat
        then confirmed ++ [md5_group]
        else confirmed)
     (dict_values md5_map) confirmed).

Definition confirm_duplicates (lib : HashLib) (fs : FileSystem)
    (st : state) (potential_groups : list (list Heap.ref))
  : list (list Heap.ref) * state :=
  let '(st, confirmed) :=
    fold_left (confirm_group lib fs) potential_groups (st, []) in
  (confirmed, st).

End Deduper.

(** ** engine.py *)

Module DedupEngine.

Record t : Type := {
  workspace : Workspace.t;
  directories : list string
}.

Definition add_directory (fs : FileSystem) (e : t) (directory : string)
  : bool * t :=
  if os_path_exists fs directory
  then (true, {| workspace := workspace e;
                 directories := directories e ++ [directory] |})
  else (false, e).

(** [list.remove]: drops the first occurrence. *)
Fixpoint list_remove (l : list string) (x : string) : list string :=
  match l with
  | [] => []
  | y :: l' => if String.eqb y x then l' else y :: list_remove l' x
  end.

Definition remove_directory (e : t) (directory : string) : bool * t :=
  if existsb (String.eqb directory) (directories e)
  then (true, {| workspace := workspace e;
                 directories := list_remove (directories e) directory |})
  else (false, e).

(** [file_dict = {f[0]: (f[1], f[2]) for f in files}]. *)
Definition build_file_dict (files : list file_info) : list (string * (Z * Z)) :=
  fold_left
    (fun d '(p, s, m) => dict_set String.eqb d p (s, m))
    files [].

(** Step 3 of [scan_and_hash]: the loop over [hash_results].  The
    defaults of [Workspace.add_file] fill [md5], [sha1] and [status].
    Nothing catches what [add_file] raises: the loop stops at the first
    path [sqlite3] refuses, and the rows written before it stay, each
    insert being committed on its own. *)
Fixpoint store_results (sq : Sqlite) (file_dict : list (string * (Z * Z)))
    (hash_results : list (string * string)) (ws : Workspace.t)
  : result unit * Workspace.t :=
  match hash_results with
  | [] => (Ok tt, ws)
  | (filepath, xxhash_) :: hash_results' =>
      match dict_get String.eqb file_dict filepath with
      | Some (size_, modified_) =>
          match Workspace.try_add_file sq ws filepath size_ modified_
                  (Some xxhash_) None None "present" with
          | Ok ws' => store_results sq file_dict hash_results' ws'
          | Raise e => (Raise e, ws)
          end
      | None => store_results sq file_dict hash_results' ws
      end
  end.

(** [scan_and_hash] called without a progress callback.  The result is
    what the call returns or raises, with the engine as the call leaves
    it. *)
Definition scan_and_hash (sq : Sqlite) (lib : HashLib) (fs : FileSystem)
    (sched : Scheduler) (e : t) : result unit * t :=
  match directories e with
  | [] => (Raise (ValueError "No directories to scan"), e)
  | _ :: _ =>
      let files := Scanner.scan_directories fs (directories e) in
      let hash_results :=
        ParallelProcessor.process_files_parallel sched files
          (fun p => Ok (Hasher.compute_xxhash lib fs p)) in
      let file_dict := build_file_dict files in
      let '(outcome, ws) :=
        store_results sq file_dict hash_results (workspace e) in
      (outcome, {| workspace := ws; directories := directories e |})
  end.

(** [find_duplicates] called without a progress callback; [h] is the
    heap of dict objects at the time of the call. *)
Definition find_duplicates (lib : HashLib) (fs : FileSystem) (h : Heap.t)
    (e : t) : list (list Heap.ref) * Heap.t * t :=
  let st := {| Deduper.heap := h; Deduper.workspace := workspace e |} in
  let '(potential_groups, st) := Deduper.find_potential_duplicates lib fs st in
  let '(confirmed_duplicates, st) :=
    Deduper.confirm_duplicates lib fs st potential_groups in
  (confirmed_duplicates, Deduper.heap st,
   {| workspace := Deduper.workspace st; directories := directories e |}).

Definition get_all_files (e : t) : list FileRecord :=
  Workspace.get_files (workspace e).

End DedupEngine.

(** ** gui/scan_thread.py: the resume filter *)

Module ScanThread.

(** [SELECT xxhash, modified FROM files
     WHERE path = ? AND size = ? AND xxhash IS NOT NULL]. *)
Definition select_hashed (rows : list FileRecord) (filepath : string)
    (size_ : Z) : list (option string * Z) :=
  map (fun r => (xxhash r, modified r))
    (filter
       (fun r =>
          String.eqb (path r) filepath && (size r =? size_)
          && match xxhash r with Some _ => true | None => false end)
       rows).

(** [cursor.fetchone()]. *)
Definition fetchone (A : Type) (rows : list A) : option A := hd_error rows.

(** [thread_conn] is the thread's own connection to the workspace file,
    [None] before [run] has opened it. *)
Definition _filter_unhashed_files (thread_conn : option Workspace.t)
    (all_files : list file_info) : list file_info :=
  match thread_conn with
  | None => all_files
  | Some db =>
      fold_left
        (fun files_to_hash '(filepath, size_, modified_) =>
           match fetchone (select_hashed (Workspace.files db) filepath size_) with
           | None => files_to_hash ++ [(filepath, size_, modified_)]
           | Some (existing_xxhash, existing_modified) =>
               if negb (existing_modified =? modified_)
               then files_to_hash ++ [(filepath, size_, modified_)]
               else files_to_hash
           end)
        all_files []
  end.


End ScanThread.

(** ** recent_workspaces.py *)

Module RecentWorkspaces.

Definition max_recent : nat := 10.

(** An element of the decoded JSON list: a dict with string values, or
    anything else. *)
Inductive json_item : Type :=
| JDict (fields : list (string * string))
| JOther.

(** The value stored under key [recent_workspaces]: the text
    [json.dumps] wrote for a list, which [json.loads] reads back as that
    list, or a value [json.loads] rejects. *)
Inductive setting : Type :=
| JsonText (items : list json_item)
| Undecodable.

(** The [QSettings] store; [None] while the key was never set. *)
Record t : Type := {
  recent_workspaces : option setting
}.

Definition json_dumps_items (items : list json_item) : setting := JsonText items.

Definition json_loads_items (value : setting) : result (list json_item) :=
  match value with
  | JsonText items => Ok items
  | Undecodable => Raise JSONDecodeError
  end.

Definition setValue (value : setting) : t := {| recent_workspaces := Some value |}.

(** [settings.value("recent_workspaces", "[]")]. *)
Definition value (settings : t) : setting :=
  match recent_workspaces settings with
  | Some v => v
  | None => JsonText []
  end.

(** [workspace["path"]] where the item is a dict with that key. *)
Definition item_path (workspace : json_item) : option string :=
  match workspace with
  | JDict fields => dict_get String.eqb fields "path"
  | JOther => None
  end.

Definition get_recent_workspaces (fs : FileSystem) (settings : t)
  : list json_item * t :=
  let recent_json := value settings in
  let recent_list :=
    match json_loads_items recent_json with
    | Ok l => l
    | Raise _ => []
    end in
  let valid_workspaces :=
    fold_left
      (fun valid workspace =>
         match item_path workspace with
         | Some p => if os_path_exists fs p then valid ++ [workspace] else valid
         | None => valid
         end)
      recent_list [] in
  let settings :=
    if negb (Nat.eqb (List.length valid_workspaces) (List.length recent_list))
    then setValue (json_dumps_items valid_workspaces)
    else settings in
  (valid_workspaces, settings).

(** [abspath] is [os.path.abspath], [now] the text of
    [datetime.now().isoformat()]. *)
Definition add_workspace (fs : FileSystem) (abspath : string -> string)
    (now : string) (settings : t) (workspace_path : string)
    (workspace_name : option string) : t :=
  if negb (os_path_exists fs workspace_path) then settings
  else
    let '(recent_list, settings) := get_recent_workspaces fs settings in
    let workspace_entry :=
      JDict [("path", abspath workspace_path);
             ("name", match workspace_name with
                      | Some (String _ _ as n) => n
                      | _ => os_path_basename fs workspace_path
                      end);
             ("last_opened", now)] in
    let recent_list :=
      filter (fun w => negb (opt_eqb (item_path w) (item_path workspace_entry)))
        recent_list in
    let recent_list := workspace_entry :: recent_list in
    let recent_list := firstn max_recent recent_list in
    setValue (json_dumps_items recent_list).

Definition get_last_workspace (fs : FileSystem) (settings : t)
  : option string * t :=
  let '(recent, settings) := get_recent_workspaces fs settings in
  match recent with
  | first :: _ => (item_path first, settings)
  | [] => (None, settings)
  end.

Definition remove_workspace (fs : FileSystem) (settings : t)
    (workspace_path : string) : t :=
  let '(recent_list, settings) := get_recent_workspaces fs settings in
  let recent_list :=
    filter (fun w => negb (opt_eqb (item_path w) (Some workspace_path)))
      recent_list in
  setValue (json_dumps_items recent_list).

Definition clear_recent_workspaces (settings : t) : t :=
  setValue (json_dumps_items []).

(** The calls as data, and a run of a sequence of them. *)
Inductive op : Type :=
| AddWorkspace (now : string) (workspace_path : string)
    (workspace_name : option string)
| GetRecentWorkspaces
| GetLastWorkspace
| RemoveWorkspace (workspace_path : string)
| ClearRecentWorkspaces.

Definition exec (fs : FileSystem) (abspath : string -> string) (settings : t)
    (o : op) : t :=
  match o with
  | AddWorkspace now p n => add_workspace fs abspath now settings p n
  | GetRecentWorkspaces => snd (get_recent_workspaces fs settings)
  | GetLastWorkspace => snd (get_last_workspace fs settings)
  | RemoveWorkspace p => remove_workspace fs settings p
  | ClearRecentWorkspaces => clear_recent_workspaces settings
  end.

Definition run (fs : FileSystem) (abspath : string -> string) (settings : t)
    (ops : list op) : t :=
  fold_left (exec fs abspath) ops settings.

End RecentWorkspaces.

(** ** Reference outcomes of the hash functions *)

Module HasherSpec.
Import Hasher.

(** Number of [read] calls the loop makes on a file that never breaks:
    one per chunk of content, and the last, empty one. *)
Definition reads_needed (content : list byte) : N :=
  ((N.of_nat (List.length content) + CHUNK_SIZE - 1) / CHUNK_SIZE + 1)%N.

(** What the loop returns, given enough iterations. *)
Definition loop_outcome (f : file_object) (h : hash_object) : result hash_object :=
  match reads_until_fault f with
  | None => Ok (h ++ remaining f)
  | Some k =>
      if (N.of_nat k <? reads_needed (remaining f))%N
      then Raise OSError
      else Ok (h ++ remaining f)
  end.

(** What one of the three functions returns on a path, from what the
    file system holds there. *)
Definition digest_outcome (hexdigest : list byte -> string) (fs : FileSystem)
    (path_ : string) : option string :=
  match open_rb fs path_ with
  | Raise _ => None
  | Ok f =>
      match reads_until_fault f with
      | None => Some (hexdigest (remaining f))
      | Some k =>
          if (N.of_nat k <? reads_needed (remaining f))%N
          then None
          else Some (hexdigest (remaining f))
      end
  end.

End HasherSpec.

(** ** Reference notions for the resolver *)

Module DeduperSpec.

(** The strong hash a dict object is filed under: the stored [md5] when
    there is one, else what [compute_md5] gives for its path. *)
Definition strong_hash (lib : HashLib) (fs : FileSystem) (h : Heap.t)
    (r : Heap.ref) : option string :=
  if truthy (md5 (Heap.get h r))
  then md5 (Heap.get h r)
  else Hasher.compute_md5 lib fs (path (Heap.get h r)).

(** The fast fingerprint a dict object is filed under. *)
Definition fingerprint (lib : HashLib) (fs : FileSystem) (h : Heap.t)
    (r : Heap.ref) : option string :=
  if truthy (xxhash (Heap.get h r))
  then xxhash (Heap.get h r)
  else Hasher.compute_xxhash lib fs (path (Heap.get h r)).

(** A [defaultdict(list)] filled by one pass over [l]. *)
Definition group_by (X : Type) (key : X -> option string) (l : list X)
    (d : list (option string * list X)) : list (option string * list X) :=
  fold_left (fun d x => dd_append opt_eqb d (key x) x) l d.

(** The members of [l] filed under [k], in the order of [l]. *)
Definition members (X : Type) (key : X -> option string) (k : option string)
    (l : list X) : list X :=
  filter (fun x => opt_eqb (key x) k) l.

(** [d] is [l] sorted into classes by [key]. *)
Definition grouped (X : Type) (key : X -> option string) (l : list X)
    (d : list (option string * list X)) : Prop :=
  NoDup (dict_keys d) /\
  forall k,
    dict_get opt_eqb d k
    = match members key k l with
      | [] => None
      | c => Some c
      end.

(** The classes of [g] with more than one member, in dict order. *)
Definition classes (X : Type) (key : X -> option string) (g : list X)
  : list (list X) :=
  filter (fun c => (1 <? List.length c)%nat) (dict_values (group_by key g [])).

(** Two heaps agree on what every object is filed under, and the second
    keeps every object whose [md5] field already holds it. *)
Definition md5_settled (lib : HashLib) (fs : FileSystem) (h : Heap.t)
    (r : Heap.ref) : Prop :=
  md5 (Heap.get h r) = strong_hash lib fs h r.

Definition md5_extends (lib : HashLib) (fs : FileSystem) (h h' : Heap.t) : Prop :=
  (forall r, strong_hash lib fs h' r = strong_hash lib fs h r) /\
  (forall r, md5_settled lib fs h r -> Heap.get h' r = Heap.get h r).

End DeduperSpec.

(** ** Reference notions for the hashing pipeline *)

Module PipelineSpec.

(** The entry of [future_to_file] made for one file. *)
Definition submit (hash_func : string -> future) (f : file_info)
  : future * string :=
  (hash_func (fst (fst f)), fst (fst f)).

(** What a finished entry adds to [results]. *)
Definition completed (entry : future * string) : list (string * string) :=
  match entry with
  | (Ok (Some (String _ _ as h)), filepath) => [(filepath, h)]
  | _ => []
  end.

(** The row [scan_and_hash] writes for one hash result. *)
Definition scanned_record (file_dict : list (string * (Z * Z)))
    (hash_result : string * string) : list FileRecord :=
  match dict_get String.eqb file_dict (fst hash_result) with
  | Some (size_, modified_) =>
      [{| path := fst hash_result; size := size_; modified := modified_;
          xxhash := Some (snd hash_result); md5 := None; sha1 := None;
          status := "present" |}]
  | None => []
  end.

(** A run of [INSERT OR REPLACE] statements. *)
Definition upserts (rows : list FileRecord) (table : list FileRecord)
  : list FileRecord :=
  fold_left Workspace.insert_or_replace_file rows table.

(** [r] has a path that none of [rows] has. *)
Definition untouched (rows : list FileRecord) (r : FileRecord) : bool :=
  negb (existsb (String.eqb (path r)) (map path rows)).

(** Rows of which no two differ and share a path. *)
Definition functional_rows (rows : list FileRecord) : Prop :=
  forall r1 r2, In r1 rows -> In r2 rows -> path r1 = path r2 -> r1 = r2.

(** The rows one [scan_and_hash] over [roots] has to write: one for each
    hash result. *)
Definition scan_rows (lib : HashLib) (fs : FileSystem) (sched : Scheduler)
    (roots : list string) : list FileRecord :=
  let files := Scanner.scan_directories fs roots in
  flat_map (scanned_record (DedupEngine.build_file_dict files))
    (ParallelProcessor.process_files_parallel sched files
       (fun p => Ok (Hasher.compute_xxhash lib fs p))).

(** The hash results the store loop gets through: those before the first
    one whose path [sqlite3] refuses. *)
Fixpoint stored_prefix (sq : Sqlite) (file_dict : list (string * (Z * Z)))
    (hash_results : list (string * string)) : list (string * string) :=
  match hash_results with
  | [] => []
  | hash_result :: hash_results' =>
      match dict_get String.eqb file_dict (fst hash_result) with
      | Some _ =>
          if binds sq (fst hash_result)
          then hash_result :: stored_prefix sq file_dict hash_results'
          else []
      | None => hash_result :: stored_prefix sq file_dict hash_results'
      end
  end.

(** The rows one [scan_and_hash] over [roots] does write. *)
Definition stored_rows (sq : Sqlite) (lib : HashLib) (fs : FileSystem)
    (sched : Scheduler) (roots : list string) : list FileRecord :=
  let files := Scanner.scan_directories fs roots in
  flat_map (scanned_record (DedupEngine.build_file_dict files))
    (stored_prefix sq (DedupEngine.build_file_dict files)
       (ParallelProcessor.process_files_parallel sched files
          (fun p => Ok (Hasher.compute_xxhash lib fs p)))).

(** [sqlite3] binds the path of every file the scan of [roots]
    discovers. *)
Definition binds_discovered (sq : Sqlite) (fs : FileSystem)
    (roots : list string) : Prop :=
  forall p s m, In (p, s, m) (Scanner.scan_directories fs roots) ->
    binds sq p = true.

End PipelineSpec.

(** ** Sample environments *)

Module Examples.

Definition bytes_of (s : string) : list byte := list_byte_of_string s.

(** Stand-ins for the digest functions: a tag and the message itself. *)
Definition tagged_lib : HashLib :=
  {| xxh64_hexdigest := fun m => ("x:" ++ string_of_list_byte m)%string;
     md5_hexdigest := fun m => ("m:" ++ string_of_list_byte m)%string;
     sha1_hexdigest := fun m => ("s:" ++ string_of_list_byte m)%string |}.

(** A fingerprint function on which all files collide. *)
Definition colliding_lib : HashLib :=
  {| xxh64_hexdigest := fun _ => "0000000000000000";
     md5_hexdigest := fun m => ("m:" ++ string_of_list_byte m)%string;
     sha1_hexdigest := fun m => ("s:" ++ string_of_list_byte m)%string |}.

Fixpoint has_sep (s : string) : bool :=
  match s with
  | EmptyString => false
  | String c s' => if Ascii.eqb c "/" then true else has_sep s'
  end.

Fixpoint posix_basename (p : string) : string :=
  match p with
  | EmptyString => EmptyString
  | String c rest =>
      if has_sep rest then posix_basename rest
      else if Ascii.eqb c "/" then rest
      else p
  end.

Definition posix_join (a b : string) : string := (a ++ "/" ++ b)%string.

Definition healthy (content : string) : result file_object :=
  Ok {| remaining := bytes_of content; reads_until_fault := None |}.

(** Directory [/A] holds [f1] and [f2] with content foo, [f3] with
    content bar, and [locked], which can be listed and not opened; [torn]
    opens and breaks on its first read. *)
Definition tree_A : FileSystem :=
  {| os_path_exists := fun p => String.eqb p "/A";
     os_path_join := posix_join;
     os_path_basename := posix_basename;
     os_walk := fun top =>
       if String.eqb top "/A"
       then [("/A", [], ["f1"; "f2"; "f3"; "locked"])]
       else [];
     os_stat := fun p =>
       if String.eqb p "/A/f1" then Ok (3, 1700000001)
       else if String.eqb p "/A/f2" then Ok (3, 1700000002)
       else if String.eqb p "/A/f3" then Ok (3, 1700000003)
       else if String.eqb p "/A/locked" then Ok (9, 1700000004)
       else Raise OSError;
     open_rb := fun p =>
       if String.eqb p "/A/f1" then healthy "foo"
       else if String.eqb p "/A/f2" then healthy "foo"
       else if String.eqb p "/A/f3" then healthy "bar"
       else if String.eqb p "/A/torn"
       then Ok {| remaining := bytes_of "abc"; reads_until_fault := Some 0%nat |}
       else Raise OSError |}.

Definition record (p : string) (s m : Z) (x m5 : option string) (st : string)
  : FileRecord :=
  {| path := p; size := s; modified := m; xxhash := x; md5 := m5;
     sha1 := None; status := st |}.

Definition workspace_of (rows : list FileRecord) : Workspace.t :=
  {| Workspace.db_path := "/home/u/photos.dedupe";
     Workspace.files := rows;
     Workspace.workspace_config := [];
     Workspace.workspace_metadata := None;
     Workspace.workspace_directories := [] |}.

Definition engine_of (rows : list FileRecord) (roots : list string)
  : DedupEngine.t :=
  {| DedupEngine.workspace := workspace_of rows;
     DedupEngine.directories := roots |}.

(** A heap with no dict object allocated yet. *)
Definition empty_heap : Heap.t :=
  {| Heap.cell := fun _ => record "" 0 0 None None "";
     Heap.next_ref := 0%nat |}.

(** A heap holding the given dict objects at references 0, 1, ... *)
Definition heap_of (objects : list FileRecord) : Heap.t :=
  snd (Heap.alloc_all empty_heap objects).

(** The records a list of groups of references stands for. *)
Definition deref (h : Heap.t) (groups : list (list Heap.ref))
  : list (list FileRecord) :=
  map (map (Heap.get h)) groups.

(** Two stored files that can no longer be read, never fingerprinted. *)
Definition two_unreadable : list FileRecord :=
  [record "/A/locked" 9 1700000004 None None "present";
   record "/A/vanished" 5 1600000000 None None "present"].

(** Two stored files that can no longer be read, fingerprinted when they
    still could, with different fingerprints up to a collision. *)
Definition two_vanished : list FileRecord :=
  [record "/A/old1" 4 1600000001 (Some "0000000000000000") None "present";
   record "/A/old2" 4 1600000002 (Some "0000000000000000") None "present"].

(** The three files of [/A] as stored after a scan with the colliding
    fingerprint. *)
Definition three_collided : list FileRecord :=
  [record "/A/f1" 3 1700000001 (Some "0000000000000000") None "present";
   record "/A/f2" 3 1700000002 (Some "0000000000000000") None "present";
   record "/A/f3" 3 1700000003 (Some "0000000000000000") None "present"].


(** Two stored records that bear the same md5; the one of [f3] is stale,
    the file holds other content by now. *)
Definition stale_md5 : list FileRecord :=
  [record "/A/f1" 3 1700000001 (Some "x:foo") (Some "m:foo") "present";
   record "/A/f3" 3 1700000003 (Some "x:foo") (Some "m:foo") "present"].

(** A stand-in for the binding of [sqlite3]: it binds the strings made
    of ASCII bytes, which are valid UTF-8, and refuses every other string;
    it agrees with [sqlite3] on the names used below. *)
Fixpoint plain_ascii (s : string) : bool :=
  match s with
  | EmptyString => true
  | String c s' => (nat_of_ascii c <? 128)%nat && plain_ascii s'
  end.

Definition ascii_sqlite : Sqlite := {| binds := plain_ascii |}.

(** The name [caf] followed by the byte 0xE9, an e acute in Latin-1: no
    valid UTF-8. *)
Definition latin_name : string := "caf" ++ String (ascii_of_nat 233) EmptyString.

(** Directory [/L] holds [a], the Latin-1 name and [z], all readable. *)
Definition tree_L : FileSystem :=
  {| os_path_exists := fun p => String.eqb p "/L";
     os_path_join := posix_join;
     os_path_basename := posix_basename;
     os_walk := fun top =>
       if String.eqb top "/L"
       then [("/L", [], ["a"; latin_name; "z"])]
       else [];
     os_stat := fun p =>
       if String.eqb p "/L/a" then Ok (3, 1700000001)
       else if String.eqb p (posix_join "/L" latin_name) then Ok (3, 1700000002)
       else if String.eqb p "/L/z" then Ok (3, 1700000003)
       else Raise OSError;
     open_rb := fun p =>
       if String.eqb p "/L/a" then healthy "foo"
       else if String.eqb p (posix_join "/L" latin_name) then healthy "bar"
       else if String.eqb p "/L/z" then healthy "baz"
       else Raise OSError |}.

(** [/dev/zero] beside the files of [fs]: it opens, and every read gives
    as many zero bytes as asked for. *)
Definition open_with_dev_zero (fs : FileSystem) (p : string)
  : result HasherSteps.opened :=
  if String.eqb p "/dev/zero"
  then Ok (HasherSteps.Endless (fun _ => x00) 0%N)
  else HasherSteps.ending fs p.

(** A stored record of a file outside the roots. *)
Definition stale_row : list FileRecord :=
  [record "/B/old" 7 1500000000 (Some "x:old") None "present"].

Definition quote : string := String "034"%char EmptyString.

(** [json.dumps] on a list of strings that need no escaping. *)
Definition plain_dumps (l : list string) : string :=
  ("[" ++ String.concat ", " (map (fun x => quote ++ x ++ quote) l) ++ "]")%string.

(** [json.loads] on the texts [plain_dumps] writes; any other text is
    taken as malformed. *)
Inductive parse_state : Type :=
| AtStart
| AfterOpen
| InString (items : list string) (acc : string)
| AfterString (items : list string)
| AfterComma (items : list string)
| BeforeString (items : list string)
| AtEnd (items : list string)
| Malformed.

Definition parse_step (st : parse_state) (c : ascii) : parse_state :=
  match st with
  | AtStart => if Ascii.eqb c "[" then AfterOpen else Malformed
  | AfterOpen =>
      if Ascii.eqb c "]" then AtEnd []
      else if Ascii.eqb c "034" then InString [] EmptyString
      else Malformed
  | InString items acc =>
      if Ascii.eqb c "034" then AfterString (items ++ [acc])
      else InString items (acc ++ String c EmptyString)%string
  | AfterString items =>
      if Ascii.eqb c "]" then AtEnd items
      else if Ascii.eqb c "," then AfterComma items
      else Malformed
  | AfterComma items => if Ascii.eqb c " " then BeforeString items else Malformed
  | BeforeString items =>
      if Ascii.eqb c "034" then InString items EmptyString else Malformed
  | AtEnd _ => Malformed
  | Malformed => Malformed
  end.

Fixpoint parse_from (st : parse_state) (text : string) : parse_state :=
  match text with
  | EmptyString => st
  | String c text' => parse_from (parse_step st c) text'
  end.

Definition plain_loads (text : string) : result (list string) :=
  match parse_from AtStart text with
  | AtEnd items => Ok items
  | _ => Raise JSONDecodeError
  end.

Definition plain_codec : JsonCodec :=
  {| json_dumps := plain_dumps; json_loads := plain_loads |}.

End Examples.

(** ** Reference notions for the resume filter *)

Module ScanThreadSpec.

(** The branch the loop of [_filter_unhashed_files] takes on one file. *)
Definition needs_hash (db : Workspace.t) (f : file_info) : bool :=
  let '(filepath, size_, modified_) := f in
  match ScanThread.fetchone
          (ScanThread.select_hashed (Workspace.files db) filepath size_) with
  | None => true
  | Some (_, existing_modified) => negb (existing_modified =? modified_)
  end.

(** The store holds a current record of the file: same path, same size,
    a fingerprint, the same modified time. *)
Definition already_current (db : Workspace.t) (f : file_info) : Prop :=
  exists r,
    In r (Workspace.files db)
    /\ path r = fst (fst f) /\ size r = snd (fst f)
    /\ xxhash r <> None /\ modified r = snd f.

End ScanThreadSpec.

(** ** Reference notions for the store *)

Module StoreSpec.

(** [ws'] differs from [ws] in table [files] at most. *)
Definition same_other_tables (ws ws' : Workspace.t) : Prop :=
  Workspace.db_path ws' = Workspace.db_path ws
  /\ Workspace.workspace_config ws' = Workspace.workspace_config ws
  /\ Workspace.workspace_metadata ws' = Workspace.workspace_metadata ws
  /\ Workspace.workspace_directories ws' = Workspace.workspace_directories ws.

(** The operations other than [update_workspace_metadata]. *)
Definition keeps_metadata (o : Workspace.op) : bool :=
  match o with
  | Workspace.UpdateWorkspaceMetadata _ _ => false
  | _ => true
  end.

End StoreSpec.

(** ** Reference notions for the scanners *)

Module ScannerSpec.

(** The files one walk of [directory] reports: for every triple of the
    walk and every file name in it, the joined path with its size and time
    when [os.stat] succeeds. *)
Definition files_under (fs : FileSystem) (directory : string) : list file_info :=
  flat_map
    (fun '(root, _, filenames) =>
       flat_map
         (fun filename =>
            match os_stat fs (os_path_join fs root filename) with
            | Ok (st_size, st_mtime) =>
                [(os_path_join fs root filename, st_size, st_mtime)]
            | Raise _ => []
            end)
         filenames)
    (os_walk fs directory).

(** Thread pools that finish their scans first-in first-out, and
    last-in first-out. *)
Definition scan_fifo : Scanner.ScanScheduler :=
  {| Scanner.scans_completed := fun futures => futures;
     Scanner.scans_completed_perm := fun futures => Permutation_refl futures |}.

Definition scan_lifo : Scanner.ScanScheduler :=
  {| Scanner.scans_completed := fun futures => rev futures;
     Scanner.scans_completed_perm :=
       fun futures => Permutation_sym (Permutation_rev futures) |}.

End ScannerSpec.

(** ** Reference notions for the two phases of the resolver *)

Module ResolverSpec.

(** A stored row as phase 1 leaves it: with its fingerprint, or else with
    what [compute_xxhash] gives for its path. *)
Definition fill_xxhash (lib : HashLib) (fs : FileSystem) (row : FileRecord)
  : FileRecord :=
  if truthy (xxhash row) then row
  else set_xxhash row (Hasher.compute_xxhash lib fs (path row)).

Definition lacks_xxhash (row : FileRecord) : bool := negb (truthy (xxhash row)).

(** The references [find_potential_duplicates] allocates for the rows of
    the store. *)
Definition fresh_refs (h : Heap.t) (rows : list FileRecord) : list Heap.ref :=
  seq (Heap.next_ref h) (List.length rows).

(** Two records that differ in their [md5] field at most. *)
Definition same_but_md5 (a b : FileRecord) : Prop :=
  path b = path a /\ size b = size a /\ modified b = modified a
  /\ xxhash b = xxhash a /\ sha1 b = sha1 a /\ status b = status a.

(** A table with one row per path and the same paths as [rows0]. *)
Definition same_paths (rows0 rows : list FileRecord) : Prop :=
  NoDup (map path rows)
  /\ forall p, In p (map path rows) <-> In p (map path rows0).

(** A dict or row [b] that is [a] with, at most, its empty [md5] field
    filled with what [compute_md5] gives for the path. *)
Definition md5_filled (lib : HashLib) (fs : FileSystem) (a b : FileRecord)
  : Prop :=
  same_but_md5 a b
  /\ (md5 b = md5 a
      \/ (truthy (md5 a) = false
          /\ md5 b = Hasher.compute_md5 lib fs (path a))).

(** A stored row as the two phases leave its fields other than [md5]. *)
Definition resolved_from (lib : HashLib) (fs : FileSystem)
    (row final : FileRecord) : Prop :=
  md5_filled lib fs (fill_xxhash lib fs row) final.

(** Every dict of [refs] is a row of table [files]. *)
Definition in_sync (refs : list Heap.ref) (st : Deduper.state) : Prop :=
  forall r, In r refs ->
    In (Heap.get (Deduper.heap st) r) (Workspace.files (Deduper.workspace st)).

(** What phase 2 keeps of the state [st0] it started from, [visited] being
    the dicts it is given: every dict but for an empty [md5] field, the
    dicts it is not given, the size of the heap and, when the dicts given
    are stored rows, the paths of table [files] and every row but for an
    empty [md5] field. *)
Definition confirm_keeps (lib : HashLib) (fs : FileSystem)
    (st0 : Deduper.state) (visited : list Heap.ref) (st : Deduper.state)
  : Prop :=
  (forall r, md5_filled lib fs (Heap.get (Deduper.heap st0) r)
                               (Heap.get (Deduper.heap st) r))
  /\ (forall r, ~ In r visited ->
        Heap.get (Deduper.heap st) r = Heap.get (Deduper.heap st0) r)
  /\ Heap.next_ref (Deduper.heap st) = Heap.next_ref (Deduper.heap st0)
  /\ (in_sync visited st0 ->
      NoDup (map path (Workspace.files (Deduper.workspace st0))) ->
      same_paths (Workspace.files (Deduper.workspace st0))
                 (Workspace.files (Deduper.workspace st))
      /\ forall row', In row' (Workspace.files (Deduper.workspace st)) ->
           exists row, In row (Workspace.files (Deduper.workspace st0))
                       /\ md5_filled lib fs row row').

End ResolverSpec.

(** ** Reference notions for the tracked pools *)

Module TrackingSpec.
Import ParallelProcessor.

(** What a finished entry adds to [results]. *)
Definition kept (e : entry) : list (string * string) :=
  match fst e with
  | Ok (Some (String _ _ as h)) => [(fst (snd e), h)]
  | _ => []
  end.

(** The number of workers of the large-file pool. *)
Definition large_cores (max_workers cpu_count : positive) : nat :=
  Nat.min 4
    (Nat.max 2 (Nat.min (Pos.to_nat max_workers) (Pos.to_nat cpu_count) / 2)).

(** Every core is idle, or busy with a pending future, or was never
    touched by the call. *)
Definition busy_only (cores0 : core_activity) (pending : list entry)
    (cores : core_activity) : Prop :=
  forall c a,
    dict_get Nat.eqb cores c = Some a ->
    a = idle
    \/ dict_get Nat.eqb cores0 c = Some a
    \/ exists e, In e pending /\ snd (snd e) = c.

(** The call on a file ever finishes. *)
Definition file_completes (finishes : finishing) (f : file_info) : bool :=
  finishes (fst (fst f)).

(** Every call pending and every call still to submit finishes. *)
Definition all_finish (finishes : finishing) (pending : list entry)
    (rest : list file_info) : bool :=
  forallb (completes finishes) pending && forallb (file_completes finishes) rest.

(** Every call finishes. *)
Definition always : finishing := fun _ => true.

(** A pool that finishes its futures in submission order. *)
Definition tracked_fifo : TrackedScheduler :=
  {| tracked_completed := fun futures => futures;
     tracked_completed_perm := fun futures => Permutation_refl futures |}.

(** A pool in which nothing finishes within the time the loop waits. *)
Definition stalled : Poller :=
  {| done := fun _ => []; completes_in_time := fun _ => None |}.

(** A pool in which nothing is done when the loop looks, and the oldest
    pending future completes while it waits. *)
Definition in_turn : Poller :=
  {| done := fun _ => []; completes_in_time := fun _ => Some 0%nat |}.

End TrackingSpec.

(** ** Reference notions for the list of recent workspaces *)

Module RecentSpec.
Import RecentWorkspaces.

(** An entry [get_recent_workspaces] keeps: a dict with a path that exists. *)
Definition valid_item (fs : FileSystem) (workspace : json_item) : bool :=
  match item_path workspace with
  | Some p => os_path_exists fs p
  | None => false
  end.

(** The list a reader decodes from the settings. *)
Definition stored_items (settings : t) : list json_item :=
  match json_loads_items (value settings) with
  | Ok l => l
  | Raise _ => []
  end.

(** The settings of a first run: the key was never set. *)
Definition fresh : t := {| recent_workspaces := None |}.

(** The stored value is a list of at most [max_recent] dicts, each with a
    path, no path twice. *)
Definition well_formed (settings : t) : Prop :=
  exists l,
    value settings = JsonText l
    /\ (List.length l <= max_recent)%nat
    /\ NoDup (map item_path l)
    /\ forall w, In w l -> item_path w <> None.

End RecentSpec.

(** * Properties *)

(** ** Reading a file in chunks *)

Section ChunkedRead.
Import Hasher HasherSpec.

Lemma take_drop (n : N) (l : list byte) : take n l ++ drop n l = l.
Proof.
  revert n; induction l as [|b l IH]; intros n; simpl; [reflexivity|].
  destruct (n =? 0)%N; simpl; [reflexivity|].
  now rewrite IH.
Qed.

Lemma take_length (n : N) (l : list byte) :
  (N.of_nat (List.length (take n l)) <= n)%N.
Proof.
  revert n; induction l as [|b l IH]; intros n; cbn [take List.length]; [lia|].
  destruct (n =? 0)%N eqn:E; cbn [List.length]; [lia|].
  apply N.eqb_neq in E. specialize (IH (N.pred n)). lia.
Qed.

Lemma drop_length (n : N) (l : list byte) :
  N.of_nat (List.length (drop n l)) = (N.of_nat (List.length l) - n)%N.
Proof.
  revert n; induction l as [|b l IH]; intros n; cbn [drop List.length]; [lia|].
  destruct (n =? 0)%N eqn:E.
  - apply N.eqb_eq in E. cbn [List.length]. lia.
  - apply N.eqb_neq in E. rewrite IH. lia.
Qed.

Lemma take_nil (n : N) (l : list byte) :
  n <> 0%N -> take n l = [] -> l = [].
Proof.
  intros Hn. destruct l as [|b l]; simpl; [reflexivity|].
  destruct (n =? 0)%N eqn:E; [apply N.eqb_eq in E; contradiction|discriminate].
Qed.

Lemma CHUNK_SIZE_value : CHUNK_SIZE = 1048576%N.
Proof. reflexivity. Qed.

Lemma CHUNK_SIZE_pos : CHUNK_SIZE <> 0%N.
Proof. discriminate. Qed.

Lemma reads_needed_pos (l : list byte) : (0 < reads_needed l)%N.
Proof. unfold reads_needed. rewrite N.add_1_r. apply N.lt_0_succ. Qed.

Lemma reads_needed_nil : reads_needed [] = 1%N.
Proof. reflexivity. Qed.

Lemma reads_needed_step (l : list byte) :
  l <> [] -> reads_needed l = (reads_needed (drop CHUNK_SIZE l) + 1)%N.
Proof.
  intros Hl. unfold reads_needed. rewrite drop_length.
  assert (HL : (1 <= N.of_nat (List.length l))%N)
    by (destruct l; [congruence | simpl; lia]).
  rewrite CHUNK_SIZE_value.
  generalize dependent (N.of_nat (List.length l)). intros L HL.
  destruct (N.le_gt_cases 1048576 L) as [Hbig|Hsmall].
  - replace (L + 1048576 - 1)%N with ((L - 1048576 + 1048576 - 1) + 1 * 1048576)%N by lia.
    rewrite N.div_add by discriminate. lia.
  - replace (L - 1048576)%N with 0%N by lia.
    replace (L + 1048576 - 1)%N with ((L - 1) + 1 * 1048576)%N by lia.
    rewrite N.div_add by discriminate.
    rewrite (N.div_small (L - 1)) by lia.
    reflexivity.
Qed.

Lemma read_loop_enough_fuel (fuel : nat) :
  forall f h,
    (List.length (remaining f) < fuel)%nat ->
    read_loop fuel f h = Some (loop_outcome f h).
Proof.
  induction fuel as [|fuel IH]; intros f h Hfuel; [lia|].
  destruct f as [content fault]. simpl in Hfuel.
  assert (Hstep : forall fault',
    match take CHUNK_SIZE content with
    | [] => Some (Ok h)
    | _ :: _ =>
        read_loop fuel {| remaining := drop CHUNK_SIZE content;
                          reads_until_fault := fault' |}
          (update h (take CHUNK_SIZE content))
    end
    = match content with
      | [] => Some (Ok h)
      | _ :: _ =>
          Some (loop_outcome {| remaining := drop CHUNK_SIZE content;
                                reads_until_fault := fault' |}
                  (h ++ take CHUNK_SIZE content))
      end).
  { intros fault'. destruct content as [|b content]; [reflexivity|].
    destruct (take CHUNK_SIZE (b :: content)) eqn:Et.
    - apply take_nil in Et; [discriminate | apply CHUNK_SIZE_pos].
    - rewrite <- Et. apply IH. cbn [remaining].
      pose proof (drop_length CHUNK_SIZE (b :: content)) as Hd.
      pose proof CHUNK_SIZE_pos as Hc.
      cbn [List.length] in Hd, Hfuel. lia. }
  cbn [read_loop]. unfold read. cbn [remaining reads_until_fault].
  destruct fault as [[|k]|].
  - unfold loop_outcome. cbn [remaining reads_until_fault N.of_nat].
    pose proof (reads_needed_pos content) as Hp.
    destruct (0 <? reads_needed content)%N eqn:E; [reflexivity|].
    apply N.ltb_ge in E. lia.
  - rewrite Hstep. unfold loop_outcome. cbn [remaining reads_until_fault].
    destruct content as [|b content].
    + rewrite reads_needed_nil, app_nil_r.
      destruct (N.of_nat (S k) <? 1)%N eqn:E; [apply N.ltb_lt in E; lia | reflexivity].
    + rewrite (reads_needed_step (l := b :: content)) by discriminate.
      rewrite <- app_assoc, take_drop.
      destruct (N.of_nat k <? reads_needed (drop CHUNK_SIZE (b :: content)))%N eqn:E1;
        destruct (N.of_nat (S k) <? reads_needed (drop CHUNK_SIZE (b :: content)) + 1)%N eqn:E2;
        try reflexivity.
      * apply N.ltb_lt in E1. apply N.ltb_ge in E2. lia.
      * apply N.ltb_ge in E1. apply N.ltb_lt in E2. lia.
  - rewrite Hstep. unfold loop_outcome. cbn [remaining reads_until_fault].
    destruct content as [|b content].
    + now rewrite app_nil_r.
    + now rewrite <- app_assoc, take_drop.
Qed.

Lemma stream_digest_outcome hexdigest fs path_ :
  catch_all (stream_digest hexdigest fs path_) = digest_outcome hexdigest fs path_.
Proof.
  unfold stream_digest, digest_outcome.
  destruct (open_rb fs path_) as [f|e]; [|reflexivity].
  rewrite read_loop_enough_fuel by lia.
  unfold loop_outcome, new_hash. simpl.
  destruct (reads_until_fault f) as [k|]; [|reflexivity].
  destruct (N.of_nat k <? reads_needed (remaining f))%N; reflexivity.
Qed.

Lemma read_loop_more_fuel (fuel : nat) :
  forall k f h r,
    Hasher.read_loop fuel f h = Some r ->
    Hasher.read_loop (fuel + k) f h = Some r.
Proof.
  induction fuel as [|fuel IH]; intros k f h r;
    cbn [Hasher.read_loop Nat.add]; [discriminate|].
  destruct (Hasher.read f CHUNK_SIZE) as [[chunk f']|e]; [|trivial].
  destruct chunk; [trivial|]. apply IH.
Qed.

(** Whenever the loop ends, it ends as [loop_outcome] tells. *)
Lemma read_loop_returns (fuel : nat) (f : file_object) (h : hash_object)
    (r : result hash_object) :
  Hasher.read_loop fuel f h = Some r -> r = loop_outcome f h.
Proof.
  intros H.
  apply (read_loop_more_fuel fuel (S (List.length (remaining f)))) in H.
  rewrite read_loop_enough_fuel in H by lia. congruence.
Qed.

(** On a file that ends the loop run read by read is the loop of
    [Hasher]. *)
Lemma steps_read_loop_ending (reads : nat) :
  forall f h,
    HasherSteps.read_loop reads (HasherSteps.Ending f) h
    = Hasher.read_loop reads f h.
Proof.
  induction reads as [|reads IH]; intros f h;
    cbn [HasherSteps.read_loop Hasher.read_loop HasherSteps.read];
    [reflexivity|].
  destruct (Hasher.read f CHUNK_SIZE) as [[chunk f']|e]; [|reflexivity].
  destruct chunk; [reflexivity|]. apply IH.
Qed.

(** On a file that never ends no read comes back empty, and the loop is
    still running after any number of reads. *)
Lemma steps_read_loop_endless (reads : nat) :
  forall bytes pos h,
    HasherSteps.read_loop reads (HasherSteps.Endless bytes pos) h = None.
Proof.
  induction reads as [|reads IH]; intros bytes pos h;
    cbn [HasherSteps.read_loop HasherSteps.read]; [reflexivity|].
  destruct (N.to_nat CHUNK_SIZE) as [|n] eqn:E.
  - exfalso. pose proof CHUNK_SIZE_value. lia.
  - cbn [seq map]. apply IH.
Qed.

(** What a hash function has returned after [reads] reads. *)
Lemma steps_stream_digest (hexdigest : list byte -> string)
    (open_ : string -> result HasherSteps.opened) (path_ : string)
    (reads : nat) :
  HasherSteps.catch_all (HasherSteps.stream_digest reads hexdigest open_ path_)
  = match open_ path_ with
    | Raise _ => Some None
    | Ok (HasherSteps.Endless _ _) => None
    | Ok (HasherSteps.Ending f) =>
        match Hasher.read_loop reads f new_hash with
        | None => None
        | Some (Raise _) => Some None
        | Some (Ok h) => Some (Some (hexdigest h))
        end
    end.
Proof.
  unfold HasherSteps.stream_digest.
  destruct (open_ path_) as [[f|bytes pos]|e]; [| |reflexivity].
  - rewrite steps_read_loop_ending.
    now destruct (Hasher.read_loop reads f new_hash) as [[h|e]|].
  - now rewrite steps_read_loop_endless.
Qed.

Lemma steps_stream_digest_enough (hexdigest : list byte -> string)
    (open_ : string -> result HasherSteps.opened) (path_ : string)
    (f : file_object) (reads : nat) :
  open_ path_ = Ok (HasherSteps.Ending f) ->
  (List.length (remaining f) < reads)%nat ->
  HasherSteps.catch_all (HasherSteps.stream_digest reads hexdigest open_ path_)
  = Some
      match reads_until_fault f with
      | None => Some (hexdigest (remaining f))
      | Some k =>
          if (N.of_nat k <? reads_needed (remaining f))%N
          then None
          else Some (hexdigest (remaining f))
      end.
Proof.
  intros Ho Hreads. rewrite steps_stream_digest, Ho.
  rewrite read_loop_enough_fuel by exact Hreads.
  unfold loop_outcome, new_hash. cbn [app].
  destruct (reads_until_fault f) as [k|]; [|reflexivity].
  now destruct (N.of_nat k <? reads_needed (remaining f))%N.
Qed.

End ChunkedRead.

(** ** Dicts *)

Lemma opt_eqb_eq (a b : option string) : opt_eqb a b = true <-> a = b.
Proof.
  destruct a as [x|], b as [y|]; simpl; split; intros H;
    try discriminate; try reflexivity.
  - apply String.eqb_eq in H. now subst.
  - inversion H. apply String.eqb_refl.
Qed.

Lemma opt_eqb_refl (a : option string) : opt_eqb a a = true.
Proof. now apply opt_eqb_eq. Qed.

Lemma opt_eqb_neq (a b : option string) : opt_eqb a b = false <-> a <> b.
Proof.
  split.
  - intros H E. apply opt_eqb_eq in E. congruence.
  - intros H. destruct (opt_eqb a b) eqn:E; [|reflexivity].
    apply opt_eqb_eq in E. contradiction.
Qed.

Section PyDictFacts.
Variables (K V : Type) (eqb : K -> K -> bool).
Hypothesis eqb_eq : forall a b, eqb a b = true <-> a = b.

Lemma eqb_refl' (a : K) : eqb a a = true.
Proof. now apply eqb_eq. Qed.

Lemma dict_get_set (d : list (K * V)) (k k' : K) (v : V) :
  dict_get eqb (dict_set eqb d k v) k'
  = if eqb k' k then Some v else dict_get eqb d k'.
Proof.
  induction d as [|[k0 v0] d IH]; simpl.
  - reflexivity.
  - destruct (eqb k k0) eqn:E; simpl.
    + apply eqb_eq in E. subst k0.
      destruct (eqb k' k); reflexivity.
    + destruct (eqb k' k0) eqn:E'.
      * apply eqb_eq in E'. subst k0.
        destruct (eqb k' k) eqn:E''; [|reflexivity].
        apply eqb_eq in E''. subst. rewrite eqb_refl' in E. discriminate.
      * exact IH.
Qed.

Lemma dict_get_none (d : list (K * V)) (k : K) :
  dict_get eqb d k = None <-> ~ In k (dict_keys d).
Proof.
  induction d as [|[k0 v0] d IH]; simpl.
  - tauto.
  - destruct (eqb k k0) eqn:E.
    + apply eqb_eq in E. split; [discriminate | intros H; exfalso; auto].
    + rewrite IH. split.
      * intros H [H'|H']; [|auto]. subst. rewrite eqb_refl' in E. discriminate.
      * intros H H'. auto.
Qed.

Lemma dict_keys_set (d : list (K * V)) (k : K) (v : V) :
  dict_keys (dict_set eqb d k v)
  = match dict_get eqb d k with
    | Some _ => dict_keys d
    | None => dict_keys d ++ [k]
    end.
Proof.
  induction d as [|[k0 v0] d IH]; simpl.
  - reflexivity.
  - destruct (eqb k k0) eqn:E; simpl.
    + reflexivity.
    + rewrite IH. destruct (dict_get eqb d k); reflexivity.
Qed.

Lemma dict_keys_set_nodup (d : list (K * V)) (k : K) (v : V) :
  NoDup (dict_keys d) -> NoDup (dict_keys (dict_set eqb d k v)).
Proof.
  intros Hnd. rewrite dict_keys_set.
  destruct (dict_get eqb d k) eqn:E; [assumption|].
  apply dict_get_none in E.
  apply NoDup_app; [assumption | repeat constructor; simpl; tauto |].
  intros x Hx [Hk|[]]. subst. contradiction.
Qed.

Lemma dict_get_in (d : list (K * V)) (k : K) (v : V) :
  NoDup (dict_keys d) -> (In (k, v) d <-> dict_get eqb d k = Some v).
Proof.
  induction d as [|[k0 v0] d IH]; simpl; intros Hnd.
  - split; [tauto | discriminate].
  - inversion Hnd as [|? ? Hnot Hnd']; subst.
    destruct (eqb k k0) eqn:E.
    + apply eqb_eq in E. subst k0. split.
      * intros [H|H]; [congruence|].
        exfalso. apply Hnot. unfold dict_keys.
        change k with (fst (k, v)). now apply in_map.
      * intros H. left. congruence.
    + rewrite <- (IH Hnd'). split.
      * intros [H|H]; [|assumption].
        inversion H; subst. rewrite eqb_refl' in E. discriminate.
      * auto.
Qed.
End PyDictFacts.

(** ** Sorting a list into a [defaultdict(list)] *)

Section Grouping.
Import DeduperSpec.
Variables (X : Type) (key : X -> option string).

Lemma members_app (k : option string) (l1 l2 : list X) :
  members key k (l1 ++ l2) = members key k l1 ++ members key k l2.
Proof. apply filter_app. Qed.

Lemma members_in (k : option string) (l : list X) (x : X) :
  In x (members key k l) <-> In x l /\ key x = k.
Proof.
  unfold members. rewrite filter_In. now rewrite opt_eqb_eq.
Qed.

Lemma grouped_nil : grouped key [] [].
Proof. split; [constructor | reflexivity]. Qed.

Lemma grouped_step (l : list X) (d : list (option string * list X)) (x : X) :
  grouped key l d -> grouped key (l ++ [x]) (dd_append opt_eqb d (key x) x).
Proof.
  intros [Hnd Hget]. split.
  - unfold dd_append. destruct (dict_get opt_eqb d (key x));
      now apply dict_keys_set_nodup; [apply opt_eqb_eq|].
  - intros k. rewrite members_app.
    assert (Hset : forall v,
      dict_get opt_eqb (dict_set opt_eqb d (key x) v) k
      = if opt_eqb k (key x) then Some v else dict_get opt_eqb d k)
      by (intros v; apply dict_get_set, opt_eqb_eq).
    unfold dd_append.
    destruct (opt_eqb k (key x)) eqn:E.
    + apply opt_eqb_eq in E. subst k.
      unfold members at 2. simpl. rewrite opt_eqb_refl.
      rewrite (Hget (key x)).
      destruct (members key (key x) l) as [|a c]; rewrite Hset; reflexivity.
    + assert (E' : opt_eqb (key x) k = false).
      { apply opt_eqb_neq. apply opt_eqb_neq in E. congruence. }
      unfold members at 2. simpl. rewrite E', app_nil_r.
      destruct (dict_get opt_eqb d (key x)); rewrite Hset; apply Hget.
Qed.

Lemma group_by_grouped (l l0 : list X) (d : list (option string * list X)) :
  grouped key l0 d -> grouped key (l0 ++ l) (group_by key l d).
Proof.
  revert l0 d. induction l as [|x l IH]; intros l0 d H; simpl.
  - now rewrite app_nil_r.
  - replace (l0 ++ x :: l) with ((l0 ++ [x]) ++ l)
      by (now rewrite <- app_assoc).
    apply IH. now apply grouped_step.
Qed.

(** The values of the dict are the non-empty classes of [l]. *)
Lemma group_by_values (l : list X) (c : list X) :
  In c (dict_values (group_by key l []))
  <-> exists k, c = members key k l /\ c <> [].
Proof.
  pose proof (group_by_grouped l grouped_nil) as [Hnd Hget].
  simpl in Hnd, Hget. split.
  - intros H. unfold dict_values in H. apply in_map_iff in H.
    destruct H as [[k c'] [Hc Hin]]. simpl in Hc. subst c'.
    apply (dict_get_in opt_eqb opt_eqb_eq _ _ _ Hnd) in Hin.
    rewrite Hget in Hin. exists k.
    destruct (members key k l); [discriminate|].
    inversion Hin. split; [reflexivity | discriminate].
  - intros [k [Hc Hne]].
    assert (Hin : dict_get opt_eqb (group_by key l []) k = Some c).
    { rewrite Hget, <- Hc. destruct c; [congruence | reflexivity]. }
    apply (dict_get_in opt_eqb opt_eqb_eq _ _ _ Hnd) in Hin.
    unfold dict_values. apply in_map_iff. now exists (k, c).
Qed.
End Grouping.

(** ** confirm_duplicates *)

Section ConfirmFacts.
Import DeduperSpec Deduper.
Variables (lib : HashLib) (fs : FileSystem).

Lemma set_md5_same (file : FileRecord) : set_md5 file (md5 file) = file.
Proof. now destruct file. Qed.

Lemma heap_get_set_same (h : Heap.t) (r : Heap.ref) (v : FileRecord) :
  Heap.get (Heap.set h r v) r = v.
Proof. unfold Heap.get, Heap.set; simpl. now rewrite Nat.eqb_refl. Qed.

Lemma heap_get_set_other (h : Heap.t) (r r' : Heap.ref) (v : FileRecord) :
  r' <> r -> Heap.get (Heap.set h r v) r' = Heap.get h r'.
Proof.
  intros H. unfold Heap.get, Heap.set; simpl.
  apply Nat.eqb_neq in H. now rewrite H.
Qed.

Lemma md5_extends_refl (h : Heap.t) : md5_extends lib fs h h.
Proof. split; auto. Qed.

Lemma md5_settled_extends (h h' : Heap.t) (r : Heap.ref) :
  md5_extends lib fs h h' -> md5_settled lib fs h r -> md5_settled lib fs h' r.
Proof.
  intros [Hs Hk] H. unfold md5_settled in *.
  now rewrite Hs, (Hk r H).
Qed.

Lemma md5_extends_trans (h1 h2 h3 : Heap.t) :
  md5_extends lib fs h1 h2 -> md5_extends lib fs h2 h3 ->
  md5_extends lib fs h1 h3.
Proof.
  intros H12 H23. split.
  - intros r. destruct H12 as [H12 _], H23 as [H23 _]. now rewrite H23.
  - intros r Hr.
    pose proof (md5_settled_extends H12 Hr) as Hr2.
    destruct H12 as [_ H12], H23 as [_ H23].
    rewrite (H23 r Hr2). now apply H12.
Qed.

Lemma confirm_step_spec (st : state) (m : list (option string * list Heap.ref))
    (r : Heap.ref) :
  exists st',
    confirm_step lib fs (st, m) r
    = (st', dd_append opt_eqb m (strong_hash lib fs (heap st) r) r)
    /\ md5_extends lib fs (heap st) (heap st')
    /\ md5_settled lib fs (heap st') r.
Proof.
  unfold confirm_step.
  destruct (truthy (md5 (Heap.get (heap st) r))) eqn:T; cbn [negb].
  - exists st. split; [|split].
    + unfold strong_hash. now rewrite T.
    + apply md5_extends_refl.
    + unfold md5_settled, strong_hash. now rewrite T.
  - set (c := Hasher.compute_md5 lib fs (path (Heap.get (heap st) r))).
    set (h' := Heap.set (heap st) r (set_md5 (Heap.get (heap st) r) c)).
    assert (Hkey : strong_hash lib fs (heap st) r = c)
      by (unfold strong_hash; now rewrite T).
    assert (Hstrong : forall r', strong_hash lib fs h' r' = strong_hash lib fs (heap st) r').
    { intros r'. destruct (Nat.eq_dec r' r) as [->|Hne].
      - rewrite Hkey. unfold strong_hash, h'. rewrite heap_get_set_same.
        cbn [md5 path set_md5]. fold c. now destruct (truthy c).
      - unfold strong_hash, h'. now rewrite heap_get_set_other. }
    assert (Hmd5 : md5 (Heap.get h' r) = c)
      by (unfold h'; now rewrite heap_get_set_same).
    exists {| heap := h'; workspace := write_back (workspace st) (Heap.get h' r) |}.
    cbn [heap]. split; [now rewrite Hmd5, Hkey|].
    split; [split|].
    + exact Hstrong.
    + intros r' Hr'. destruct (Nat.eq_dec r' r) as [->|Hne].
      * unfold h'. rewrite heap_get_set_same.
        unfold md5_settled in Hr'. rewrite Hkey in Hr'.
        rewrite <- Hr'. apply set_md5_same.
      * unfold h'. now apply heap_get_set_other.
    + unfold md5_settled. now rewrite Hstrong, Hkey.
Qed.

Lemma group_by_ext (X : Type) (key key' : X -> option string) (l : list X) :
  (forall x, key x = key' x) ->
  forall d, group_by key l d = group_by key' l d.
Proof.
  intros H. induction l as [|x l IH]; intros d; simpl; [reflexivity|].
  now rewrite H, IH.
Qed.

Lemma confirm_steps_spec (g : list Heap.ref) :
  forall (st : state) (m : list (option string * list Heap.ref)),
  exists st',
    fold_left (confirm_step lib fs) g (st, m)
    = (st', group_by (strong_hash lib fs (heap st)) g m)
    /\ md5_extends lib fs (heap st) (heap st')
    /\ forall r, In r g -> md5_settled lib fs (heap st') r.
Proof.
  induction g as [|r g IH]; intros st m; cbn [fold_left].
  - exists st. split; [reflexivity|]. split; [apply md5_extends_refl|].
    intros r [].
  - destruct (confirm_step_spec st m r) as [st1 [E1 [X1 S1]]].
    rewrite E1.
    destruct (IH st1 (dd_append opt_eqb m (strong_hash lib fs (heap st) r) r))
      as [st' [E' [X' S']]].
    exists st'. split; [|split].
    + rewrite E'. f_equal.
      change (group_by (strong_hash lib fs (heap st)) (r :: g) m)
        with (group_by (strong_hash lib fs (heap st)) g
                (dd_append opt_eqb m (strong_hash lib fs (heap st) r) r)).
      apply group_by_ext. apply X1.
    + eapply md5_extends_trans; eassumption.
    + intros r' [->|Hin]; [|auto].
      eapply md5_settled_extends; eassumption.
Qed.

Lemma keep_groups_spec (X : Type) (vs : list (list X)) :
  forall confirmed,
    fold_left
      (fun confirmed md5_group =>
         if (1 <? List.length md5_group)%nat
         then confirmed ++ [md5_group]
         else confirmed)
      vs confirmed
    = confirmed ++ filter (fun c => (1 <? List.length c)%nat) vs.
Proof.
  induction vs as [|v vs IH]; intros confirmed; simpl.
  - now rewrite app_nil_r.
  - rewrite IH. destruct (1 <? List.length v)%nat; [|reflexivity].
    now rewrite <- app_assoc.
Qed.

Lemma confirm_group_spec (st : state) (confirmed : list (list Heap.ref))
    (g : list Heap.ref) :
  exists st',
    confirm_group lib fs (st, confirmed) g
    = (st', confirmed ++ classes (strong_hash lib fs (heap st)) g)
    /\ md5_extends lib fs (heap st) (heap st')
    /\ forall r, In r g -> md5_settled lib fs (heap st') r.
Proof.
  unfold confirm_group.
  destruct (confirm_steps_spec g st []) as [st' [E [X S]]].
  rewrite E. exists st'. split; [|split; assumption].
  now rewrite keep_groups_spec.
Qed.

Lemma classes_ext (key key' : Heap.ref -> option string) (g : list Heap.ref) :
  (forall x, key x = key' x) -> classes key g = classes key' g.
Proof. intros H. unfold classes. now rewrite (@group_by_ext _ key key' g H). Qed.

Lemma confirm_groups_spec (groups : list (list Heap.ref)) :
  forall (st : state) (confirmed : list (list Heap.ref)),
  exists st',
    fold_left (confirm_group lib fs) groups (st, confirmed)
    = (st', confirmed ++ flat_map (classes (strong_hash lib fs (heap st))) groups)
    /\ md5_extends lib fs (heap st) (heap st')
    /\ forall g r, In g groups -> In r g -> md5_settled lib fs (heap st') r.
Proof.
  induction groups as [|g groups IH]; intros st confirmed;
    cbn [fold_left flat_map].
  - exists st. rewrite app_nil_r. split; [reflexivity|].
    split; [apply md5_extends_refl|]. intros g r [].
  - destruct (confirm_group_spec st confirmed g) as [st1 [E1 [X1 S1]]].
    rewrite E1.
    destruct (IH st1 (confirmed ++ classes (strong_hash lib fs (heap st)) g))
      as [st' [E' [X' S']]].
    exists st'. split; [|split].
    + rewrite E', <- app_assoc. f_equal. f_equal. f_equal.
      apply flat_map_ext. intros g'. apply classes_ext. apply X1.
    + eapply md5_extends_trans; eassumption.
    + intros g' r [->|Hin] Hr; [|eauto].
      eapply md5_settled_extends; eauto.
Qed.

(** The groups returned are the classes of each potential group under
    the strong hash of the heap before the call, and after the call the
    [md5] field of every member holds that strong hash. *)
Lemma confirm_duplicates_spec (st : state) (groups : list (list Heap.ref)) :
  fst (confirm_duplicates lib fs st groups)
  = flat_map (classes (strong_hash lib fs (heap st))) groups
  /\ forall g r, In g groups -> In r g ->
       md5 (Heap.get (heap (snd (confirm_duplicates lib fs st groups))) r)
       = strong_hash lib fs (heap st) r.
Proof.
  unfold confirm_duplicates.
  destruct (confirm_groups_spec groups st []) as [st' [E [X S]]].
  rewrite E. simpl. split; [reflexivity|].
  intros g r Hg Hr. rewrite (S g r Hg Hr). apply X.
Qed.

Lemma classes_in (X : Type) (key : X -> option string) (g c : list X) :
  In c (classes key g)
  <-> exists k, c = members key k g /\ (2 <= List.length c)%nat.
Proof.
  unfold classes. rewrite filter_In, group_by_values. split.
  - intros [[k [Hc _]] Hlen]. exists k. split; [assumption|].
    apply Nat.ltb_lt in Hlen. lia.
  - intros [k [Hc Hlen]]. split.
    + exists k. split; [assumption|]. intros ->. simpl in Hlen. lia.
    + apply Nat.ltb_lt. lia.
Qed.
End ConfirmFacts.

(** ** The potential groups are disjoint *)

Section PotentialFacts.
Import Deduper.
Variables (lib : HashLib) (fs : FileSystem).

Lemma alloc_all_refs (vs : list FileRecord) :
  forall refs h,
    fst (fold_left
           (fun '(refs, h) v => let '(r, h') := Heap.alloc h v in (refs ++ [r], h'))
           vs (refs, h))
    = refs ++ seq (Heap.next_ref h) (List.length vs).
Proof.
  induction vs as [|v vs IH]; intros refs h; cbn [fold_left List.length seq].
  - now rewrite app_nil_r.
  - cbn [Heap.alloc]. rewrite IH. cbn [Heap.next_ref]. now rewrite <- app_assoc.
Qed.

Lemma dd_append_concat (X : Type) (m : list (option string * list X))
    (k : option string) (x : X) :
  Permutation (List.concat (dict_values (dd_append opt_eqb m k x)))
              (x :: List.concat (dict_values m)).
Proof.
  unfold dd_append.
  induction m as [|[k' v'] m IH].
  - apply Permutation_refl.
  - assert (Hset : forall v,
      List.concat (dict_values (dict_set opt_eqb ((k', v') :: m) k v))
      = if opt_eqb k k'
        then v ++ List.concat (dict_values m)
        else v' ++ List.concat (dict_values (dict_set opt_eqb m k v))).
    { intros v. cbn [dict_set]. now destruct (opt_eqb k k'). }
    cbn [dict_get]. destruct (opt_eqb k k') eqn:E.
    + rewrite Hset. cbn [dict_values map List.concat snd].
      rewrite <- app_assoc. cbn [app].
      apply Permutation_sym, Permutation_middle.
    + cbn [dict_values map List.concat snd].
      destruct (dict_get opt_eqb m k) as [xs|]; rewrite Hset;
        (eapply Permutation_trans;
         [apply Permutation_app_head, IH | apply Permutation_sym, Permutation_middle]).
Qed.

Lemma potential_steps_concat (files : list Heap.ref) :
  forall (st : state) (m : list (option string * list Heap.ref)),
    Permutation
      (List.concat (dict_values (snd (fold_left (potential_step lib fs) files (st, m)))))
      (List.concat (dict_values m) ++ files).
Proof.
  induction files as [|r files IH]; intros st m; cbn [fold_left snd].
  - now rewrite app_nil_r.
  - unfold potential_step at 2.
    eapply Permutation_trans; [apply IH|].
    eapply Permutation_trans;
      [apply Permutation_app_tail, dd_append_concat|].
    cbn [app]. apply Permutation_middle.
Qed.

Lemma nodup_concat_filter (X : Type) (keep : list X -> bool) (groups : list (list X)) :
  NoDup (List.concat groups) -> NoDup (List.concat (filter keep groups)).
Proof.
  induction groups as [|g groups IH]; cbn [filter concat]; intros H;
    [constructor|].
  apply NoDup_app_remove_l in H as Hrest.
  destruct (keep g); cbn [concat]; [|now apply IH].
  apply NoDup_app.
  - now apply NoDup_app_remove_r in H.
  - now apply IH.
  - intros x Hx Hin. apply in_concat in Hin. destruct Hin as [g' [Hg' Hxg']].
    apply filter_In in Hg'. destruct Hg' as [Hg' _].
    assert (Hc : In x (List.concat groups)) by (apply in_concat; now exists g').
    revert Hx Hc. clear -H. revert x.
    induction g as [|a g IHg]; cbn [app] in *; intros x Hx Hc; [destruct Hx|].
    inversion H as [|? ? Hnot Hnd]; subst.
    destruct Hx as [->|Hx].
    + apply Hnot, in_or_app. now right.
    + now apply (IHg Hnd x).
Qed.

(** No dict object sits in two potential groups, or twice in one. *)
Lemma find_potential_duplicates_disjoint (st : state) :
  NoDup (List.concat (fst (find_potential_duplicates lib fs st))).
Proof.
  unfold find_potential_duplicates, Heap.alloc_all.
  pose proof (alloc_all_refs (Workspace.get_files (workspace st)) [] (heap st))
    as Hrefs.
  destruct (fold_left
              (fun '(refs, h) v =>
                 let '(r, h') := Heap.alloc h v in (refs ++ [r], h'))
              (Workspace.get_files (workspace st)) ([], heap st))
    as [files h]. cbn [fst app] in Hrefs. subst files.
  pose proof (potential_steps_concat
                (seq (Heap.next_ref (heap st))
                   (List.length (Workspace.get_files (workspace st))))
                {| heap := h; workspace := workspace st |} []) as Hperm.
  destruct (fold_left (potential_step lib fs) _ _) as [st' hash_map].
  cbn [fst snd dict_values map List.concat app] in *.
  apply nodup_concat_filter.
  eapply Permutation_NoDup; [apply Permutation_sym, Hperm|].
  apply seq_NoDup.
Qed.
End PotentialFacts.

(** ** Members that share their strong hash with no other member *)

Section LoneMembers.
Variables (X : Type) (strong : X -> option string).
Variables (groups confirmed : list (list X)).
Hypothesis confirmed_classes :
  forall c, In c confirmed <->
    exists g k, In g groups
                /\ c = filter (fun r => opt_eqb (strong r) k) g
                /\ (2 <= List.length c)%nat.

Lemma filter_none (k : option string) (l : list X) :
  (forall r', In r' l -> strong r' <> k) ->
  filter (fun r' => opt_eqb (strong r') k) l = [].
Proof.
  induction l as [|a l IH]; intros Hl; cbn [filter]; [reflexivity|].
  destruct (opt_eqb (strong a) k) eqn:Ea.
  - apply opt_eqb_eq in Ea. exfalso. apply (Hl a); [now left | assumption].
  - apply IH. intros r' Hr'. apply Hl. now right.
Qed.

Lemma lone_member_not_confirmed (pre post : list (list X)) (l1 l2 : list X) (r : X) :
  groups = pre ++ (l1 ++ r :: l2) :: post ->
  (forall r', In r' (l1 ++ l2) -> strong r' <> strong r) ->
  (forall g, In g (pre ++ post) -> ~ In r g) ->
  forall c, In c confirmed -> ~ In r c.
Proof.
  intros Hsplit Hdiff Hother c Hc Hr.
  apply confirmed_classes in Hc. destruct Hc as [g [k [Hg [Hc Hlen]]]].
  assert (Hrg : In r g) by (subst c; apply filter_In in Hr; tauto).
  assert (Hk : strong r = k).
  { subst c. apply filter_In in Hr. destruct Hr as [_ Hr].
    now apply opt_eqb_eq in Hr. }
  rewrite Hsplit in Hg. apply in_app_or in Hg.
  assert (Hg' : g = l1 ++ r :: l2).
  { destruct Hg as [Hg|[Hg|Hg]].
    - exfalso. apply (Hother g); [apply in_or_app; now left | assumption].
    - now symmetry.
    - exfalso. apply (Hother g); [apply in_or_app; now right | assumption]. }
  subst c g k. rewrite filter_app in Hlen. cbn [filter] in Hlen.
  rewrite (filter_none (k := strong r) l1) in Hlen
    by (intros r' Hr'; apply Hdiff, in_or_app; now left).
  rewrite (filter_none (k := strong r) l2) in Hlen
    by (intros r' Hr'; apply Hdiff, in_or_app; now right).
  destruct (opt_eqb (strong r) (strong r)); cbn in Hlen; lia.
Qed.

Lemma nodup_concat_position (g : list X) (r : X) :
  NoDup (List.concat groups) -> In g groups -> In r g ->
  exists pre l1 l2 post,
    groups = pre ++ (l1 ++ r :: l2) :: post
    /\ g = l1 ++ r :: l2
    /\ ~ In r (l1 ++ l2)
    /\ forall g', In g' (pre ++ post) -> ~ In r g'.
Proof.
  intros Hnd Hg Hr.
  apply in_split in Hg. destruct Hg as [pre [post Hg]].
  apply in_split in Hr. destruct Hr as [l1 [l2 Hr]].
  exists pre, l1, l2, post. subst g. split; [assumption|]. split; [reflexivity|].
  rewrite Hg, concat_app in Hnd. cbn [List.concat] in Hnd.
  rewrite <- !app_assoc in Hnd. cbn [app] in Hnd.
  rewrite app_assoc in Hnd. apply NoDup_remove_2 in Hnd.
  split.
  - intros Hin. apply Hnd. apply in_app_or in Hin.
    destruct Hin as [Hin|Hin]; apply in_or_app.
    + left. apply in_or_app. now right.
    + right. apply in_or_app. now left.
  - intros g' Hg' Hin. apply Hnd. apply in_app_or in Hg'.
    destruct Hg' as [Hg'|Hg']; apply in_or_app.
    + left. apply in_or_app. left. apply in_concat. now exists g'.
    + right. apply in_or_app. right. apply in_concat. now exists g'.
Qed.

Lemma lone_member_not_confirmed_disjoint (g : list X) (r : X) :
  NoDup (List.concat groups) -> In g groups -> In r g ->
  (forall r', In r' g -> r' <> r -> strong r' <> strong r) ->
  forall c, In c confirmed -> ~ In r c.
Proof.
  intros Hnd Hg Hr Hdiff.
  destruct (@nodup_concat_position g r Hnd Hg Hr)
    as [pre [l1 [l2 [post [Hsplit [Hgeq [Hnot Hother]]]]]]].
  apply (@lone_member_not_confirmed pre post l1 l2 r Hsplit); [|assumption].
  intros r' Hr'. apply Hdiff.
  - rewrite Hgeq. apply in_app_or in Hr'. apply in_or_app.
    destruct Hr' as [Hr'|Hr']; [now left | right; now right].
  - intros ->. contradiction.
Qed.
End LoneMembers.

Section ConfirmedClasses.
Variables (lib : HashLib) (fs : FileSystem) (st : Deduper.state).
Variable potential_groups : list (list Heap.ref).

Lemma confirm_duplicates_strong (g : list Heap.ref) (r : Heap.ref) :
  In g potential_groups -> In r g ->
  md5 (Heap.get (Deduper.heap
         (snd (Deduper.confirm_duplicates lib fs st potential_groups))) r)
  = DeduperSpec.strong_hash lib fs (Deduper.heap st) r.
Proof. apply confirm_duplicates_spec. Qed.

Lemma confirm_duplicates_classes (c : list Heap.ref) :
  In c (fst (Deduper.confirm_duplicates lib fs st potential_groups))
  <-> exists g k,
        In g potential_groups
        /\ c = filter
                 (fun r =>
                    opt_eqb
                      (md5 (Heap.get (Deduper.heap
                              (snd (Deduper.confirm_duplicates lib fs st
                                      potential_groups))) r)) k) g
        /\ (2 <= List.length c)%nat.
Proof.
  destruct (confirm_duplicates_spec lib fs st potential_groups) as [E S].
  rewrite E, in_flat_map. split.
  - intros [g [Hg Hc]]. apply classes_in in Hc. destruct Hc as [k [Hc Hlen]].
    exists g, k. split; [assumption|]. split; [|assumption].
    rewrite Hc. unfold DeduperSpec.members. apply filter_ext_in.
    intros r Hr. now rewrite (S g r Hg Hr).
  - intros [g [k [Hg [Hc Hlen]]]]. exists g. split; [assumption|].
    apply classes_in. exists k. split; [|assumption].
    rewrite Hc. unfold DeduperSpec.members. apply filter_ext_in.
    intros r Hr. now rewrite (S g r Hg Hr).
Qed.
End ConfirmedClasses.

(** C1.  [confirm_duplicates] partitions each potential group by the strong
    hash (the [md5] field every member holds after the call, which is the
    stored md5 or else the md5 computed from the file) and returns exactly
    the classes with more than one member.  Hence every confirmed group has
    at least two members, its members share one md5, it is contained in a
    potential group and is no longer than it, and a member whose md5
    differs from that of every other member of its potential group is in no
    confirmed group: for a member that sits in that one potential group
    only, and so for every member when the groups are disjoint, as the
    groups that [find_potential_duplicates] returns are. *)
Theorem confirm_duplicates_partitions_by_md5
    (lib : HashLib) (fs : FileSystem) (st : Deduper.state)
    (potential_groups : list (list Heap.ref)) :
  let confirmed := fst (Deduper.confirm_duplicates lib fs st potential_groups) in
  let after := Deduper.heap (snd (Deduper.confirm_duplicates lib fs st potential_groups)) in
  let strong := fun r => md5 (Heap.get after r) in
  (forall g r, In g potential_groups -> In r g ->
     strong r = DeduperSpec.strong_hash lib fs (Deduper.heap st) r)
  /\ (forall c, In c confirmed <->
        exists g k, In g potential_groups
                    /\ c = filter (fun r => opt_eqb (strong r) k) g
                    /\ (2 <= List.length c)%nat)
  /\ (forall c, In c confirmed -> (2 <= List.length c)%nat)
  /\ (forall c r1 r2, In c confirmed -> In r1 c -> In r2 c -> strong r1 = strong r2)
  /\ (forall c, In c confirmed ->
        exists g, In g potential_groups /\ incl c g
                  /\ (List.length c <= List.length g)%nat)
  /\ (forall pre l1 r l2 post,
        potential_groups = pre ++ (l1 ++ r :: l2) :: post ->
        (forall r', In r' (l1 ++ l2) -> strong r' <> strong r) ->
        (forall g, In g (pre ++ post) -> ~ In r g) ->
        forall c, In c confirmed -> ~ In r c)
  /\ (NoDup (List.concat potential_groups) ->
      forall g r, In g potential_groups -> In r g ->
        (forall r', In r' g -> r' <> r -> strong r' <> strong r) ->
        forall c, In c confirmed -> ~ In r c)
  /\ (forall st0,
        NoDup (List.concat (fst (Deduper.find_potential_duplicates lib fs st0)))).
Proof.
  intros confirmed after strong.
  pose proof (confirm_duplicates_strong lib fs st potential_groups) as Hstrong.
  pose proof (confirm_duplicates_classes lib fs st potential_groups) as Hchar.
  fold after in Hstrong, Hchar. fold confirmed in Hchar.
  change (forall c, In c confirmed <->
            exists g k, In g potential_groups
                        /\ c = filter (fun r => opt_eqb (strong r) k) g
                        /\ (2 <= List.length c)%nat) in Hchar.
  split; [exact Hstrong|]. split; [exact Hchar|].
  split; [|split; [|split; [|split; [|split]]]].
  - intros c Hc. apply Hchar in Hc. destruct Hc as [g [k [_ [_ Hlen]]]]. exact Hlen.
  - intros c r1 r2 Hc H1 H2. apply Hchar in Hc.
    destruct Hc as [g [k [_ [Hc _]]]]. subst c.
    apply filter_In in H1, H2. destruct H1 as [_ H1], H2 as [_ H2].
    apply opt_eqb_eq in H1, H2. congruence.
  - intros c Hc. apply Hchar in Hc. destruct Hc as [g [k [Hg [Hc _]]]].
    exists g. split; [assumption|]. subst c. split.
    + intros r Hr. apply filter_In in Hr. tauto.
    + apply filter_length_le.
  - intros pre l1 r l2 post. now apply lone_member_not_confirmed.
  - intros Hnd g r. now apply lone_member_not_confirmed_disjoint.
  - intros st0. apply find_potential_duplicates_disjoint.
Qed.

Lemma confirm_duplicates_partitions_by_md5_witness :
  let st := {| Deduper.heap := Examples.heap_of Examples.three_collided;
               Deduper.workspace := Examples.workspace_of Examples.three_collided |} in
  let confirmed :=
    fst (Deduper.confirm_duplicates Examples.colliding_lib Examples.tree_A st
           [[0; 1; 2]%nat]) in
  confirmed = [[0; 1]%nat] /\ forall c, In c confirmed -> ~ In 2%nat c.
Proof.
  intros st confirmed. split; [reflexivity|].
  pose proof (confirm_duplicates_partitions_by_md5 Examples.colliding_lib
                Examples.tree_A st [[0; 1; 2]%nat])
    as [_ [_ [_ [_ [_ [Hlone _]]]]]].
  apply (Hlone [] [0; 1]%nat 2%nat [] []).
  - reflexivity.
  - intros r' [<-|[<-|[]]]; vm_compute; discriminate.
  - intros g [].
Defined.

(** ** process_files_parallel *)

Section PoolFacts.
Import ParallelProcessor PipelineSpec.
Variables (sched : Scheduler) (hash_func : string -> future).

Lemma collect_loop (entries : list (future * string)) :
  forall results,
    fold_left
      (fun results '(fut, filepath) =>
         match fut with
         | Ok (Some hash_result) =>
             if truthy (Some hash_result)
             then results ++ [(filepath, hash_result)]
             else results
         | Ok None => results
         | Raise _ => results
         end)
      entries results
    = results ++ flat_map completed entries.
Proof.
  induction entries as [|[fut filepath] entries IH]; intros results;
    cbn [fold_left flat_map].
  - now rewrite app_nil_r.
  - rewrite IH. destruct fut as [[[|c h]|]|e]; cbn [truthy completed app];
      try reflexivity.
    now rewrite <- app_assoc.
Qed.

Lemma run_pool_spec (pool_files : list file_info) (results : list (string * string)) :
  run_pool sched hash_func pool_files results
  = results
    ++ flat_map completed (as_completed sched (map (submit hash_func) pool_files)).
Proof. unfold run_pool. apply collect_loop. Qed.

Lemma reference_flat_map (files : list file_info) :
  single_pool_reference files hash_func
  = flat_map completed (map (submit hash_func) files).
Proof.
  induction files as [|[[filepath s] m] files IH]; cbn [single_pool_reference map flat_map];
    [reflexivity|].
  unfold submit at 1. cbn [fst].
  destruct (hash_func filepath) as [[[|c h]|]|e]; cbn [completed app];
    now rewrite IH.
Qed.

Lemma completed_perm (pool_files : list file_info) :
  Permutation
    (flat_map completed (as_completed sched (map (submit hash_func) pool_files)))
    (single_pool_reference pool_files hash_func).
Proof.
  rewrite reference_flat_map.
  apply Permutation_flat_map, as_completed_perm.
Qed.

Lemma run_pool_perm (pool_files : list file_info) :
  Permutation (run_pool sched hash_func pool_files [])
              (single_pool_reference pool_files hash_func).
Proof. rewrite run_pool_spec. cbn [app]. apply completed_perm. Qed.

Lemma reference_app (l1 l2 : list file_info) :
  single_pool_reference (l1 ++ l2) hash_func
  = single_pool_reference l1 hash_func ++ single_pool_reference l2 hash_func.
Proof. rewrite !reference_flat_map, map_app. apply flat_map_app. Qed.

Lemma reference_perm (l1 l2 : list file_info) :
  Permutation l1 l2 ->
  Permutation (single_pool_reference l1 hash_func)
              (single_pool_reference l2 hash_func).
Proof.
  intros H. rewrite !reference_flat_map.
  now apply Permutation_flat_map, Permutation_map.
Qed.

Lemma reference_in (files : list file_info) (filepath h : string) :
  In (filepath, h) (single_pool_reference files hash_func)
  <-> (exists s m, In (filepath, s, m) files)
      /\ hash_func filepath = Ok (Some h) /\ h <> "".
Proof.
  induction files as [|[[p s] m] files IH]; cbn [single_pool_reference].
  - split; [intros [] | intros [[s [m []]] _]].
  - assert (Hhead : forall l,
      In (filepath, h)
         (match hash_func p with
          | Ok (Some (String _ _ as d)) => (p, d) :: l
          | _ => l
          end)
      <-> (p = filepath /\ hash_func filepath = Ok (Some h) /\ h <> "")
          \/ In (filepath, h) l).
    { intros l. destruct (hash_func p) as [[[|c d]|]|e] eqn:E.
      - split; [now right|]. intros [[-> [E' H]]|H]; [|assumption].
        rewrite E in E'. inversion E'. congruence.
      - cbn [In]. split.
        + intros [H|H]; [|now right]. inversion H; subst. left.
          repeat split; [assumption | discriminate].
        + intros [[-> [E' H]]|H]; [|now right].
          rewrite E in E'. inversion E'. now left.
      - split; [now right|]. intros [[-> [E' H]]|H]; [|assumption].
        rewrite E in E'. discriminate.
      - split; [now right|]. intros [[-> [E' H]]|H]; [|assumption].
        rewrite E in E'. discriminate. }
    rewrite Hhead, IH. cbn [In]. split.
    + intros [[-> [E H]]|[[s' [m' Hin]] [E H]]].
      * split; [|now split]. exists s, m. now left.
      * split; [|now split]. exists s', m'. now right.
    + intros [[s' [m' [Hin|Hin]]] [E H]].
      * inversion Hin; subst. now left.
      * right. split; [|now split]. now exists s', m'.
Qed.

Lemma size_split (files : list file_info) :
  Permutation
    (filter (fun '(_, s, _) => large_file_threshold <=? s) files
     ++ filter (fun '(_, s, _) => s <? large_file_threshold) files)
    files.
Proof.
  induction files as [|[[p s] m] files IH]; cbn [filter]; [constructor|].
  rewrite (Z.ltb_antisym large_file_threshold s).
  destruct (large_file_threshold <=? s); cbn [negb app].
  - now constructor.
  - apply Permutation_sym, Permutation_cons_app, Permutation_sym, IH.
Qed.

Lemma process_files_parallel_spec (files : list file_info) :
  process_files_parallel sched files hash_func
  = run_pool sched hash_func
      (filter (fun '(_, s, _) => s <? large_file_threshold) files)
      (run_pool sched hash_func
         (filter (fun '(_, s, _) => large_file_threshold <=? s) files) []).
Proof.
  unfold process_files_parallel.
  assert (Hnil : forall results, run_pool sched hash_func [] results = results).
  { intros results. rewrite run_pool_spec. cbn [map].
    pose proof (as_completed_perm sched []) as Hp.
    apply Permutation_sym, Permutation_nil in Hp. rewrite Hp.
    apply app_nil_r. }
  destruct (filter (fun '(_, s, _) => large_file_threshold <=? s) files);
    destruct (filter (fun '(_, s, _) => s <? large_file_threshold) files);
    now rewrite ?Hnil.
Qed.

Lemma process_files_parallel_perm (files : list file_info) :
  Permutation (process_files_parallel sched files hash_func)
              (single_pool_reference files hash_func).
Proof.
  rewrite process_files_parallel_spec.
  rewrite (run_pool_spec _ (run_pool sched hash_func _ [])).
  eapply Permutation_trans.
  - apply Permutation_app; [apply run_pool_perm | apply completed_perm].
  - rewrite <- reference_app. apply reference_perm, size_split.
Qed.
End PoolFacts.

(** C8.  Routing by the 50 MiB threshold does not show in the result: for
    every completion order of the two pools, [process_files_parallel]
    returns the [(path, fingerprint)] pairs of the single-pool sequential
    reference, each as many times, in some order; in particular the same
    set of pairs. *)
Theorem process_files_parallel_routing_transparent
    (sched : Scheduler) (files : list file_info) (hash_func : string -> future) :
  ParallelProcessor.large_file_threshold = 52428800
  /\ Permutation
       (ParallelProcessor.process_files_parallel sched files hash_func)
       (ParallelProcessor.single_pool_reference files hash_func)
  /\ (forall pair,
        In pair (ParallelProcessor.process_files_parallel sched files hash_func)
        <-> In pair (ParallelProcessor.single_pool_reference files hash_func)).
Proof.
  pose proof (process_files_parallel_perm sched hash_func files) as Hperm.
  split; [reflexivity|]. split; [exact Hperm|].
  intros pair. split; apply Permutation_in;
    [exact Hperm | apply Permutation_sym, Hperm].
Qed.

(** ** Runs of INSERT OR REPLACE on table files *)

Section UpsertFacts.
Import Workspace PipelineSpec.

Lemma insert_or_replace_file_in (table : list FileRecord) (r r' : FileRecord) :
  In r' (insert_or_replace_file table r)
  <-> r' = r \/ (In r' table /\ path r' <> path r).
Proof.
  unfold insert_or_replace_file. rewrite in_app_iff, filter_In. cbn [In].
  rewrite negb_true_iff. split.
  - intros [[Hin Hne]|[H|[]]]; [right | now left].
    split; [assumption|]. intros E. rewrite E, String.eqb_refl in Hne. discriminate.
  - intros [H|[Hin Hne]]; [right; now left | left].
    split; [assumption|]. now apply String.eqb_neq.
Qed.

Lemma nodup_map_filter (A B : Type) (f : A -> B) (g : A -> bool) (l : list A) :
  NoDup (map f l) -> NoDup (map f (filter g l)).
Proof.
  induction l as [|a l IH]; cbn [map filter]; intros H; [constructor|].
  inversion H as [|? ? Hnot Hnd]; subst.
  destruct (g a); cbn [map]; [|auto].
  constructor; [|auto].
  intros Hin. apply Hnot. apply in_map_iff in Hin.
  destruct Hin as [x [Hx Hin]]. apply filter_In in Hin.
  apply in_map_iff. exists x. tauto.
Qed.

Lemma insert_or_replace_file_nodup (table : list FileRecord) (r : FileRecord) :
  NoDup (map path table) -> NoDup (map path (insert_or_replace_file table r)).
Proof.
  intros H. unfold insert_or_replace_file. rewrite map_app. cbn [map].
  apply NoDup_app.
  - now apply nodup_map_filter.
  - repeat constructor. intros [].
  - intros p Hp [<-|[]]. apply in_map_iff in Hp.
    destruct Hp as [x [Hx Hin]]. apply filter_In in Hin.
    destruct Hin as [_ Hne]. rewrite Hx, String.eqb_refl in Hne. discriminate.
Qed.

Lemma untouched_cons (a : FileRecord) (rows : list FileRecord) (r : FileRecord) :
  untouched (a :: rows) r
  = negb (String.eqb (path r) (path a)) && untouched rows r.
Proof. unfold untouched. cbn [map existsb]. apply negb_orb. Qed.

Lemma untouched_spec (rows : list FileRecord) (r : FileRecord) :
  untouched rows r = true <-> ~ In (path r) (map path rows).
Proof.
  unfold untouched. rewrite negb_true_iff. split.
  - intros H Hin. assert (E : existsb (String.eqb (path r)) (map path rows) = true).
    { apply existsb_exists. exists (path r). split; [assumption|].
      apply String.eqb_refl. }
    congruence.
  - intros H. destruct (existsb (String.eqb (path r)) (map path rows)) eqn:E;
      [|reflexivity].
    apply existsb_exists in E. destruct E as [p [Hp E]].
    apply String.eqb_eq in E. subst p. contradiction.
Qed.

Lemma upserts_app (rows : list FileRecord) :
  forall A B,
    upserts rows (A ++ B) = filter (untouched rows) A ++ upserts rows B.
Proof.
  induction rows as [|a rows IH]; intros A B; cbn [upserts fold_left].
  - f_equal. symmetry. apply forallb_filter_id. now apply forallb_forall.
  - fold (upserts rows (insert_or_replace_file (A ++ B) a)).
    fold (upserts rows (insert_or_replace_file B a)).
    unfold insert_or_replace_file at 1. rewrite filter_app, <- app_assoc.
    fold (insert_or_replace_file B a). rewrite IH. f_equal.
    clear. induction A as [|x A IHA]; cbn [filter]; [reflexivity|].
    rewrite untouched_cons.
    destruct (negb (String.eqb (path x) (path a))); cbn [andb filter];
      [|exact IHA].
    destruct (untouched rows x); [now rewrite IHA | exact IHA].
Qed.

(** The table after a run of upserts: the rows it did not touch, in
    place, then the rows it wrote. *)
Lemma upserts_decompose (rows table : list FileRecord) :
  upserts rows table = filter (untouched rows) table ++ upserts rows [].
Proof.
  rewrite <- (app_nil_r table) at 1. apply upserts_app.
Qed.

Lemma upserts_nodup (rows : list FileRecord) :
  forall table,
    NoDup (map path table) -> NoDup (map path (upserts rows table)).
Proof.
  induction rows as [|a rows IH]; intros table H; cbn [upserts fold_left];
    [assumption|].
  apply IH. now apply insert_or_replace_file_nodup.
Qed.

Lemma upserts_in_inv (rows : list FileRecord) :
  forall table r, In r (upserts rows table) -> In r rows \/ In r table.
Proof.
  induction rows as [|a rows IH]; intros table r H; cbn [upserts fold_left] in H;
    [now right|].
  apply IH in H. destruct H as [H|H]; [left; now right|].
  apply insert_or_replace_file_in in H.
  destruct H as [->|[H _]]; [left; now left | now right].
Qed.

Lemma upserts_paths (rows : list FileRecord) :
  forall table p,
    In p (map path table) \/ In p (map path rows) ->
    In p (map path (upserts rows table)).
Proof.
  induction rows as [|a rows IH]; intros table p H; cbn [upserts fold_left].
  - destruct H as [H|[]]. assumption.
  - apply IH. cbn [map In] in H.
    destruct (string_dec p (path a)) as [->|Hne].
    + left. apply in_map. apply insert_or_replace_file_in. now left.
    + destruct H as [H|[H|H]]; [|congruence|now right].
      left. apply in_map_iff in H. destruct H as [x [Hx Hin]].
      apply in_map_iff. exists x. split; [assumption|].
      apply insert_or_replace_file_in. right. split; [assumption|]. congruence.
Qed.

Lemma upserts_nil_in (rows : list FileRecord) (r : FileRecord) :
  In r (upserts rows []) -> In r rows.
Proof. intros H. apply upserts_in_inv in H. destruct H as [H|[]]. exact H. Qed.

Lemma upserts_written (rows : list FileRecord) (r : FileRecord) :
  functional_rows rows -> (In r (upserts rows []) <-> In r rows).
Proof.
  intros Hf. split.
  - apply upserts_nil_in.
  - intros H.
    assert (Hp : In (path r) (map path (upserts rows [])))
      by (apply upserts_paths; right; now apply in_map).
    apply in_map_iff in Hp. destruct Hp as [r' [Hr' Hin]].
    apply upserts_nil_in in Hin as Hin'.
    now rewrite <- (Hf r' r).
Qed.


End UpsertFacts.

(** ** scan_and_hash *)

Section ScanFacts.
Import Workspace PipelineSpec DedupEngine.
Variables (lib : HashLib) (fs : FileSystem).

Lemma store_results_spec (sq : Sqlite) (file_dict : list (string * (Z * Z)))
    (hash_results : list (string * string)) :
  forall ws,
    store_results sq file_dict hash_results ws
    = ((if (List.length (stored_prefix sq file_dict hash_results)
            =? List.length hash_results)%nat
        then Ok tt else Raise UnicodeEncodeError),
       {| db_path := db_path ws;
          files := upserts
                     (flat_map (scanned_record file_dict)
                        (stored_prefix sq file_dict hash_results))
                     (files ws);
          workspace_config := workspace_config ws;
          workspace_metadata := workspace_metadata ws;
          workspace_directories := workspace_directories ws |}).
Proof.
  induction hash_results as [|[filepath h] hash_results IH]; intros ws;
    cbn [store_results stored_prefix fst snd].
  - cbn. now destruct ws.
  - unfold try_add_file.
    destruct (dict_get String.eqb file_dict filepath) as [[size_ modified_]|] eqn:Hd.
    + destruct (binds sq filepath).
      * rewrite IH. cbn [List.length flat_map]. unfold scanned_record at 2.
        cbn [fst snd]. rewrite Hd. reflexivity.
      * cbn. now destruct ws.
    + rewrite IH. cbn [List.length flat_map]. unfold scanned_record at 2.
      cbn [fst snd]. rewrite Hd. reflexivity.
Qed.

Lemma stored_prefix_split (sq : Sqlite) (file_dict : list (string * (Z * Z)))
    (hash_results : list (string * string)) :
  exists rest,
    hash_results = stored_prefix sq file_dict hash_results ++ rest.
Proof.
  induction hash_results as [|hr hash_results [rest IH]]; cbn [stored_prefix].
  - now exists [].
  - destruct (dict_get String.eqb file_dict (fst hr));
      [destruct (binds sq (fst hr))|].
    + exists rest. cbn [app]. now rewrite <- IH.
    + now exists (hr :: hash_results).
    + exists rest. cbn [app]. now rewrite <- IH.
Qed.

Lemma stored_prefix_all (sq : Sqlite) (file_dict : list (string * (Z * Z)))
    (hash_results : list (string * string)) :
  (forall hr, In hr hash_results -> binds sq (fst hr) = true) ->
  stored_prefix sq file_dict hash_results = hash_results.
Proof.
  induction hash_results as [|hr hash_results IH]; intros H;
    cbn [stored_prefix]; [reflexivity|].
  rewrite (H hr) by (now left). rewrite IH by (intros x Hx; apply H; now right).
  now destruct (dict_get String.eqb file_dict (fst hr)).
Qed.

Lemma stored_rows_split (sq : Sqlite) (sched : Scheduler) (roots : list string) :
  exists rest,
    scan_rows lib fs sched roots = stored_rows sq lib fs sched roots ++ rest.
Proof.
  unfold scan_rows, stored_rows.
  destruct (stored_prefix_split sq
              (build_file_dict (Scanner.scan_directories fs roots))
              (ParallelProcessor.process_files_parallel sched
                 (Scanner.scan_directories fs roots)
                 (fun p => Ok (Hasher.compute_xxhash lib fs p))))
    as [rest Hrest].
  exists (flat_map
            (scanned_record (build_file_dict (Scanner.scan_directories fs roots)))
            rest).
  rewrite <- flat_map_app. now rewrite <- Hrest.
Qed.

Lemma stored_rows_in (sq : Sqlite) (sched : Scheduler) (roots : list string)
    (r : FileRecord) :
  In r (stored_rows sq lib fs sched roots) -> In r (scan_rows lib fs sched roots).
Proof.
  intros H. destruct (stored_rows_split sq sched roots) as [rest ->].
  apply in_or_app. now left.
Qed.

Lemma scan_and_hash_files (sq : Sqlite) (sched : Scheduler) (e : t) :
  files (workspace (snd (scan_and_hash sq lib fs sched e)))
  = match directories e with
    | [] => files (workspace e)
    | _ :: _ => upserts (stored_rows sq lib fs sched (directories e))
                  (files (workspace e))
    end.
Proof.
  unfold scan_and_hash. destruct (directories e); [reflexivity|].
  now rewrite store_results_spec.
Qed.

Lemma scan_rows_in (sched : Scheduler) (roots : list string) (r : FileRecord) :
  In r (scan_rows lib fs sched roots) ->
  (exists s m, In (path r, s, m) (Scanner.scan_directories fs roots))
  /\ (exists h, Hasher.compute_xxhash lib fs (path r) = Some h
                /\ h <> "" /\ xxhash r = Some h)
  /\ dict_get String.eqb
       (build_file_dict (Scanner.scan_directories fs roots)) (path r)
     = Some (size r, modified r)
  /\ md5 r = None /\ sha1 r = None /\ status r = "present".
Proof.
  unfold scan_rows. rewrite in_flat_map. intros [[filepath h] [Hres Hrec]].
  apply (Permutation_in _ (process_files_parallel_perm sched _ _)) in Hres.
  apply reference_in in Hres. destruct Hres as [Hfound [Hhash Hne]].
  unfold scanned_record in Hrec. cbn [fst snd] in Hrec.
  destruct (dict_get String.eqb
              (build_file_dict (Scanner.scan_directories fs roots)) filepath)
    as [[size_ modified_]|] eqn:Hd; [|destruct Hrec].
  destruct Hrec as [<-|[]]. cbn [path size modified xxhash md5 sha1 status].
  split; [exact Hfound|]. split.
  - exists h. injection Hhash as Hc. split; [exact Hc|]. split; [exact Hne|reflexivity].
  - split; [exact Hd|]. now repeat split.
Qed.

Lemma scan_rows_functional (sched : Scheduler) (roots : list string) :
  functional_rows (scan_rows lib fs sched roots).
Proof.
  intros r1 r2 H1 H2 Hp.
  apply scan_rows_in in H1, H2.
  destruct H1 as [_ [[h1 [Hc1 [_ Hx1]]] [Hd1 [Hm1 [Hs1 Hst1]]]]].
  destruct H2 as [_ [[h2 [Hc2 [_ Hx2]]] [Hd2 [Hm2 [Hs2 Hst2]]]]].
  rewrite Hp in Hc1, Hd1.
  destruct r1, r2. cbn [path size modified xxhash md5 sha1 status] in *.
  congruence.
Qed.

Lemma stored_rows_functional (sq : Sqlite) (sched : Scheduler)
    (roots : list string) :
  functional_rows (stored_rows sq lib fs sched roots).
Proof.
  intros r1 r2 H1 H2. apply (@scan_rows_functional sched roots);
    now apply (@stored_rows_in sq).
Qed.

(** When [sqlite3] binds every discovered path, the store loop writes
    every row and returns. *)
Lemma stored_rows_all (sq : Sqlite) (sched : Scheduler) (roots : list string) :
  binds_discovered sq fs roots ->
  stored_prefix sq (build_file_dict (Scanner.scan_directories fs roots))
    (ParallelProcessor.process_files_parallel sched
       (Scanner.scan_directories fs roots)
       (fun p => Ok (Hasher.compute_xxhash lib fs p)))
  = ParallelProcessor.process_files_parallel sched
      (Scanner.scan_directories fs roots)
      (fun p => Ok (Hasher.compute_xxhash lib fs p))
  /\ stored_rows sq lib fs sched roots = scan_rows lib fs sched roots.
Proof.
  intros Hb.
  assert (E : stored_prefix sq (build_file_dict (Scanner.scan_directories fs roots))
                (ParallelProcessor.process_files_parallel sched
                   (Scanner.scan_directories fs roots)
                   (fun p => Ok (Hasher.compute_xxhash lib fs p)))
              = ParallelProcessor.process_files_parallel sched
                  (Scanner.scan_directories fs roots)
                  (fun p => Ok (Hasher.compute_xxhash lib fs p))).
  { apply stored_prefix_all. intros [filepath h] Hin. cbn [fst].
    apply (Permutation_in _ (process_files_parallel_perm sched _ _)) in Hin.
    apply reference_in in Hin. destruct Hin as [[s [m Hd]] _].
    exact (Hb filepath s m Hd). }
  split; [exact E|]. unfold stored_rows, scan_rows. now rewrite E.
Qed.




Lemma scan_and_hash_other_tables (sq : Sqlite) (sched : Scheduler) (e : t) :
  let ws' := workspace (snd (scan_and_hash sq lib fs sched e)) in
  db_path ws' = db_path (workspace e)
  /\ workspace_config ws' = workspace_config (workspace e)
  /\ workspace_metadata ws' = workspace_metadata (workspace e)
  /\ workspace_directories ws' = workspace_directories (workspace e).
Proof.
  unfold scan_and_hash. destruct (directories e); cbn [snd workspace];
    [now repeat split|].
  rewrite store_results_spec. now repeat split.
Qed.
End ScanFacts.



(** Where [sqlite3] refuses a discovered name, the store loop raises at
    that name: the rows written before it stay, the rows after it are never
    written, and which rows those are depends on the completion order. *)
Example scan_and_hash_aborts_on_unbindable_name :
  let e := Examples.engine_of [] ["/L"] in
  let run := fun sched =>
    DedupEngine.scan_and_hash Examples.ascii_sqlite Examples.tagged_lib
      Examples.tree_L sched e in
  fst (run fifo) = Raise UnicodeEncodeError
  /\ map path (Workspace.files (DedupEngine.workspace (snd (run fifo))))
     = ["/L/a"]
  /\ fst (run lifo) = Raise UnicodeEncodeError
  /\ map path (Workspace.files (DedupEngine.workspace (snd (run lifo))))
     = ["/L/z"].
Proof. repeat split; reflexivity. Qed.

(** ** The store under sequences of operations *)

Section StoreFacts.
Import Workspace.
Variables (codec : JsonCodec) (fs : FileSystem).



Lemma exec_config (ws : t) (o : op) :
  workspace_config (exec codec fs ws o)
  = match o with
    | SaveDirectories _ directories =>
        insert_or_replace_config (workspace_config ws) "directories"
          (json_dumps codec directories)
    | _ => workspace_config ws
    end.
Proof. now destruct o. Qed.
End StoreFacts.

Lemma nodup_paths_unique (rows : list FileRecord) (r1 r2 : FileRecord) :
  NoDup (map path rows) -> In r1 rows -> In r2 rows -> path r1 = path r2 ->
  r1 = r2.
Proof.
  induction rows as [|a rows IH]; cbn [map In]; intros H H1 H2 Hp; [destruct H1|].
  inversion H as [|? ? Hnot Hnd]; subst.
  destruct H1 as [->|H1], H2 as [->|H2].
  - reflexivity.
  - exfalso. apply Hnot. rewrite Hp. now apply in_map.
  - exfalso. apply Hnot. rewrite <- Hp. now apply in_map.
  - now apply IH.
Qed.

(** C9.  With no roots configured, [scan_and_hash] raises
    [ValueError("No directories to scan")] (the specification's
    InvalidState) and leaves the engine, and with it the whole workspace
    store, as it was. *)
Theorem scan_and_hash_without_roots_fails
    (sq : Sqlite) (lib : HashLib) (fs : FileSystem) (sched : Scheduler)
    (e : DedupEngine.t) :
  DedupEngine.directories e = [] ->
  DedupEngine.scan_and_hash sq lib fs sched e
  = (Raise (ValueError "No directories to scan"), e).
Proof.
  intros H. unfold DedupEngine.scan_and_hash. now rewrite H.
Qed.

Lemma scan_and_hash_without_roots_fails_witness :
  DedupEngine.scan_and_hash Examples.ascii_sqlite Examples.tagged_lib
    Examples.tree_A lifo (Examples.engine_of Examples.stale_row [])
  = (Raise (ValueError "No directories to scan"),
     Examples.engine_of Examples.stale_row []).
Proof.
  apply (scan_and_hash_without_roots_fails Examples.ascii_sqlite
           Examples.tagged_lib Examples.tree_A
           lifo (Examples.engine_of Examples.stale_row [])).
  reflexivity.
Defined.

(** C7, as the code has it.  [scan_and_hash] deletes nothing: a record
    stored before the call whose path the scan did not write, in particular
    one whose path the scan did not discover, is still stored after it,
    unchanged.  Clearing is the separate store operation [clear_files];
    after [clear_files] followed by [scan_and_hash], every stored record is
    for a path discovered in that scan. *)
Theorem scan_and_hash_keeps_undiscovered_records
    (sq : Sqlite) (lib : HashLib) (fs : FileSystem) (sched : Scheduler)
    (e : DedupEngine.t) :
  let discovered :=
    map (fun f : file_info => fst (fst f))
      (Scanner.scan_directories fs (DedupEngine.directories e)) in
  let after := snd (DedupEngine.scan_and_hash sq lib fs sched e) in
  let cleared :=
    {| DedupEngine.workspace := Workspace.clear_files (DedupEngine.workspace e);
       DedupEngine.directories := DedupEngine.directories e |} in
  let rescanned := snd (DedupEngine.scan_and_hash sq lib fs sched cleared) in
  (forall r, In r (Workspace.files (DedupEngine.workspace e)) ->
             ~ In (path r) discovered ->
             In r (Workspace.files (DedupEngine.workspace after)))
  /\ Workspace.files (Workspace.clear_files (DedupEngine.workspace e)) = []
  /\ (forall r, In r (Workspace.files (DedupEngine.workspace rescanned)) ->
                In (path r) discovered).
Proof.
  intros discovered after cleared rescanned.
  assert (Hwritten : forall r,
            In r (PipelineSpec.stored_rows sq lib fs sched
                    (DedupEngine.directories e)) ->
            In (path r) discovered).
  { intros r Hr. apply stored_rows_in, scan_rows_in in Hr.
    destruct Hr as [[s [m Hin]] _].
    unfold discovered. apply in_map_iff. now exists (path r, s, m). }
  split; [|split].
  - intros r Hr Hnot. unfold after. rewrite scan_and_hash_files.
    destruct (DedupEngine.directories e) eqn:E; [assumption|].
    rewrite upserts_decompose. apply in_or_app. left.
    apply filter_In. split; [assumption|].
    apply untouched_spec. intros Hin. apply Hnot.
    apply in_map_iff in Hin. destruct Hin as [r' [Hp Hin]].
    rewrite <- Hp. now apply Hwritten.
  - reflexivity.
  - intros r Hr. unfold rescanned in Hr. rewrite scan_and_hash_files in Hr.
    unfold cleared in Hr.
    cbn [DedupEngine.directories DedupEngine.workspace Workspace.clear_files
         Workspace.files] in Hr.
    destruct (DedupEngine.directories e) eqn:E; [destruct Hr|].
    apply upserts_nil_in in Hr. now apply Hwritten.
Qed.

(** C7 as stated fails: the record of [/B/old], a path outside the scanned
    root and not discovered by the scan, is still in the store after
    [scan_and_hash]. *)
Lemma scan_and_hash_does_not_clear :
  let before := Examples.engine_of Examples.stale_row ["/A"] in
  let after :=
    snd (DedupEngine.scan_and_hash Examples.ascii_sqlite Examples.tagged_lib
           Examples.tree_A fifo before) in
  let discovered :=
    map (fun f : file_info => fst (fst f))
      (Scanner.scan_directories Examples.tree_A ["/A"]) in
  discovered = ["/A/f1"; "/A/f2"; "/A/f3"; "/A/locked"]
  /\ map path (Workspace.files (DedupEngine.workspace after))
     = ["/B/old"; "/A/f1"; "/A/f2"; "/A/f3"]
  /\ exists r,
       In r (Workspace.files (DedupEngine.workspace after))
       /\ ~ In (path r) discovered.
Proof.
  split; [reflexivity|]. split; [reflexivity|].
  exists (Examples.record "/B/old" 7 1500000000 (Some "x:old") None "present").
  split; [now left|].
  cbv. intros [H|[H|[H|[H|[]]]]]; discriminate.
Qed.

(** ** What scan_and_hash writes *)

Section ScanWrites.
Import Workspace PipelineSpec DedupEngine.
Variables (lib : HashLib) (fs : FileSystem) (sched : Scheduler).

Lemma build_file_dict_get (files : list file_info) (p : string) (s m : Z) :
  In (p, s, m) files ->
  exists s' m', dict_get String.eqb (build_file_dict files) p = Some (s', m').
Proof.
  unfold build_file_dict.
  assert (Hgen : forall d,
    In p (map (fun f : file_info => fst (fst f)) files)
    \/ dict_get String.eqb d p <> None ->
    dict_get String.eqb
      (fold_left (fun d '(p, s, m) => dict_set String.eqb d p (s, m)) files d) p
    <> None).
  { induction files as [|[[p0 s0] m0] files IH]; intros d H; cbn [fold_left].
    - destruct H as [[]|H]. exact H.
    - apply IH. cbn [map In fst] in H.
      rewrite (dict_get_set String.eqb String.eqb_eq).
      destruct (String.eqb p p0) eqn:E.
      + right. discriminate.
      + destruct H as [[H|H]|H]; [|now left|now right].
        subst p0. rewrite String.eqb_refl in E. discriminate. }
  intros Hin.
  specialize (Hgen []). 
  destruct (dict_get String.eqb
              (fold_left (fun d '(p, s, m) => dict_set String.eqb d p (s, m))
                 files []) p) as [[s' m']|] eqn:E.
  - now exists s', m'.
  - exfalso. apply Hgen; [|reflexivity]. left.
    apply in_map_iff. now exists (p, s, m).
Qed.

Lemma scan_rows_complete (roots : list string) (p h : string) (s m : Z) :
  In (p, s, m) (Scanner.scan_directories fs roots) ->
  Hasher.compute_xxhash lib fs p = Some h -> h <> "" ->
  In p (map path (scan_rows lib fs sched roots)).
Proof.
  intros Hin Hh Hne.
  destruct (build_file_dict_get _ _ _ _ Hin) as [s' [m' Hd]].
  apply in_map_iff.
  exists {| path := p; size := s'; modified := m'; xxhash := Some h;
            md5 := None; sha1 := None; status := "present" |}.
  split; [reflexivity|].
  unfold scan_rows. apply in_flat_map. exists (p, h). split.
  - apply (Permutation_in _
             (Permutation_sym (process_files_parallel_perm sched _ _))).
    apply reference_in. split; [now exists s, m|]. now rewrite Hh.
  - unfold scanned_record. cbn [fst snd]. rewrite Hd. now left.
Qed.


Lemma scan_and_hash_nodup (sq : Sqlite) (e : t) :
  NoDup (map path (files (workspace e))) ->
  NoDup (map path (files (workspace (snd (scan_and_hash sq lib fs sched e))))).
Proof.
  intros H. rewrite scan_and_hash_files.
  destruct (directories e); [assumption|]. now apply upserts_nodup.
Qed.

(** A call of [scan_and_hash] that returns had roots to scan and stored a
    row for every hashing result. *)
Lemma scan_and_hash_ok (sq : Sqlite) (e : t) :
  fst (scan_and_hash sq lib fs sched e) = Ok tt ->
  directories e <> []
  /\ stored_rows sq lib fs sched (directories e)
     = scan_rows lib fs sched (directories e).
Proof.
  unfold scan_and_hash. destruct (directories e) as [|d ds] eqn:Ed;
    [discriminate|].
  rewrite store_results_spec. cbn [fst]. intros Hok.
  split; [discriminate|]. unfold stored_rows, scan_rows.
  set (file_dict := build_file_dict (Scanner.scan_directories fs (d :: ds))) in *.
  set (hash_results :=
         ParallelProcessor.process_files_parallel sched
           (Scanner.scan_directories fs (d :: ds))
           (fun p => Ok (Hasher.compute_xxhash lib fs p))) in *.
  destruct (stored_prefix_split sq file_dict hash_results) as [rest Hrest].
  destruct (List.length (stored_prefix sq file_dict hash_results)
            =? List.length hash_results)%nat eqn:El; [|discriminate].
  apply Nat.eqb_eq in El. rewrite Hrest in El at 2.
  rewrite length_app in El.
  assert (rest = []) by (destruct rest; [reflexivity | cbn in El; lia]).
  subst rest. rewrite app_nil_r in Hrest. now rewrite <- Hrest.
Qed.
End ScanWrites.



(** C10, as the code has it.  On a path whose file ends,
    [compute_xxhash], [compute_md5] and [compute_sha1] return, never
    raising: [None] when the file cannot be opened or a [read] breaks
    before the loop is over, and otherwise the hex digest of the entire
    content of the file; one read more than the file has bytes is enough
    for the call to have returned, and the functions of [Hasher] give
    what it returned.  The content is read in chunks of at most 1 MiB
    (1048576 bytes), each chunk being the next bytes of the file.  On a
    file that never ends the call has not returned after any number of
    reads. *)
Theorem hash_functions_total_whole_content
    (lib : HashLib) (open_ : string -> result HasherSteps.opened)
    (path_ : string) :
  let returns := fun (hexdigest : list byte -> string)
                     (call : nat -> option (option string)) =>
    match open_ path_ with
    | Raise _ => forall reads, call reads = Some None
    | Ok (HasherSteps.Ending f) =>
        forall reads,
          (List.length (remaining f) < reads)%nat ->
          call reads
          = Some
              match reads_until_fault f with
              | None => Some (hexdigest (remaining f))
              | Some k =>
                  if (N.of_nat k <? HasherSpec.reads_needed (remaining f))%N
                  then None
                  else Some (hexdigest (remaining f))
              end
    | Ok (HasherSteps.Endless _ _) => forall reads, call reads = None
    end in
  returns (xxh64_hexdigest lib)
    (fun reads => HasherSteps.compute_xxhash reads lib open_ path_)
  /\ returns (md5_hexdigest lib)
       (fun reads => HasherSteps.compute_md5 reads lib open_ path_)
  /\ returns (sha1_hexdigest lib)
       (fun reads => HasherSteps.compute_sha1 reads lib open_ path_)
  /\ Hasher.CHUNK_SIZE = 1048576%N
  /\ (forall f,
        match Hasher.read f Hasher.CHUNK_SIZE with
        | Ok (chunk, f') =>
            (N.of_nat (List.length chunk) <= 1048576)%N
            /\ chunk ++ remaining f' = remaining f
        | Raise _ => reads_until_fault f = Some 0%nat
        end)
  /\ (forall fs reads,
        (forall f, open_rb fs path_ = Ok f ->
                   (List.length (remaining f) < reads)%nat) ->
        HasherSteps.compute_xxhash reads lib (HasherSteps.ending fs) path_
        = Some (Hasher.compute_xxhash lib fs path_)
        /\ HasherSteps.compute_md5 reads lib (HasherSteps.ending fs) path_
           = Some (Hasher.compute_md5 lib fs path_)
        /\ HasherSteps.compute_sha1 reads lib (HasherSteps.ending fs) path_
           = Some (Hasher.compute_sha1 lib fs path_)).
Proof.
  intros returns.
  assert (H : forall hexdigest,
            returns hexdigest
              (fun reads =>
                 HasherSteps.catch_all
                   (HasherSteps.stream_digest reads hexdigest open_ path_))).
  { intros hexdigest. unfold returns.
    destruct (open_ path_) as [[f|bytes pos]|e] eqn:Ho.
    - intros reads Hreads. now apply steps_stream_digest_enough.
    - intros reads. now rewrite steps_stream_digest, Ho.
    - intros reads. now rewrite steps_stream_digest, Ho. }
  split; [apply H|]. split; [apply H|]. split; [apply H|].
  split; [reflexivity|]. split.
  - intros f. unfold Hasher.read.
    destruct (reads_until_fault f) as [[|k]|]; cbn [remaining];
      try reflexivity;
      (split; [rewrite <- CHUNK_SIZE_value; apply take_length | apply take_drop]).
  - intros fs reads Hreads.
    assert (E : forall hexdigest,
              HasherSteps.catch_all
                (HasherSteps.stream_digest reads hexdigest
                   (HasherSteps.ending fs) path_)
              = Some (Hasher.catch_all (Hasher.stream_digest hexdigest fs path_))).
    { intros hexdigest. rewrite stream_digest_outcome.
      unfold HasherSpec.digest_outcome.
      destruct (open_rb fs path_) as [f|e] eqn:Ho.
      - apply steps_stream_digest_enough; [|now apply Hreads].
        unfold HasherSteps.ending. now rewrite Ho.
      - rewrite steps_stream_digest. unfold HasherSteps.ending. now rewrite Ho. }
    split; [apply E|]. split; apply E.
Qed.

(** C10 as stated fails: [/dev/zero] opens and never reaches its end,
    and there is no number of reads after which one of the three functions
    has returned: none returns a digest and none returns [None]. *)
Lemma hash_functions_never_return_on_dev_zero :
  let open_ := Examples.open_with_dev_zero Examples.tree_A in
  let returned := fun call : nat -> option (option string) =>
    exists reads outcome, call reads = Some outcome in
  (exists f, open_ "/dev/zero" = Ok f)
  /\ ~ returned (fun reads =>
         HasherSteps.compute_xxhash reads Examples.tagged_lib open_ "/dev/zero")
  /\ ~ returned (fun reads =>
         HasherSteps.compute_md5 reads Examples.tagged_lib open_ "/dev/zero")
  /\ ~ returned (fun reads =>
         HasherSteps.compute_sha1 reads Examples.tagged_lib open_ "/dev/zero").
Proof.
  intros open_ returned.
  split; [eexists; reflexivity|].
  unfold returned, HasherSteps.compute_xxhash, HasherSteps.compute_md5,
    HasherSteps.compute_sha1.
  repeat split; intros [reads [outcome H]];
    rewrite steps_stream_digest in H; discriminate H.
Qed.

(** ** The resume filter *)

Section ResumeFacts.
Import ScanThread ScanThreadSpec.

Lemma filter_unhashed_files_spec (db : Workspace.t) (all_files : list file_info) :
  _filter_unhashed_files (Some db) all_files = filter (needs_hash db) all_files.
Proof.
  unfold _filter_unhashed_files.
  assert (Hgen : forall acc,
    fold_left
      (fun files_to_hash '(filepath, size_, modified_) =>
         match fetchone (select_hashed (Workspace.files db) filepath size_) with
         | None => files_to_hash ++ [(filepath, size_, modified_)]
         | Some (existing_xxhash, existing_modified) =>
             if negb (existing_modified =? modified_)
             then files_to_hash ++ [(filepath, size_, modified_)]
             else files_to_hash
         end)
      all_files acc
    = acc ++ filter (needs_hash db) all_files).
  { induction all_files as [|[[filepath size_] modified_] all_files IH];
      intros acc; cbn [fold_left filter].
    - now rewrite app_nil_r.
    - rewrite IH. unfold needs_hash at 2.
      destruct (fetchone (select_hashed (Workspace.files db) filepath size_))
        as [[x em]|]; [destruct (negb (em =? modified_))|];
        try reflexivity; now rewrite <- app_assoc. }
  apply (Hgen []).
Qed.

Lemma select_hashed_in (rows : list FileRecord) (filepath : string) (size_ : Z)
    (x : option string) (em : Z) :
  In (x, em) (select_hashed rows filepath size_)
  <-> exists r, In r rows /\ path r = filepath /\ size r = size_
                /\ xxhash r <> None /\ x = xxhash r /\ em = modified r.
Proof.
  unfold select_hashed. rewrite in_map_iff. split.
  - intros [r [Hr Hin]]. apply filter_In in Hin. destruct Hin as [Hin Hc].
    apply andb_true_iff in Hc. destruct Hc as [Hc Hx].
    apply andb_true_iff in Hc. destruct Hc as [Hp Hs].
    apply String.eqb_eq in Hp. apply Z.eqb_eq in Hs.
    inversion Hr; subst. exists r. repeat split; try assumption.
    destruct (xxhash r); [discriminate | discriminate].
  - intros [r [Hin [Hp [Hs [Hx [-> ->]]]]]]. exists r. split; [reflexivity|].
    apply filter_In. split; [assumption|].
    rewrite Hp, Hs, String.eqb_refl, Z.eqb_refl.
    destruct (xxhash r); [reflexivity | congruence].
Qed.

Lemma needs_hash_spec (db : Workspace.t) (f : file_info) :
  NoDup (map path (Workspace.files db)) ->
  (needs_hash db f = true <-> ~ already_current db f).
Proof.
  intros Hnd. destruct f as [[filepath size_] modified_].
  unfold needs_hash, already_current, fetchone. cbn [fst snd].
  destruct (select_hashed (Workspace.files db) filepath size_)
    as [|[x em] rest] eqn:Esel; cbn [hd_error].
  - split; [|reflexivity]. intros _ [r [Hin [Hp [Hs [Hx Hm]]]]].
    assert (Hsel : In (xxhash r, modified r)
                     (select_hashed (Workspace.files db) filepath size_))
      by (apply select_hashed_in; exists r; now repeat split).
    rewrite Esel in Hsel. destruct Hsel.
  - assert (Hfirst : In (x, em) (select_hashed (Workspace.files db) filepath size_))
      by (rewrite Esel; now left).
    apply select_hashed_in in Hfirst.
    destruct Hfirst as [r0 [Hin0 [Hp0 [Hs0 [Hx0 [-> ->]]]]]].
    rewrite negb_true_iff, Z.eqb_neq. split.
    + intros Hne [r [Hin [Hp [Hs [Hx Hm]]]]].
      assert (r = r0) by (apply (@nodup_paths_unique _ r r0 Hnd); congruence).
      subst r. contradiction.
    + intros Hnot Hm. apply Hnot. exists r0. now repeat split.
Qed.
End ResumeFacts.



(** ** The directory list *)

Section DirectoryFacts.
Import Workspace.
Variable codec : JsonCodec.

Lemma save_rows (now : Z) (directories : list string) :
  forall rows,
    fold_left
      (fun rows directory =>
         rows ++ [{| directory_path := directory; added_at := now |}])
      directories rows
    = rows ++ map (fun directory =>
                     {| directory_path := directory; added_at := now |})
                  directories.
Proof.
  induction directories as [|d directories IH]; intros rows; cbn [fold_left map].
  - now rewrite app_nil_r.
  - now rewrite IH, <- app_assoc.
Qed.

Lemma save_directories_rows (now : Z) (ws : t) (directories : list string) :
  workspace_directories (save_directories codec now ws directories)
  = map (fun directory => {| directory_path := directory; added_at := now |})
      directories.
Proof. cbn [save_directories workspace_directories]. apply save_rows. Qed.

Lemma insert_by_added_at_last (row : DirectoryRow) (sorted : list DirectoryRow) :
  (forall row', In row' sorted -> added_at row' <= added_at row) ->
  insert_by_added_at row sorted = sorted ++ [row].
Proof.
  induction sorted as [|row' sorted IH]; intros H; cbn [insert_by_added_at app];
    [reflexivity|].
  assert (E : (added_at row' <=? added_at row) = true)
    by (apply Z.leb_le, H; now left).
  rewrite E, IH; [reflexivity|]. intros r Hr. apply H. now right.
Qed.

Lemma order_by_added_at_same (now : Z) (rows : list DirectoryRow) :
  (forall row, In row rows -> added_at row = now) ->
  order_by_added_at rows = rows.
Proof.
  unfold order_by_added_at.
  assert (Hgen : forall sorted,
    (forall row, In row sorted -> added_at row = now) ->
    (forall row, In row rows -> added_at row = now) ->
    fold_left (fun sorted row => insert_by_added_at row sorted) rows sorted
    = sorted ++ rows).
  { induction rows as [|row rows IH]; intros sorted Hs Hr; cbn [fold_left].
    - now rewrite app_nil_r.
    - rewrite insert_by_added_at_last.
      + rewrite IH.
        * now rewrite <- app_assoc.
        * intros r Hin. apply in_app_or in Hin.
          destruct Hin as [Hin|[<-|[]]]; [now apply Hs | apply Hr; now left].
        * intros r Hin. apply Hr. now right.
      + intros r Hin. rewrite (Hs r Hin), (Hr row); [lia | now left]. }
  intros H. apply (Hgen [] (fun _ (F : In _ []) => match F with end) H).
Qed.

Lemma insert_by_added_at_length (row : DirectoryRow) (sorted : list DirectoryRow) :
  List.length (insert_by_added_at row sorted) = S (List.length sorted).
Proof.
  induction sorted as [|row' sorted IH]; cbn [insert_by_added_at List.length];
    [reflexivity|].
  destruct (added_at row' <=? added_at row); cbn [List.length]; now rewrite ?IH.
Qed.

Lemma order_by_added_at_length (rows : list DirectoryRow) :
  List.length (order_by_added_at rows) = List.length rows.
Proof.
  unfold order_by_added_at.
  assert (Hgen : forall sorted,
    List.length (fold_left (fun sorted row => insert_by_added_at row sorted)
                   rows sorted)
    = (List.length sorted + List.length rows)%nat).
  { induction rows as [|row rows IH]; intros sorted; cbn [fold_left List.length].
    - lia.
    - rewrite IH, insert_by_added_at_length. lia. }
  apply (Hgen []).
Qed.

(** [load_directories] by cases on the structured list. *)
Lemma load_directories_cases (ws : t) :
  load_directories codec ws
  = match workspace_directories ws with
    | _ :: _ =>
        Ok (map directory_path (order_by_added_at (workspace_directories ws)))
    | [] =>
        match select_config (workspace_config ws) "directories" with
        | value :: _ => json_loads codec value
        | [] => Ok []
        end
    end.
Proof.
  unfold load_directories.
  pose proof (order_by_added_at_length (workspace_directories ws)) as Hlen.
  destruct (workspace_directories ws) as [|row rows] eqn:E.
  - reflexivity.
  - destruct (order_by_added_at (row :: rows)); [discriminate | reflexivity].
Qed.

Lemma select_config_replaced (rows : list (string * string)) (key value key' : string) :
  select_config (insert_or_replace_config rows key value) key'
  = if String.eqb key' key then [value] else select_config rows key'.
Proof.
  unfold select_config, insert_or_replace_config.
  rewrite filter_app, map_app. cbn [filter fst map snd].
  destruct (String.eqb key' key) eqn:E.
  - apply String.eqb_eq in E. subst key'. rewrite String.eqb_refl.
    assert (Hnone : filter (fun kv : string * string => String.eqb (fst kv) key)
                      (filter (fun kv => negb (String.eqb (fst kv) key)) rows) = []).
    { induction rows as [|kv rows IH]; cbn [filter]; [reflexivity|].
      destruct (String.eqb (fst kv) key) eqn:Ek; cbn [negb filter];
        [exact IH | now rewrite Ek]. }
    now rewrite Hnone.
  - assert (E' : String.eqb key key' = false)
      by (rewrite String.eqb_sym; exact E).
    rewrite E'. cbn [map]. rewrite app_nil_r. f_equal.
    induction rows as [|kv rows IH]; cbn [filter]; [reflexivity|].
    destruct (String.eqb (fst kv) key) eqn:Ek; cbn [negb filter].
    + apply String.eqb_eq in Ek. rewrite Ek, E'. exact IH.
    + destruct (String.eqb (fst kv) key'); now rewrite IH.
Qed.
End DirectoryFacts.


(** ** The resolver writes table files only *)

Section ResolverFrame.
Import Deduper StoreSpec.
Variables (lib : HashLib) (fs : FileSystem).

Lemma same_other_tables_refl (ws : Workspace.t) : same_other_tables ws ws.
Proof. now repeat split. Qed.

Lemma same_other_tables_write_back (ws0 ws : Workspace.t) (file : FileRecord) :
  same_other_tables ws0 ws -> same_other_tables ws0 (write_back ws file).
Proof. intros H. exact H. Qed.

Lemma fold_left_invariant (A B : Type) (f : A -> B -> A) (P : A -> Prop) :
  (forall a b, P a -> P (f a b)) ->
  forall l a, P a -> P (fold_left f l a).
Proof.
  intros Hstep. induction l as [|b l IH]; intros a Ha; cbn [fold_left];
    [assumption|].
  apply IH. now apply Hstep.
Qed.

Lemma confirm_step_frame (ws0 : Workspace.t)
    (acc : state * list (option string * list Heap.ref)) (r : Heap.ref) :
  same_other_tables ws0 (workspace (fst acc)) ->
  same_other_tables ws0 (workspace (fst (confirm_step lib fs acc r))).
Proof.
  destruct acc as [st m]. unfold confirm_step. cbn [fst].
  destruct (negb (truthy (md5 (Heap.get (heap st) r)))); cbn [fst workspace];
    intros H; exact H.
Qed.

Lemma potential_step_frame (ws0 : Workspace.t)
    (acc : state * list (option string * list Heap.ref)) (r : Heap.ref) :
  same_other_tables ws0 (workspace (fst acc)) ->
  same_other_tables ws0 (workspace (fst (potential_step lib fs acc r))).
Proof.
  destruct acc as [st m]. unfold potential_step. cbn [fst].
  destruct (negb (truthy (xxhash (Heap.get (heap st) r)))); cbn [fst workspace];
    intros H; exact H.
Qed.

Lemma confirm_group_frame (ws0 : Workspace.t)
    (acc : state * list (list Heap.ref)) (g : list Heap.ref) :
  same_other_tables ws0 (workspace (fst acc)) ->
  same_other_tables ws0 (workspace (fst (confirm_group lib fs acc g))).
Proof.
  destruct acc as [st confirmed]. unfold confirm_group. cbn [fst]. intros H.
  pose proof (@fold_left_invariant _ _ (confirm_step lib fs)
                (fun acc => same_other_tables ws0 (workspace (fst acc)))
                (@confirm_step_frame ws0) g (st, []) H) as Hfold.
  destruct (fold_left (confirm_step lib fs) g (st, [])) as [st' m].
  exact Hfold.
Qed.

Lemma confirm_duplicates_frame (st : state) (groups : list (list Heap.ref)) :
  same_other_tables (workspace st)
    (workspace (snd (confirm_duplicates lib fs st groups))).
Proof.
  unfold confirm_duplicates.
  pose proof (@fold_left_invariant _ _ (confirm_group lib fs)
                (fun acc => same_other_tables (workspace st) (workspace (fst acc)))
                (@confirm_group_frame (workspace st)) groups (st, [])
                (same_other_tables_refl _)) as Hfold.
  destruct (fold_left (confirm_group lib fs) groups (st, [])) as [st' c].
  exact Hfold.
Qed.

Lemma find_potential_duplicates_frame (st : state) :
  same_other_tables (workspace st)
    (workspace (snd (find_potential_duplicates lib fs st))).
Proof.
  unfold find_potential_duplicates.
  destruct (Heap.alloc_all (heap st) (Workspace.get_files (workspace st)))
    as [files h].
  pose proof (@fold_left_invariant _ _ (potential_step lib fs)
                (fun acc => same_other_tables (workspace st) (workspace (fst acc)))
                (@potential_step_frame (workspace st)) files
                ({| heap := h; workspace := workspace st |}, [])
                (same_other_tables_refl _)) as Hfold.
  destruct (fold_left (potential_step lib fs) files
              ({| heap := h; workspace := workspace st |}, [])) as [st' m].
  exact Hfold.
Qed.

Lemma find_duplicates_frame (h : Heap.t) (e : DedupEngine.t) :
  same_other_tables (DedupEngine.workspace e)
    (DedupEngine.workspace (snd (DedupEngine.find_duplicates lib fs h e))).
Proof.
  unfold DedupEngine.find_duplicates.
  pose proof (find_potential_duplicates_frame
                {| heap := h; workspace := DedupEngine.workspace e |}) as H1.
  destruct (find_potential_duplicates lib fs
              {| heap := h; workspace := DedupEngine.workspace e |})
    as [potential st1].
  pose proof (confirm_duplicates_frame st1 potential) as H2.
  destruct (confirm_duplicates lib fs st1 potential) as [confirmed st2].
  cbn [snd DedupEngine.workspace workspace] in *.
  destruct H1 as [A1 [B1 [C1 D1]]], H2 as [A2 [B2 [C2 D2]]].
  repeat split; congruence.
Qed.
End ResolverFrame.

(** C6, as the code has it.  [save_directories] replaces the structured
    list wholesale and also rewrites the legacy blob, key [directories] of
    [workspace_config], with the JSON text of the same list; it writes no
    other key, and no other operation writes [workspace_config].
    [load_directories] reads the structured list and consults the legacy
    blob only when the structured list is empty.  A non-empty list saved is
    the list loaded. *)
Theorem save_directories_replaces_list_and_rewrites_blob :
  (forall codec now ws directories,
     map Workspace.directory_path
       (Workspace.workspace_directories
          (Workspace.save_directories codec now ws directories))
     = directories)
  /\ (forall codec now ws directories key,
        Workspace.select_config
          (Workspace.workspace_config
             (Workspace.save_directories codec now ws directories)) key
        = if String.eqb key "directories"
          then [json_dumps codec directories]
          else Workspace.select_config (Workspace.workspace_config ws) key)
  /\ (forall codec ws,
        Workspace.load_directories codec ws
        = match Workspace.workspace_directories ws with
          | _ :: _ =>
              Ok (map Workspace.directory_path
                    (Workspace.order_by_added_at (Workspace.workspace_directories ws)))
          | [] =>
              match Workspace.select_config (Workspace.workspace_config ws)
                      "directories" with
              | value :: _ => json_loads codec value
              | [] => Ok []
              end
          end)
  /\ (forall codec now ws directories,
        directories <> [] ->
        Workspace.load_directories codec
          (Workspace.save_directories codec now ws directories)
        = Ok directories)
  /\ (forall codec fs ws o,
        match o with
        | Workspace.SaveDirectories _ _ => True
        | _ => Workspace.workspace_config (Workspace.exec codec fs ws o)
               = Workspace.workspace_config ws
        end)
  /\ (forall sq lib fs sched e,
        Workspace.workspace_config
          (DedupEngine.workspace
             (snd (DedupEngine.scan_and_hash sq lib fs sched e)))
        = Workspace.workspace_config (DedupEngine.workspace e))
  /\ (forall lib fs h e,
        Workspace.workspace_config
          (DedupEngine.workspace (snd (DedupEngine.find_duplicates lib fs h e)))
        = Workspace.workspace_config (DedupEngine.workspace e)).
Proof.
  split; [|split; [|split; [|split; [|split; [|split]]]]].
  - intros codec now ws directories. rewrite save_directories_rows, map_map.
    cbn [Workspace.directory_path]. apply map_id.
  - intros codec now ws directories key.
    cbn [Workspace.save_directories Workspace.workspace_config].
    apply select_config_replaced.
  - intros codec ws. apply load_directories_cases.
  - intros codec now ws directories Hne.
    rewrite load_directories_cases, save_directories_rows.
    destruct directories as [|d directories]; [congruence|].
    cbn [map]. f_equal.
    rewrite (order_by_added_at_same (now := now)).
    + cbn [map Workspace.directory_path]. f_equal.
      rewrite map_map. cbn [Workspace.directory_path]. apply map_id.
    + intros row [<-|Hin]; [reflexivity|].
      apply in_map_iff in Hin. destruct Hin as [x [<- _]]. reflexivity.
  - intros codec fs ws o. now destruct o.
  - intros sq lib fs sched e. apply scan_and_hash_other_tables.
  - intros lib fs h e. apply find_duplicates_frame.
Qed.

(** C6 as stated fails: [save_directories] writes the legacy blob. *)
Lemma save_directories_writes_legacy_blob :
  let ws := Workspace.create_workspace "/home/u/photos.dedupe" in
  let ws' := Workspace.save_directories Examples.plain_codec 1700000000 ws ["/A"] in
  Workspace.workspace_config ws = []
  /\ Workspace.workspace_config ws'
     = [("directories", Examples.plain_dumps ["/A"])]
  /\ Workspace.workspace_config ws' <> Workspace.workspace_config ws.
Proof. repeat split. discriminate. Qed.

(** ** The resolver on sample stores *)

(** The end-to-end case of the specification: [f1] and [f2] hold foo, [f3]
    holds bar; one confirmed group, [f1] with [f2]. *)
Example find_duplicates_tree_A :
  let scanned :=
    snd (DedupEngine.scan_and_hash Examples.ascii_sqlite Examples.tagged_lib
           Examples.tree_A lifo (Examples.engine_of [] ["/A"])) in
  let found :=
    DedupEngine.find_duplicates Examples.tagged_lib Examples.tree_A
      Examples.empty_heap scanned in
  map (map path) (Examples.deref (snd (fst found)) (fst (fst found)))
  = [["/A/f2"; "/A/f1"]].
Proof. reflexivity. Qed.

(** With a fingerprint on which all files collide, the three files form
    one potential group, and the md5 takes [f3] out of the confirmed
    group. *)
Example colliding_fingerprint_confirmed_by_md5 :
  let scanned :=
    snd (DedupEngine.scan_and_hash Examples.ascii_sqlite Examples.colliding_lib
           Examples.tree_A fifo (Examples.engine_of [] ["/A"])) in
  let st := {| Deduper.heap := Examples.empty_heap;
               Deduper.workspace := DedupEngine.workspace scanned |} in
  let potential :=
    Deduper.find_potential_duplicates Examples.colliding_lib Examples.tree_A st in
  let confirmed :=
    Deduper.confirm_duplicates Examples.colliding_lib Examples.tree_A
      (snd potential) (fst potential) in
  map (map path) (Examples.deref (Deduper.heap (snd potential)) (fst potential))
  = [["/A/f1"; "/A/f2"; "/A/f3"]]
  /\ map (map path) (Examples.deref (Deduper.heap (snd confirmed)) (fst confirmed))
     = [["/A/f1"; "/A/f2"]].
Proof. split; reflexivity. Qed.

(** C2 at its failing inputs.  Two stored files that cannot be read: the
    fingerprint and the md5 computed for each are null, and the resolver
    files both under the null key, so they come back as one potential
    group and as one confirmed group.  The same happens to two files that
    were fingerprinted while readable and have vanished since: their null
    md5 confirms them as duplicates of each other. *)
Theorem unreadable_files_reported_as_duplicates :
  let resolve := fun lib rows =>
    let st := {| Deduper.heap := Examples.empty_heap;
                 Deduper.workspace := Examples.workspace_of rows |} in
    let potential := Deduper.find_potential_duplicates lib Examples.tree_A st in
    let confirmed :=
      Deduper.confirm_duplicates lib Examples.tree_A (snd potential) (fst potential) in
    (map (map path) (Examples.deref (Deduper.heap (snd potential)) (fst potential)),
     map (map (fun r => (path r, xxhash r, md5 r)))
       (Examples.deref (Deduper.heap (snd confirmed)) (fst confirmed))) in
  Hasher.compute_xxhash Examples.tagged_lib Examples.tree_A "/A/locked" = None
  /\ Hasher.compute_xxhash Examples.tagged_lib Examples.tree_A "/A/vanished" = None
  /\ resolve Examples.tagged_lib Examples.two_unreadable
     = ([["/A/locked"; "/A/vanished"]],
        [[("/A/locked", None, None); ("/A/vanished", None, None)]])
  /\ resolve Examples.tagged_lib Examples.two_vanished
     = ([["/A/old1"; "/A/old2"]],
        [[("/A/old1", Some "0000000000000000", None);
          ("/A/old2", Some "0000000000000000", None)]]).
Proof. repeat split. Qed.

(** The three hash functions on the sample tree: a readable file, a file
    that cannot be opened, a file whose first read breaks, a missing
    path. *)
Example compute_hashes_tree_A :
  Hasher.compute_xxhash Examples.tagged_lib Examples.tree_A "/A/f1" = Some "x:foo"
  /\ Hasher.compute_md5 Examples.tagged_lib Examples.tree_A "/A/f3" = Some "m:bar"
  /\ Hasher.compute_sha1 Examples.tagged_lib Examples.tree_A "/A/f2" = Some "s:foo"
  /\ Hasher.compute_md5 Examples.tagged_lib Examples.tree_A "/A/locked" = None
  /\ Hasher.compute_xxhash Examples.tagged_lib Examples.tree_A "/A/torn" = None
  /\ Hasher.compute_sha1 Examples.tagged_lib Examples.tree_A "/nowhere" = None.
Proof. repeat split. Qed.

(** A 100 MiB file and a 1 KB file go to different pools; the pairs
    returned are those of the reference. *)
Example routing_large_and_small :
  let files := [("/A/f3", 1024, 1700000003); ("/A/f1", 104857600, 1700000001)] in
  let hash_func := fun p => Ok (Hasher.compute_xxhash Examples.tagged_lib Examples.tree_A p) in
  ParallelProcessor.process_files_parallel lifo files hash_func
  = [("/A/f1", "x:foo"); ("/A/f3", "x:bar")]
  /\ ParallelProcessor.single_pool_reference files hash_func
     = [("/A/f3", "x:bar"); ("/A/f1", "x:foo")].
Proof. split; reflexivity. Qed.

(** Saving and loading the directory list on a fresh workspace; an empty
    list saved is read back through the legacy blob. *)
Example save_then_load_directories :
  let ws := Workspace.create_workspace "/home/u/photos.dedupe" in
  Workspace.load_directories Examples.plain_codec
    (Workspace.save_directories Examples.plain_codec 1700000000 ws ["/A"; "/B"])
  = Ok ["/A"; "/B"]
  /\ Workspace.load_directories Examples.plain_codec
       (Workspace.save_directories Examples.plain_codec 1700000000 ws [])
     = Ok []
  /\ Workspace.load_directories Examples.plain_codec ws = Ok [].
Proof. repeat split. Qed.


(** * Further properties of the code *)

(** ** scan_directories and scan_directories_parallel *)

Section ScannerFacts.
Import Scanner ScannerSpec.
Variable fs : FileSystem.

Lemma stat_loop (root : string) (filenames : list string) :
  forall files,
    fold_left
      (fun files filename =>
         let path_ := os_path_join fs root filename in
         match os_stat fs path_ with
         | Ok (st_size, st_mtime) => files ++ [(path_, st_size, st_mtime)]
         | Raise _ => files
         end)
      filenames files
    = files
      ++ flat_map
           (fun filename =>
              match os_stat fs (os_path_join fs root filename) with
              | Ok (st_size, st_mtime) =>
                  [(os_path_join fs root filename, st_size, st_mtime)]
              | Raise _ => []
              end)
           filenames.
Proof.
  induction filenames as [|filename filenames IH]; intros files;
    cbn [fold_left flat_map].
  - now rewrite app_nil_r.
  - rewrite IH. cbv zeta.
    destruct (os_stat fs (os_path_join fs root filename)) as [[sz mt]|e].
    + now rewrite <- app_assoc.
    + reflexivity.
Qed.

Lemma walk_loop (triples : list (string * list string * list string)) :
  forall files,
    fold_left
      (fun files '(root, _, filenames) =>
         fold_left
           (fun files filename =>
              let path_ := os_path_join fs root filename in
              match os_stat fs path_ with
              | Ok (st_size, st_mtime) => files ++ [(path_, st_size, st_mtime)]
              | Raise _ => files
              end)
           filenames files)
      triples files
    = files
      ++ flat_map
           (fun '(root, _, filenames) =>
              flat_map
                (fun filename =>
                   match os_stat fs (os_path_join fs root filename) with
                   | Ok (st_size, st_mtime) =>
                       [(os_path_join fs root filename, st_size, st_mtime)]
                   | Raise _ => []
                   end)
                filenames)
           triples.
Proof.
  induction triples as [|[[root dirs] filenames] triples IH]; intros files;
    cbn [fold_left flat_map].
  - now rewrite app_nil_r.
  - rewrite IH, stat_loop. now rewrite <- app_assoc.
Qed.

Lemma scan_single_directory_spec (directory : string) (core_id : Z) :
  scan_single_directory fs (directory, core_id)
  = (directory, files_under fs directory, core_id).
Proof. unfold scan_single_directory, files_under. now rewrite walk_loop. Qed.

Lemma scan_directories_spec (directories : list string) :
  scan_directories fs directories = flat_map (files_under fs) directories.
Proof.
  unfold scan_directories.
  assert (Hgen : forall files,
    fold_left
      (fun files directory =>
         fold_left
           (fun files '(root, _, filenames) =>
              fold_left
                (fun files filename =>
                   let path_ := os_path_join fs root filename in
                   match os_stat fs path_ with
                   | Ok (st_size, st_mtime) => files ++ [(path_, st_size, st_mtime)]
                   | Raise _ => files
                   end)
                filenames files)
           (os_walk fs directory) files)
      directories files
    = files ++ flat_map (files_under fs) directories).
  { induction directories as [|d directories IH]; intros files;
      cbn [fold_left flat_map].
    - now rewrite app_nil_r.
    - rewrite IH, walk_loop. unfold files_under. now rewrite <- app_assoc. }
  apply (Hgen []).
Qed.

Lemma files_under_in (directory p : string) (s m : Z) :
  In (p, s, m) (files_under fs directory)
  <-> exists root dirs filenames filename,
        In (root, dirs, filenames) (os_walk fs directory)
        /\ In filename filenames
        /\ p = os_path_join fs root filename
        /\ os_stat fs p = Ok (s, m).
Proof.
  unfold files_under. rewrite in_flat_map. split.
  - intros [[[root dirs] filenames] [Hw Hin]].
    apply in_flat_map in Hin. destruct Hin as [filename [Hf Hin]].
    destruct (os_stat fs (os_path_join fs root filename)) as [[sz mt]|e] eqn:E;
      [|destruct Hin].
    destruct Hin as [Hin|[]]. inversion Hin; subst.
    exists root, dirs, filenames, filename. now repeat split.
  - intros [root [dirs [filenames [filename [Hw [Hf [-> Hs]]]]]]].
    exists (root, dirs, filenames). split; [assumption|].
    apply in_flat_map. exists filename. split; [assumption|].
    rewrite Hs. now left.
Qed.

Lemma enumerate_from_snd (A : Type) (l : list A) :
  forall i, map snd (enumerate_from i l) = l.
Proof.
  induction l as [|x l IH]; intros i; cbn [enumerate_from map snd];
    [reflexivity|]. now rewrite IH.
Qed.

Lemma collect_scans (entries : list (scan_future * string)) :
  (forall entry, In entry entries ->
     exists core_id,
       fst entry = Ok (snd entry, files_under fs (snd entry), core_id)) ->
  forall all_files,
    fold_left
      (fun all_files '(fut, directory_path) =>
         match fut with
         | Ok (directory, directory_files, core_id) =>
             all_files ++ directory_files
         | Raise _ => all_files
         end)
      entries all_files
    = all_files ++ flat_map (files_under fs) (map snd entries).
Proof.
  induction entries as [|[fut d] entries IH]; intros Hall all_files;
    cbn [fold_left flat_map map snd].
  - now rewrite app_nil_r.
  - destruct (Hall (fut, d)) as [core_id Hfut]; [now left|].
    cbn [fst snd] in Hfut. subst fut.
    rewrite IH; [now rewrite <- app_assoc|].
    intros entry Hin. apply Hall. now right.
Qed.
Lemma parallel_pool (sched : ScanScheduler) (max_workers : Z)
    (directories : list string) :
  exists order,
    Permutation order directories
    /\ fold_left
         (fun all_files '(fut, directory_path) =>
            match fut with
            | Ok (directory, directory_files, core_id) =>
                all_files ++ directory_files
            | Raise _ => all_files
            end)
         (scans_completed sched
            (map (fun assignment =>
                    (Ok (scan_single_directory fs assignment), fst assignment))
               (map (fun '(i, dir_path) => (dir_path, i mod max_workers))
                  (enumerate_from 0 directories))))
         []
       = scan_directories fs order.
Proof.
  set (future_to_dir :=
         map (fun assignment =>
                (Ok (scan_single_directory fs assignment), fst assignment))
           (map (fun '(i, dir_path) => (dir_path, i mod max_workers))
              (enumerate_from 0 directories))).
  assert (Hdirs : map snd future_to_dir = directories).
  { unfold future_to_dir. rewrite !map_map.
    transitivity (map snd (enumerate_from 0 directories));
      [apply map_ext; now intros [i dir_path] | apply enumerate_from_snd]. }
  exists (map snd (scans_completed sched future_to_dir)). split.
  - apply Permutation_trans with (map snd future_to_dir);
      [apply Permutation_map, scans_completed_perm
      | rewrite Hdirs; apply Permutation_refl].
  - rewrite scan_directories_spec. rewrite collect_scans; [reflexivity|].
    intros entry Hin.
    apply (Permutation_in _ (scans_completed_perm sched future_to_dir)) in Hin.
    unfold future_to_dir in Hin. apply in_map_iff in Hin.
    destruct Hin as [[dir_path core_id] [<- _]].
    exists core_id. cbn [fst snd]. now rewrite scan_single_directory_spec.
Qed.
End ScannerFacts.

(** X1.  [scan_directories] lists, root after root and in walk order, every
    file name the walk reports whose [os.stat] succeeds, as the joined
    path with its size and modified time; a file whose [os.stat] raises is
    left out and the scan goes on.  The order is spelled out: the roots in
    the order given, for each root the triples of its walk in the order
    the walk yields them, for each triple its file names in the order
    listed.  Nothing is deduplicated: the files of a list of roots are
    those of its parts, one after the other, so a root given twice is
    listed twice. *)
Theorem scan_directories_lists_stattable_files (fs : FileSystem) :
  Scanner.scan_directories fs [] = []
  /\ (forall roots1 roots2,
        Scanner.scan_directories fs (roots1 ++ roots2)
        = Scanner.scan_directories fs roots1 ++ Scanner.scan_directories fs roots2)
  /\ (forall roots p s m,
        In (p, s, m) (Scanner.scan_directories fs roots)
        <-> exists directory root dirs filenames filename,
              In directory roots
              /\ In (root, dirs, filenames) (os_walk fs directory)
              /\ In filename filenames
              /\ p = os_path_join fs root filename
              /\ os_stat fs p = Ok (s, m))
  /\ (forall roots,
        Scanner.scan_directories fs roots
        = flat_map
            (fun directory =>
               flat_map
                 (fun '(root, _, filenames) =>
                    flat_map
                      (fun filename =>
                         match os_stat fs (os_path_join fs root filename) with
                         | Ok (st_size, st_mtime) =>
                             [(os_path_join fs root filename, st_size, st_mtime)]
                         | Raise _ => []
                         end)
                      filenames)
                 (os_walk fs directory))
            roots).
Proof.
  split; [reflexivity|]. split; [|split].
  - intros roots1 roots2. rewrite !scan_directories_spec. apply flat_map_app.
  - intros roots p s m. rewrite scan_directories_spec, in_flat_map. split.
    + intros [d [Hd Hin]]. apply files_under_in in Hin.
      destruct Hin as [root [dirs [filenames [filename H]]]].
      exists d, root, dirs, filenames, filename. tauto.
    + intros [d [root [dirs [filenames [filename [Hd H]]]]]].
      exists d. split; [assumption|]. apply files_under_in.
      now exists root, dirs, filenames, filename.
  - intros roots. rewrite scan_directories_spec. reflexivity.
Qed.

(** X2.  [scan_directories_parallel] returns what [scan_directories]
    returns on the same roots taken in the order in which the pool finished
    them: the files of one root stay together and in walk order, and the
    whole is a rearrangement of the sequential result, whatever the number
    of cores.  With no roots it returns the empty list without starting a
    pool. *)
Theorem scan_directories_parallel_rearranges_sequential
    (fs : FileSystem) (cpu_count : positive) (sched : Scanner.ScanScheduler)
    (directories : list string) :
  Scanner.scan_directories_parallel fs cpu_count sched [] = []
  /\ (exists order,
        Permutation order directories
        /\ Scanner.scan_directories_parallel fs cpu_count sched directories
           = Scanner.scan_directories fs order)
  /\ Permutation
       (Scanner.scan_directories_parallel fs cpu_count sched directories)
       (Scanner.scan_directories fs directories).
Proof.
  split; [reflexivity|].
  assert (Horder : exists order,
            Permutation order directories
            /\ Scanner.scan_directories_parallel fs cpu_count sched directories
               = Scanner.scan_directories fs order).
  { destruct directories as [|d ds];
      [exists []; split; [constructor|reflexivity]|].
    apply (parallel_pool fs sched
             (Z.min 8 (Z.min (Z.pos cpu_count)
                         (Z.of_nat (List.length (d :: ds))))) (d :: ds)). }
  split; [exact Horder|].
  destruct Horder as [order [Hperm ->]].
  rewrite !scan_directories_spec. now apply Permutation_flat_map.
Qed.


(** ** The roots of the engine *)

Lemma list_remove_first (l : list string) (x : string) :
  In x l ->
  exists before after,
    l = before ++ x :: after /\ ~ In x before
    /\ DedupEngine.list_remove l x = before ++ after.
Proof.
  induction l as [|y l IH]; intros Hin; [destruct Hin|].
  cbn [DedupEngine.list_remove].
  destruct (String.eqb y x) eqn:E.
  - apply String.eqb_eq in E. subst y. exists [], l. now repeat split.
  - apply String.eqb_neq in E. destruct Hin as [Hin|Hin]; [contradiction|].
    destruct (IH Hin) as [before [after [Hl [Hnot Hrem]]]].
    exists (y :: before), after. cbn [app]. split; [now rewrite Hl|].
    split; [|now rewrite Hrem].
    intros [H|H]; [congruence | contradiction].
Qed.

Lemma existsb_eqb_in (l : list string) (x : string) :
  existsb (String.eqb x) l = true <-> In x l.
Proof.
  rewrite existsb_exists. split.
  - intros [y [Hy E]]. apply String.eqb_eq in E. now subst.
  - intros H. exists x. split; [assumption | apply String.eqb_refl].
Qed.

(** X3.  [add_directory] refuses a path that does not exist and leaves the
    engine as it was; otherwise it appends the path, also when it is
    already a root.  [remove_directory] answers whether the path was a root
    and removes its first occurrence only, keeping the other roots in
    order; a path that is no root leaves the engine as it was.  Adding a
    new root and removing it again restores the roots, and neither call
    touches the workspace. *)
Theorem add_and_remove_directory (fs : FileSystem) (e : DedupEngine.t)
    (directory : string) :
  (os_path_exists fs directory = false ->
     DedupEngine.add_directory fs e directory = (false, e))
  /\ (os_path_exists fs directory = true ->
       fst (DedupEngine.add_directory fs e directory) = true
       /\ DedupEngine.directories (snd (DedupEngine.add_directory fs e directory))
          = DedupEngine.directories e ++ [directory])
  /\ (fst (DedupEngine.remove_directory e directory) = true
      <-> In directory (DedupEngine.directories e))
  /\ (~ In directory (DedupEngine.directories e) ->
       DedupEngine.remove_directory e directory = (false, e))
  /\ (In directory (DedupEngine.directories e) ->
       exists before after,
         DedupEngine.directories e = before ++ directory :: after
         /\ ~ In directory before
         /\ DedupEngine.directories (snd (DedupEngine.remove_directory e directory))
            = before ++ after)
  /\ (os_path_exists fs directory = true ->
       ~ In directory (DedupEngine.directories e) ->
       snd (DedupEngine.remove_directory
              (snd (DedupEngine.add_directory fs e directory)) directory)
       = e)
  /\ DedupEngine.workspace (snd (DedupEngine.add_directory fs e directory))
     = DedupEngine.workspace e
  /\ DedupEngine.workspace (snd (DedupEngine.remove_directory e directory))
     = DedupEngine.workspace e.
Proof.
  unfold DedupEngine.add_directory, DedupEngine.remove_directory.
  split; [intros H; now rewrite H|].
  split; [intros H; now rewrite H|].
  split.
  { rewrite <- existsb_eqb_in.
    destruct (existsb (String.eqb directory) (DedupEngine.directories e));
      cbn [fst]; split; congruence. }
  split.
  { intros H. apply (proj2 (not_iff_compat (existsb_eqb_in _ _))) in H.
    destruct (existsb (String.eqb directory) (DedupEngine.directories e));
      [now elim H | reflexivity]. }
  split.
  { intros H. pose proof (proj2 (existsb_eqb_in _ _) H) as E. rewrite E.
    cbn [snd DedupEngine.directories]. now apply list_remove_first. }
  split.
  { intros Hex Hnot. rewrite Hex. cbn [snd DedupEngine.directories DedupEngine.workspace].
    assert (E : existsb (String.eqb directory)
                  (DedupEngine.directories e ++ [directory]) = true)
      by (apply existsb_eqb_in, in_or_app; right; now left).
    rewrite E. cbn [snd].
    assert (Hrem : DedupEngine.list_remove
                     (DedupEngine.directories e ++ [directory]) directory
                   = DedupEngine.directories e).
    { clear E. induction (DedupEngine.directories e) as [|y l IH];
        cbn [app DedupEngine.list_remove].
      - now rewrite String.eqb_refl.
      - destruct (String.eqb y directory) eqn:Ey.
        + apply String.eqb_eq in Ey. subst y. elim Hnot. now left.
        + rewrite IH; [reflexivity|]. intros H. apply Hnot. now right. }
    rewrite Hrem. now destruct e. }
  split.
  - destruct (os_path_exists fs directory); reflexivity.
  - destruct (existsb (String.eqb directory) (DedupEngine.directories e));
      reflexivity.
Qed.

(** ** What the pools return and what a scan stores *)

(** X4.  [process_files_parallel] returns a pair for a path exactly when
    the path is among the files given and the hash function returned a
    non-empty hash for it, and that hash is the one paired with it; a file
    whose hashing raised, or gave [None] or the empty string, yields no
    pair and does not stop the others.  So there are never more pairs than
    files, and none for no files. *)
Theorem process_files_parallel_keeps_hashed_files
    (sched : Scheduler) (files : list file_info) (hash_func : string -> future) :
  (forall filepath h,
     In (filepath, h)
        (ParallelProcessor.process_files_parallel sched files hash_func)
     <-> (exists s m, In (filepath, s, m) files)
         /\ hash_func filepath = Ok (Some h) /\ h <> "")
  /\ (List.length (ParallelProcessor.process_files_parallel sched files hash_func)
      <= List.length files)%nat
  /\ ParallelProcessor.process_files_parallel sched [] hash_func = [].
Proof.
  pose proof (process_files_parallel_perm sched hash_func files) as Hperm.
  split; [|split].
  - intros filepath h. rewrite <- reference_in. split; apply Permutation_in;
      [exact Hperm | apply Permutation_sym, Hperm].
  - rewrite (Permutation_length Hperm). clear Hperm.
    induction files as [|[[p s] m] files IH];
      cbn [ParallelProcessor.single_pool_reference List.length]; [lia|].
    destruct (hash_func p) as [[[|c h]|]|e]; cbn [List.length]; lia.
  - pose proof (process_files_parallel_perm sched hash_func []) as Hnil.
    cbn [ParallelProcessor.single_pool_reference] in Hnil.
    now apply Permutation_nil, Permutation_sym.
Qed.

Lemma build_file_dict_in (files : list file_info) (p : string) (s m : Z) :
  dict_get String.eqb (DedupEngine.build_file_dict files) p = Some (s, m) ->
  In (p, s, m) files.
Proof.
  unfold DedupEngine.build_file_dict.
  assert (Hgen : forall (seen : list file_info) d,
    (dict_get String.eqb d p = Some (s, m) -> In (p, s, m) seen) ->
    dict_get String.eqb
      (fold_left (fun d '(p, s, m) => dict_set String.eqb d p (s, m)) files d) p
    = Some (s, m) ->
    In (p, s, m) (seen ++ files)).
  { induction files as [|[[p0 s0] m0] files IH]; intros seen d Hd;
      cbn [fold_left].
    - rewrite app_nil_r. exact Hd.
    - intros H.
      cut (In (p, s, m) ((seen ++ [(p0, s0, m0)]) ++ files));
        [now rewrite <- app_assoc|].
      refine (IH (seen ++ [(p0, s0, m0)]) (dict_set String.eqb d p0 (s0, m0)) _ H).
      rewrite (dict_get_set String.eqb String.eqb_eq).
      destruct (String.eqb p p0) eqn:E.
      + apply String.eqb_eq in E. subst p0. intros Hs. inversion Hs; subst.
        apply in_or_app. right. now left.
      + intros Hs. apply in_or_app. left. now apply Hd. }
  intros H. apply (Hgen [] []); [discriminate | exact H].
Qed.

(** X5.  Table [files] after [scan_and_hash], row by row.  A path counts
    as hashed when the scan discovered it and [compute_xxhash] gave a
    non-empty hash for it; the fresh row of a hashed path holds the
    computed fingerprint, no md5, no sha1, status "present", and a size and
    modified time that the scan discovered for that path.  At a path that
    was not hashed (not discovered, unreadable, failed) the table holds
    exactly the rows it held before: none is added, changed or removed.
    When the call returns, at a hashed path the table holds exactly the
    fresh row.  When [sqlite3] refuses a path and cuts the store loop
    short, a row at a hashed path is the fresh row or a row held before. *)
Theorem scan_and_hash_rows_after
    (sq : Sqlite) (lib : HashLib) (fs : FileSystem) (sched : Scheduler)
    (e : DedupEngine.t) (r : FileRecord) :
  let discovered := Scanner.scan_directories fs (DedupEngine.directories e) in
  let hashed := fun p =>
    (exists s m, In (p, s, m) discovered)
    /\ exists h, Hasher.compute_xxhash lib fs p = Some h /\ h <> "" in
  let fresh :=
    xxhash r = Hasher.compute_xxhash lib fs (path r)
    /\ md5 r = None /\ sha1 r = None /\ status r = "present"
    /\ dict_get String.eqb (DedupEngine.build_file_dict discovered) (path r)
       = Some (size r, modified r) in
  let before := Workspace.files (DedupEngine.workspace e) in
  let call := DedupEngine.scan_and_hash sq lib fs sched e in
  let after := Workspace.files (DedupEngine.workspace (snd call)) in
  (~ hashed (path r) -> (In r after <-> In r before))
  /\ (fst call = Ok tt -> hashed (path r) -> (In r after <-> fresh))
  /\ (fst call = Ok tt -> hashed (path r) -> In r after ->
      In (path r, size r, modified r) discovered)
  /\ (hashed (path r) -> In r after -> In r before \/ fresh).
Proof.
  intros discovered hashed fresh before call after.
  set (rows := PipelineSpec.stored_rows sq lib fs sched (DedupEngine.directories e)).
  assert (Hfresh : forall r', In r' rows ->
            hashed (path r')
            /\ xxhash r' = Hasher.compute_xxhash lib fs (path r')
            /\ md5 r' = None /\ sha1 r' = None /\ status r' = "present"
            /\ dict_get String.eqb (DedupEngine.build_file_dict discovered)
                 (path r')
               = Some (size r', modified r')).
  { intros r' Hr'. apply stored_rows_in, scan_rows_in in Hr'.
    destruct Hr' as [Hd [[h [Hc [Hne Hx]]] [Hdict [Hm [Hs Hst]]]]].
    split; [split; [exact Hd | now exists h]|].
    repeat split; try assumption. congruence. }
  assert (Hafter : DedupEngine.directories e <> [] ->
            after = filter (PipelineSpec.untouched rows) before
                    ++ PipelineSpec.upserts rows []).
  { intros Hne. unfold after, call. rewrite scan_and_hash_files.
    destruct (DedupEngine.directories e) eqn:E; [congruence|].
    apply upserts_decompose. }
  assert (Hin_rows : fst call = Ok tt -> hashed (path r) ->
            DedupEngine.directories e <> [] /\ (In r after <-> In r rows)).
  { intros Hok [[s [m Hd]] [h [Hc Hh]]].
    destruct (scan_and_hash_ok lib fs sched sq e Hok) as [Hne Hall].
    split; [exact Hne|].
    rewrite (Hafter Hne), in_app_iff.
    pose proof (upserts_written r
                  (stored_rows_functional lib fs sq sched
                     (DedupEngine.directories e)))
      as Hw.
    fold rows in Hw. rewrite Hw.
    split; [|now right].
    intros [Hf|Hr]; [|exact Hr]. apply filter_In in Hf. destruct Hf as [_ Hu].
    apply untouched_spec in Hu. elim Hu. unfold rows. rewrite Hall.
    apply (@scan_rows_complete lib fs sched _ _ _ _ _ Hd Hc Hh). }
  split; [|split; [|split]].
  - intros Hnot.
    destruct (list_eq_dec string_dec (DedupEngine.directories e) []) as [E|Hne].
    + unfold after, call. rewrite scan_and_hash_files, E. reflexivity.
    + rewrite (Hafter Hne), in_app_iff, filter_In.
      split.
      * intros [[Hb _]|Hr]; [exact Hb|].
        apply upserts_nil_in in Hr. elim Hnot. now apply Hfresh.
      * intros Hb. left. split; [exact Hb|]. apply untouched_spec.
        intros Hin. apply in_map_iff in Hin. destruct Hin as [r' [Hp Hr']].
        apply Hnot. rewrite <- Hp. now apply Hfresh.
  - intros Hok Hh. destruct (Hin_rows Hok Hh) as [Hne Hiff]. rewrite Hiff. split.
    + intros Hr. now apply Hfresh.
    + intros [Hx [Hm [Hs [Hst Hd]]]].
      destruct (scan_and_hash_ok lib fs sched sq e Hok) as [_ Hall].
      destruct Hh as [[s [m Hdisc]] [h [Hc Hh]]].
      pose proof (@scan_rows_complete lib fs sched _ _ _ _ _ Hdisc Hc Hh) as Hp.
      rewrite <- Hall in Hp. fold rows in Hp.
      apply in_map_iff in Hp. destruct Hp as [r' [Hp Hr']].
      destruct (Hfresh r' Hr') as [_ [Hx' [Hm' [Hs' [Hst' Hd']]]]].
      rewrite Hp in Hx', Hd'.
      assert (r' = r); [|now subst].
      unfold discovered in Hd, Hd'.
      clear - Hx Hm Hs Hst Hd Hp Hx' Hd' Hm' Hs' Hst'.
      destruct r, r'. cbn [path size modified xxhash md5 sha1 status] in *.
      congruence.
  - intros Hok Hh Hr. destruct (Hin_rows Hok Hh) as [_ Hiff].
    apply Hiff, Hfresh in Hr.
    destruct Hr as [_ [_ [_ [_ [_ Hd]]]]]. now apply build_file_dict_in.
  - intros Hh Hr.
    destruct (list_eq_dec string_dec (DedupEngine.directories e) []) as [E|Hne].
    + left. unfold after, call in Hr. now rewrite scan_and_hash_files, E in Hr.
    + rewrite (Hafter Hne) in Hr. apply in_app_or in Hr.
      destruct Hr as [Hr|Hr].
      * left. now apply filter_In in Hr.
      * right. apply upserts_nil_in in Hr. now apply Hfresh.
Qed.


(** ** Phase 1 of the resolver *)

Section PotentialSpec.
Import Deduper DeduperSpec ResolverSpec PipelineSpec.
Variables (lib : HashLib) (fs : FileSystem).

Lemma write_back_files (ws : Workspace.t) (file : FileRecord) :
  Workspace.files (write_back ws file)
  = Workspace.insert_or_replace_file (Workspace.files ws) file.
Proof.
  unfold write_back. cbn [Workspace.add_file Workspace.files]. now destruct file.
Qed.

Lemma fill_xxhash_fingerprint (h : Heap.t) (r : Heap.ref) :
  xxhash (fill_xxhash lib fs (Heap.get h r)) = fingerprint lib fs h r.
Proof.
  unfold fill_xxhash, fingerprint.
  now destruct (truthy (xxhash (Heap.get h r))).
Qed.

Lemma fill_xxhash_path (row : FileRecord) :
  path (fill_xxhash lib fs row) = path row.
Proof. unfold fill_xxhash. now destruct (truthy (xxhash row)). Qed.

Lemma group_by_ext_in (X : Type) (key key' : X -> option string) (l : list X) :
  (forall x, In x l -> key x = key' x) ->
  forall d, group_by key l d = group_by key' l d.
Proof.
  induction l as [|x l IH]; intros H d; cbn [group_by fold_left]; [reflexivity|].
  rewrite (H x) by (now left).
  apply IH. intros y Hy. apply H. now right.
Qed.

Lemma map_get_set_above (h : Heap.t) (n len : nat) (v : FileRecord) :
  map (Heap.get (Heap.set h n v)) (seq (S n) len)
  = map (Heap.get h) (seq (S n) len).
Proof.
  apply map_ext_in. intros r Hr. apply in_seq in Hr.
  apply heap_get_set_other. lia.
Qed.

(** One pass of the loop of [find_potential_duplicates] over dicts that
    hold the rows [rows]. *)
Lemma potential_steps_spec (rows : list FileRecord) :
  forall (n : nat) (st : state) (m : list (option string * list Heap.ref)),
    map (Heap.get (heap st)) (seq n (List.length rows)) = rows ->
    exists st',
      fold_left (potential_step lib fs) (seq n (List.length rows)) (st, m)
      = (st', group_by (fingerprint lib fs (heap st)) (seq n (List.length rows)) m)
      /\ (forall r,
            Heap.get (heap st') r
            = if (n <=? r)%nat && (r <? n + List.length rows)%nat
              then fill_xxhash lib fs (Heap.get (heap st) r)
              else Heap.get (heap st) r)
      /\ Heap.next_ref (heap st') = Heap.next_ref (heap st)
      /\ Workspace.files (workspace st')
         = upserts (map (fill_xxhash lib fs) (filter lacks_xxhash rows))
             (Workspace.files (workspace st))
      /\ StoreSpec.same_other_tables (workspace st) (workspace st').
Proof.
  induction rows as [|row rows IH]; intros n st m Hrows;
    cbn [List.length seq fold_left].
  - exists st. split; [reflexivity|]. split.
    + intros r. destruct ((n <=? r)%nat && (r <? n + 0)%nat) eqn:E; [|reflexivity].
      apply andb_true_iff in E. destruct E as [E1 E2].
      apply Nat.leb_le in E1. apply Nat.ltb_lt in E2. lia.
    + split; [reflexivity|]. split; [reflexivity|]. now repeat split.
  - cbn [List.length seq map] in Hrows. injection Hrows as Hrow Hrest.
    set (st1 := fst (potential_step lib fs (st, m) n)).
    assert (Hstep : potential_step lib fs (st, m) n
                    = (st1, dd_append opt_eqb m (fingerprint lib fs (heap st) n) n)
                    /\ Heap.get (heap st1) n = fill_xxhash lib fs row
                    /\ (forall r, r <> n -> Heap.get (heap st1) r = Heap.get (heap st) r)
                    /\ Heap.next_ref (heap st1) = Heap.next_ref (heap st)
                    /\ Workspace.files (workspace st1)
                       = upserts (map (fill_xxhash lib fs) (filter lacks_xxhash [row]))
                           (Workspace.files (workspace st))
                    /\ StoreSpec.same_other_tables (workspace st) (workspace st1)).
    { unfold st1, potential_step, fingerprint, fill_xxhash, lacks_xxhash.
      cbn [filter]. rewrite Hrow.
      destruct (truthy (xxhash row)) eqn:T; cbn [negb fst map upserts fold_left heap workspace].
      - rewrite Hrow. repeat split; try reflexivity; try exact Hrow.
      - rewrite heap_get_set_same. cbn [xxhash set_xxhash]. rewrite ?T.
        split; [reflexivity|]. split; [reflexivity|].
        split; [intros r Hr; now apply heap_get_set_other|].
        split; [reflexivity|]. split; [apply write_back_files|].
        now repeat split. }
    destruct Hstep as [Estep [Hn [Hother [Hnext [Hfiles Hframe]]]]].
    rewrite Estep.
    assert (Hrest1 : map (Heap.get (heap st1)) (seq (S n) (List.length rows)) = rows).
    { rewrite <- Hrest at 2. apply map_ext_in. intros r Hr. apply in_seq in Hr.
      apply Hother. lia. }
    destruct (IH (S n) st1
                (dd_append opt_eqb m (fingerprint lib fs (heap st) n) n) Hrest1)
      as [st' [E' [Hheap' [Hnext' [Hfiles' Hframe']]]]].
    exists st'. split; [|split; [|split; [|split]]].
    + rewrite E'. f_equal.
      change (group_by (fingerprint lib fs (heap st)) (n :: seq (S n) (List.length rows)) m)
        with (group_by (fingerprint lib fs (heap st)) (seq (S n) (List.length rows))
                (dd_append opt_eqb m (fingerprint lib fs (heap st) n) n)).
      apply group_by_ext_in. intros r Hr. apply in_seq in Hr.
      unfold fingerprint. rewrite Hother by lia. reflexivity.
    + intros r. rewrite Hheap'.
      destruct (Nat.eq_dec r n) as [->|Hne].
      * assert (E1 : ((S n <=? n)%nat && (n <? S n + List.length rows)%nat) = false)
          by (apply andb_false_iff; left; apply Nat.leb_gt; lia).
        assert (E2 : ((n <=? n)%nat && (n <? n + S (List.length rows))%nat) = true)
          by (apply andb_true_iff; split;
              [apply Nat.leb_le | apply Nat.ltb_lt]; lia).
        now rewrite E1, E2, Hn, Hrow.
      * rewrite (Hother r Hne).
        replace ((S n <=? r)%nat && (r <? S n + List.length rows)%nat)
          with ((n <=? r)%nat && (r <? n + S (List.length rows))%nat);
          [reflexivity|].
        apply eq_true_iff_eq.
        rewrite !andb_true_iff, !Nat.leb_le, !Nat.ltb_lt. lia.
    + congruence.
    + rewrite Hfiles', Hfiles. unfold upserts. rewrite <- fold_left_app.
      f_equal. rewrite <- map_app. f_equal.
      change (row :: rows) with ([row] ++ rows). now rewrite filter_app.
    + destruct Hframe as [A [B [C D]]], Hframe' as [A' [B' [C' D']]].
      repeat split; congruence.
Qed.

Lemma alloc_all_spec (vs : list FileRecord) :
  forall refs h,
    let h' := snd (fold_left
                     (fun '(refs, h) v =>
                        let '(r, h') := Heap.alloc h v in (refs ++ [r], h'))
                     vs (refs, h)) in
    map (Heap.get h') (seq (Heap.next_ref h) (List.length vs)) = vs
    /\ (forall r, (r < Heap.next_ref h)%nat -> Heap.get h' r = Heap.get h r)
    /\ Heap.next_ref h' = (Heap.next_ref h + List.length vs)%nat.
Proof.
  induction vs as [|v vs IH]; intros refs h; cbv zeta;
    cbn [fold_left List.length seq map].
  - cbn [snd]. split; [reflexivity|]. split; [reflexivity|]. lia.
  - cbn [Heap.alloc].
    set (h1 := {| Heap.cell := fun r' => if Nat.eqb r' (Heap.next_ref h)
                                         then v else Heap.cell h r';
                  Heap.next_ref := S (Heap.next_ref h) |}).
    destruct (IH (refs ++ [Heap.next_ref h]) h1) as [Hmap [Hlow Hnext]].
    change (Heap.next_ref h1) with (S (Heap.next_ref h)) in Hmap, Hlow, Hnext.
    split; [|split].
    + f_equal; [|exact Hmap].
      rewrite Hlow by lia. unfold Heap.get, h1. cbn [Heap.cell].
      now rewrite Nat.eqb_refl.
    + intros r Hr. rewrite Hlow by lia. unfold Heap.get, h1. cbn [Heap.cell].
      assert (E : Nat.eqb r (Heap.next_ref h) = false) by (apply Nat.eqb_neq; lia).
      now rewrite E.
    + etransitivity; [exact Hnext | lia].
Qed.
End PotentialSpec.

Section PotentialGroups.
Import Deduper DeduperSpec ResolverSpec PipelineSpec.
Variables (lib : HashLib) (fs : FileSystem).

Lemma classes_ext_in (X : Type) (key key' : X -> option string) (g : list X) :
  (forall x, In x g -> key x = key' x) -> classes key g = classes key' g.
Proof.
  intros H. unfold classes. now rewrite (@group_by_ext_in X key key' g H).
Qed.

Lemma find_potential_duplicates_spec (st : state) :
  let rows := Workspace.get_files (workspace st) in
  let refs := fresh_refs (heap st) rows in
  let potential := find_potential_duplicates lib fs st in
  let after := heap (snd potential) in
  map (Heap.get after) refs = map (fill_xxhash lib fs) rows
  /\ (forall r, (r < Heap.next_ref (heap st))%nat ->
        Heap.get after r = Heap.get (heap st) r)
  /\ Heap.next_ref after = (Heap.next_ref (heap st) + List.length rows)%nat
  /\ fst potential = classes (fun r => xxhash (Heap.get after r)) refs
  /\ Workspace.files (workspace (snd potential))
     = upserts (map (fill_xxhash lib fs) (filter lacks_xxhash rows)) rows
  /\ StoreSpec.same_other_tables (workspace st) (workspace (snd potential)).
Proof.
  intros rows refs potential after.
  subst after potential. unfold find_potential_duplicates, Heap.alloc_all.
  fold rows.
  pose proof (alloc_all_refs rows [] (heap st)) as Hrefs.
  pose proof (alloc_all_spec rows [] (heap st)) as Halloc. cbv zeta in Halloc.
  destruct (fold_left
              (fun '(refs, h) v =>
                 let '(r, h') := Heap.alloc h v in (refs ++ [r], h'))
              rows ([], heap st))
    as [files h]. cbn [fst snd app] in Hrefs, Halloc. subst files.
  destruct Halloc as [Hmap [Hlow Hnext]].
  destruct (@potential_steps_spec lib fs rows (Heap.next_ref (heap st))
              {| heap := h; workspace := workspace st |} [] Hmap)
    as [st' [E [Hheap [Hnext' [Hfiles Hframe]]]]].
  rewrite E. cbn [fst snd heap workspace] in *.
  assert (Hin : forall r, In r refs ->
            Heap.get (heap st') r = fill_xxhash lib fs (Heap.get h r)).
  { intros r Hr. unfold refs, fresh_refs in Hr. apply in_seq in Hr.
    rewrite Hheap.
    assert (Erange : ((Heap.next_ref (heap st) <=? r)%nat
                      && (r <? Heap.next_ref (heap st) + List.length rows)%nat)
                     = true)
      by (apply andb_true_iff; split; [apply Nat.leb_le | apply Nat.ltb_lt]; lia).
    now rewrite Erange. }
  split; [|split; [|split; [|split; [|split]]]].
  - etransitivity; [apply map_ext_in; exact Hin|].
    rewrite <- (map_map (Heap.get h) (fill_xxhash lib fs)). f_equal. exact Hmap.
  - intros r Hr. rewrite Hheap.
    assert (Erange : ((Heap.next_ref (heap st) <=? r)%nat
                      && (r <? Heap.next_ref (heap st) + List.length rows)%nat)
                     = false)
      by (apply andb_false_iff; left; apply Nat.leb_gt; lia).
    rewrite Erange. now apply Hlow.
  - congruence.
  - fold (classes (fingerprint lib fs h) (seq (Heap.next_ref (heap st))
                                             (List.length rows))).
    apply classes_ext_in. intros r Hr.
    rewrite (Hin r Hr). symmetry. apply fill_xxhash_fingerprint.
  - exact Hfiles.
  - exact Hframe.
Qed.

Lemma upserts_fresh (rows : list FileRecord) :
  NoDup (map path rows) -> upserts rows [] = rows.
Proof.
  induction rows as [|a rows IH]; intros H; [reflexivity|].
  inversion H as [|? ? Hnot Hnd]; subst.
  change (upserts (a :: rows) []) with (upserts rows ([a] ++ [])).
  rewrite upserts_app, (IH Hnd). cbn [filter].
  assert (E : untouched rows a = true) by (now apply untouched_spec).
  now rewrite E.
Qed.
End PotentialGroups.

(** X6.  [find_potential_duplicates] makes one dict per stored row, holding
    the row with its fingerprint filled in: the stored [xxhash] when it is
    non-empty, else what [compute_xxhash] gives for the path.  The groups
    it returns are exactly the sets of dicts that share a fingerprint and
    have at least two members, each in store order; so every group has at
    least two members with one fingerprint, no dict is in two groups, and
    the dict objects that existed before the call are untouched. *)
Theorem find_potential_duplicates_groups_by_fingerprint
    (lib : HashLib) (fs : FileSystem) (st : Deduper.state) :
  let rows := Workspace.get_files (Deduper.workspace st) in
  let refs := seq (Heap.next_ref (Deduper.heap st)) (List.length rows) in
  let potential := Deduper.find_potential_duplicates lib fs st in
  let after := Deduper.heap (snd potential) in
  let fp := fun r => xxhash (Heap.get after r) in
  map (Heap.get after) refs
  = map (fun row => if truthy (xxhash row) then row
                    else set_xxhash row (Hasher.compute_xxhash lib fs (path row)))
      rows
  /\ (forall c, In c (fst potential) <->
        exists k, c = filter (fun r => opt_eqb (fp r) k) refs
                  /\ (2 <= List.length c)%nat)
  /\ (forall c, In c (fst potential) ->
        incl c refs /\ (2 <= List.length c)%nat
        /\ forall r1 r2, In r1 c -> In r2 c -> fp r1 = fp r2)
  /\ NoDup (List.concat (fst potential))
  /\ (forall r, (r < Heap.next_ref (Deduper.heap st))%nat ->
        Heap.get after r = Heap.get (Deduper.heap st) r).
Proof.
  intros rows refs potential after fp.
  destruct (find_potential_duplicates_spec lib fs st)
    as [Hmap [Hlow [_ [Hgroups _]]]].
  fold rows in Hmap, Hgroups. fold potential in Hmap, Hlow, Hgroups.
  fold after in Hmap, Hlow, Hgroups.
  change (ResolverSpec.fresh_refs (Deduper.heap st) rows) with refs in Hmap, Hgroups.
  assert (Hchar : forall c, In c (fst potential) <->
            exists k, c = filter (fun r => opt_eqb (fp r) k) refs
                      /\ (2 <= List.length c)%nat).
  { intros c. rewrite Hgroups. apply classes_in. }
  split; [exact Hmap|]. split; [exact Hchar|]. split; [|split].
  - intros c Hc. apply Hchar in Hc. destruct Hc as [k [-> Hlen]].
    split; [|split; [exact Hlen|]].
    + intros r Hr. apply filter_In in Hr. tauto.
    + intros r1 r2 H1 H2. apply filter_In in H1, H2.
      destruct H1 as [_ H1], H2 as [_ H2]. apply opt_eqb_eq in H1, H2. congruence.
  - apply find_potential_duplicates_disjoint.
  - exact Hlow.
Qed.

(** X7.  What [find_potential_duplicates] persists.  It writes back exactly
    the rows that had no fingerprint, each with the fingerprint computed
    for its path (null again when the file cannot be read) and every other
    field as stored.  With one row per path, the rows that had a
    fingerprint keep their place and content, the rewritten rows follow
    them in their old order, no row is added or lost, and the other tables
    are untouched. *)
Theorem find_potential_duplicates_persists_fingerprints
    (lib : HashLib) (fs : FileSystem) (st : Deduper.state) :
  let rows := Workspace.files (Deduper.workspace st) in
  let fill := fun row =>
    if truthy (xxhash row) then row
    else set_xxhash row (Hasher.compute_xxhash lib fs (path row)) in
  let after := Deduper.workspace (snd (Deduper.find_potential_duplicates lib fs st)) in
  Workspace.files after
  = fold_left Workspace.insert_or_replace_file
      (map fill (filter (fun row => negb (truthy (xxhash row))) rows)) rows
  /\ (NoDup (map path rows) ->
      Workspace.files after
      = filter (fun row => truthy (xxhash row)) rows
        ++ map fill (filter (fun row => negb (truthy (xxhash row))) rows))
  /\ (NoDup (map path rows) ->
      Permutation (map path (Workspace.files after)) (map path rows))
  /\ Workspace.workspace_config after
     = Workspace.workspace_config (Deduper.workspace st)
  /\ Workspace.workspace_directories after
     = Workspace.workspace_directories (Deduper.workspace st)
  /\ Workspace.workspace_metadata after
     = Workspace.workspace_metadata (Deduper.workspace st).
Proof.
  intros rows fill after.
  destruct (find_potential_duplicates_spec lib fs st)
    as [_ [_ [_ [_ [Hfiles [_ [Hc [Hm Hd]]]]]]]].
  fold after in Hfiles, Hc, Hm, Hd.
  change (Workspace.get_files (Deduper.workspace st)) with rows in Hfiles.
  assert (Hexact : NoDup (map path rows) ->
            Workspace.files after
            = filter (fun row => truthy (xxhash row)) rows
              ++ map fill (filter (fun row => negb (truthy (xxhash row))) rows)).
  { intros Hnd. rewrite Hfiles, upserts_decompose.
    set (written := map (ResolverSpec.fill_xxhash lib fs)
                      (filter ResolverSpec.lacks_xxhash rows)).
    assert (Hpaths : map path written
                     = map path (filter ResolverSpec.lacks_xxhash rows)).
    { unfold written. rewrite map_map. apply map_ext.
      intros row. apply fill_xxhash_path. }
    f_equal.
    - apply filter_ext_in. intros row Hrow.
      destruct (truthy (xxhash row)) eqn:T.
      + apply untouched_spec. rewrite Hpaths. intros Hin.
        apply in_map_iff in Hin. destruct Hin as [row' [Hp Hrow']].
        apply filter_In in Hrow'. destruct Hrow' as [Hrow' Hlack].
        assert (row' = row) by (now apply (@nodup_paths_unique rows)).
        subst row'. unfold ResolverSpec.lacks_xxhash in Hlack.
        rewrite T in Hlack. discriminate.
      + destruct (PipelineSpec.untouched written row) eqn:U; [|reflexivity].
        apply untouched_spec in U. elim U. rewrite Hpaths.
        apply in_map, filter_In. split; [assumption|].
        unfold ResolverSpec.lacks_xxhash. now rewrite T.
    - etransitivity;
        [apply upserts_fresh; rewrite Hpaths; now apply nodup_map_filter
        | reflexivity]. }
  split; [exact Hfiles|]. split; [exact Hexact|]. split; [|now repeat split].
  intros Hnd. rewrite (Hexact Hnd), map_app, map_map.
  assert (Hfill : map (fun row => path (fill row))
                    (filter (fun row => negb (truthy (xxhash row))) rows)
                  = map path (filter (fun row => negb (truthy (xxhash row))) rows)).
  { apply map_ext. intros row. apply fill_xxhash_path. }
  rewrite Hfill, <- map_app. apply Permutation_map.
  clear. induction rows as [|row rows IH]; cbn [filter]; [constructor|].
  destruct (truthy (xxhash row)); cbn [negb app].
  - now constructor.
  - apply Permutation_sym, Permutation_cons_app, Permutation_sym, IH.
Qed.


(** ** Phase 2 of the resolver and the whole of find_duplicates *)

Section ConfirmFrame.
Import Deduper DeduperSpec ResolverSpec.
Variables (lib : HashLib) (fs : FileSystem).

Lemma fold_left_invariant_in (A B : Type) (f : A -> B -> A) (P : A -> Prop)
    (l : list B) :
  (forall a b, In b l -> P a -> P (f a b)) ->
  forall a, P a -> P (fold_left f l a).
Proof.
  induction l as [|b l IH]; intros Hstep a Ha; cbn [fold_left]; [assumption|].
  apply IH.
  - intros a' b' Hb'. apply Hstep. now right.
  - apply Hstep; [now left | assumption].
Qed.

Lemma same_but_md5_refl (a : FileRecord) : same_but_md5 a a.
Proof. now repeat split. Qed.

Lemma same_but_md5_trans (a b c : FileRecord) :
  same_but_md5 a b -> same_but_md5 b c -> same_but_md5 a c.
Proof.
  unfold same_but_md5. intros [A1 [A2 [A3 [A4 [A5 A6]]]]] [B1 [B2 [B3 [B4 [B5 B6]]]]].
  repeat split; congruence.
Qed.

Lemma same_paths_insert (rows0 rows : list FileRecord) (file : FileRecord) :
  In (path file) (map path rows0) ->
  same_paths rows0 rows ->
  same_paths rows0 (Workspace.insert_or_replace_file rows file).
Proof.
  intros Hin [Hnd Hsame]. split; [now apply insert_or_replace_file_nodup|].
  intros p. rewrite <- Hsame. split.
  - intros Hp. apply in_map_iff in Hp. destruct Hp as [r [<- Hr]].
    apply insert_or_replace_file_in in Hr. destruct Hr as [->|[Hr _]].
    + now apply Hsame.
    + now apply in_map.
  - intros Hp. destruct (string_dec p (path file)) as [->|Hne].
    + apply in_map. apply insert_or_replace_file_in. now left.
    + apply in_map_iff in Hp. destruct Hp as [r [<- Hr]].
      apply in_map. apply insert_or_replace_file_in. right. now split.
Qed.

Lemma md5_filled_refl (a : FileRecord) : md5_filled lib fs a a.
Proof. split; [apply same_but_md5_refl | now left]. Qed.

Lemma md5_filled_trans (a b c : FileRecord) :
  md5_filled lib fs a b -> md5_filled lib fs b c -> md5_filled lib fs a c.
Proof.
  intros [Hab Mab] [Hbc Mbc]. split; [eapply same_but_md5_trans; eassumption|].
  destruct Hab as [Hp _].
  destruct Mbc as [Mbc|[Tb Mbc]], Mab as [Mab|[Ta Mab]].
  - left. congruence.
  - right. split; congruence.
  - right. split; congruence.
  - right. split; congruence.
Qed.

Lemma confirm_step_keeps (st0 : state) (visited : list Heap.ref)
    (acc : state * list (option string * list Heap.ref)) (r : Heap.ref) :
  In r visited ->
  confirm_keeps lib fs st0 visited (fst acc) ->
  confirm_keeps lib fs st0 visited (fst (confirm_step lib fs acc r)).
Proof.
  destruct acc as [st m]. unfold confirm_step. cbn [fst].
  intros Hr [Hsame [Hout [Hnext Hrows]]].
  destruct (truthy (md5 (Heap.get (heap st) r))) eqn:T; cbn [negb fst];
    [exact (conj Hsame (conj Hout (conj Hnext Hrows)))|].
  set (v := set_md5 (Heap.get (heap st) r)
              (Hasher.compute_md5 lib fs (path (Heap.get (heap st) r)))).
  assert (Hv : md5_filled lib fs (Heap.get (heap st0) r) v).
  { apply (md5_filled_trans (Hsame r)). unfold v.
    split; [now repeat split|]. right. now split. }
  unfold confirm_keeps. rewrite heap_get_set_same. fold v. cbn [heap workspace].
  split; [|split; [|split]].
  - intros r'. destruct (Nat.eq_dec r' r) as [->|Hne].
    + rewrite heap_get_set_same. exact Hv.
    + rewrite heap_get_set_other by assumption. apply Hsame.
  - intros r' Hr'. rewrite heap_get_set_other; [now apply Hout|].
    intros ->. contradiction.
  - exact Hnext.
  - intros Hsync Hnd. destruct (Hrows Hsync Hnd) as [Hpaths Hfrom].
    rewrite write_back_files. split.
    + apply same_paths_insert; [|assumption].
      destruct Hv as [[Hp _] _]. rewrite Hp. apply in_map. now apply Hsync.
    + intros row' Hrow'. apply insert_or_replace_file_in in Hrow'.
      destruct Hrow' as [->|[Hrow' _]].
      * exists (Heap.get (heap st0) r). split; [now apply Hsync | exact Hv].
      * now apply Hfrom.
Qed.

Lemma confirm_keeps_refl (st : state) (visited : list Heap.ref) :
  confirm_keeps lib fs st visited st.
Proof.
  split; [intros r; apply md5_filled_refl|]. split; [reflexivity|].
  split; [reflexivity|].
  intros _ Hnd. split; [split; [assumption | reflexivity]|].
  intros row' Hrow'. exists row'. split; [assumption | apply md5_filled_refl].
Qed.

Lemma confirm_group_keeps (st0 : state) (visited : list Heap.ref)
    (acc : state * list (list Heap.ref)) (g : list Heap.ref) :
  incl g visited ->
  confirm_keeps lib fs st0 visited (fst acc) ->
  confirm_keeps lib fs st0 visited (fst (confirm_group lib fs acc g)).
Proof.
  destruct acc as [st confirmed]. unfold confirm_group. cbn [fst]. intros Hg H.
  pose proof (@fold_left_invariant_in _ _ (confirm_step lib fs)
                (fun acc => confirm_keeps lib fs st0 visited (fst acc)) g
                (fun a b Hb => @confirm_step_keeps st0 visited a b (Hg b Hb))
                (st, []) H) as Hfold.
  destruct (fold_left (confirm_step lib fs) g (st, [])) as [st' m].
  exact Hfold.
Qed.

Lemma confirm_duplicates_keeps (st : state) (groups : list (list Heap.ref)) :
  confirm_keeps lib fs st (List.concat groups)
    (snd (confirm_duplicates lib fs st groups)).
Proof.
  unfold confirm_duplicates.
  pose proof (@fold_left_invariant_in _ _ (confirm_group lib fs)
                (fun acc => confirm_keeps lib fs st (List.concat groups) (fst acc))
                groups
                (fun a g Hg =>
                   @confirm_group_keeps st (List.concat groups) a g
                     (fun r Hr => proj2 (in_concat groups r)
                                    (ex_intro _ g (conj Hg Hr))))
                (st, []) (confirm_keeps_refl st _)) as Hfold.
  destruct (fold_left (confirm_group lib fs) groups (st, [])) as [st' c].
  exact Hfold.
Qed.

(** Phase 2 keeps the dicts and the table in step, when distinct dicts
    have distinct paths. *)
Lemma confirm_step_sync (refs : list Heap.ref)
    (acc : state * list (option string * list Heap.ref)) (r : Heap.ref) :
  In r refs ->
  (forall r1 r2, In r1 refs -> In r2 refs ->
     path (Heap.get (heap (fst acc)) r1) = path (Heap.get (heap (fst acc)) r2) ->
     r1 = r2) ->
  in_sync refs (fst acc) ->
  in_sync refs (fst (confirm_step lib fs acc r)).
Proof.
  destruct acc as [st m]. unfold confirm_step. cbn [fst]. intros Hr Hinj Hsync.
  destruct (truthy (md5 (Heap.get (heap st) r))) eqn:T; cbn [negb fst];
    [exact Hsync|].
  unfold in_sync. rewrite heap_get_set_same. cbn [heap workspace].
  intros r' Hr'. rewrite write_back_files. apply insert_or_replace_file_in.
  destruct (Nat.eq_dec r' r) as [->|Hne].
  - left. now rewrite heap_get_set_same.
  - right. rewrite heap_get_set_other by assumption.
    split; [now apply Hsync|]. cbn [path set_md5]. intros Hp.
    apply Hne. now apply Hinj.
Qed.

Lemma confirm_duplicates_sync (refs : list Heap.ref) (st : state)
    (groups : list (list Heap.ref)) :
  incl (List.concat groups) refs ->
  (forall r1 r2, In r1 refs -> In r2 refs ->
     path (Heap.get (heap st) r1) = path (Heap.get (heap st) r2) -> r1 = r2) ->
  in_sync refs st ->
  in_sync refs (snd (confirm_duplicates lib fs st groups)).
Proof.
  intros Hsub Hinj Hsync.
  set (P := fun s : state =>
              confirm_keeps lib fs st (List.concat groups) s /\ in_sync refs s).
  assert (Hstep : forall acc r, In r (List.concat groups) ->
            P (fst acc) -> P (fst (confirm_step lib fs acc r))).
  { intros acc r Hr [Hk Hs]. split; [now apply confirm_step_keeps|].
    apply confirm_step_sync; [now apply Hsub| |assumption].
    intros r1 r2 H1 H2. destruct Hk as [Hk _].
    destruct (Hk r1) as [[E1 _] _], (Hk r2) as [[E2 _] _].
    rewrite E1, E2. now apply Hinj. }
  assert (Hgroup : forall acc g, In g groups ->
            P (fst acc) -> P (fst (confirm_group lib fs acc g))).
  { intros [s confirmed] g Hg HP. unfold confirm_group. cbn [fst] in *.
    pose proof (@fold_left_invariant_in _ _ (confirm_step lib fs)
                  (fun acc => P (fst acc)) g
                  (fun a b Hb => Hstep a b
                     (proj2 (in_concat groups b) (ex_intro _ g (conj Hg Hb))))
                  (s, []) HP) as Hfold.
    destruct (fold_left (confirm_step lib fs) g (s, [])) as [s' m].
    exact Hfold. }
  unfold confirm_duplicates.
  pose proof (@fold_left_invariant_in _ _ (confirm_group lib fs)
                (fun acc => P (fst acc)) groups Hgroup
                (st, []) (conj (confirm_keeps_refl st _) Hsync)) as Hfold.
  destruct (fold_left (confirm_group lib fs) groups (st, [])) as [s' c].
  exact (proj2 Hfold).
Qed.
End ConfirmFrame.

Section ResolverPhases.
Import Deduper DeduperSpec ResolverSpec PipelineSpec.
Variables (lib : HashLib) (fs : FileSystem).

Lemma same_but_md5_eq (a b : FileRecord) :
  same_but_md5 a b -> md5 b = md5 a -> b = a.
Proof.
  destruct a, b. unfold same_but_md5. cbn.
  intros [-> [-> [-> [-> [-> ->]]]]] ->. reflexivity.
Qed.

Lemma nodup_map_injective (A B : Type) (f : A -> B) (l : list A) (a b : A) :
  NoDup (map f l) -> In a l -> In b l -> f a = f b -> a = b.
Proof.
  induction l as [|x l IH]; cbn [map In]; intros H Ha Hb E; [destruct Ha|].
  inversion H as [|? ? Hnot Hnd]; subst.
  destruct Ha as [->|Ha], Hb as [->|Hb].
  - reflexivity.
  - exfalso. apply Hnot. rewrite E. now apply in_map.
  - exfalso. apply Hnot. rewrite <- E. now apply in_map.
  - now apply IH.
Qed.

Lemma two_members_length (A : Type) (l : list A) (a b : A) :
  In a l -> In b l -> a <> b -> (2 <= List.length l)%nat.
Proof.
  destruct l as [|x [|y l]]; cbn [In List.length]; intros Ha Hb Hne; try lia.
  destruct Ha as [Ha|[]], Hb as [Hb|[]]. congruence.
Qed.

Lemma nodup_app_disjoint (A : Type) (l1 l2 : list A) (a : A) :
  NoDup (l1 ++ l2) -> In a l1 -> ~ In a l2.
Proof.
  induction l1 as [|x l1 IH]; cbn [app In]; intros H Ha; [destruct Ha|].
  inversion H as [|? ? Hnot Hnd]; subst.
  destruct Ha as [->|Ha]; [|now apply IH].
  intros Hin. apply Hnot. apply in_or_app. now right.
Qed.

Lemma group_by_concat (X : Type) (key : X -> option string) (l : list X) :
  forall d,
    Permutation (List.concat (dict_values (group_by key l d)))
                (List.concat (dict_values d) ++ l).
Proof.
  induction l as [|x l IH]; intros d; cbn [group_by fold_left].
  - now rewrite app_nil_r.
  - eapply Permutation_trans; [apply IH|].
    eapply Permutation_trans; [apply Permutation_app_tail, dd_append_concat|].
    cbn [app]. apply Permutation_middle.
Qed.

Lemma nodup_concat_classes (X : Type) (key : X -> option string) (g : list X) :
  NoDup g -> NoDup (List.concat (classes key g)).
Proof.
  intros H. unfold classes. apply nodup_concat_filter.
  eapply Permutation_NoDup; [apply Permutation_sym, group_by_concat|].
  exact H.
Qed.

Lemma classes_member (X : Type) (key : X -> option string) (g c : list X) (x : X) :
  In c (classes key g) -> In x c -> In x g.
Proof.
  intros Hc Hx. apply classes_in in Hc. destruct Hc as [k [-> _]].
  apply filter_In in Hx. tauto.
Qed.

Lemma nodup_concat_flat_map_classes (X : Type) (key : X -> option string)
    (groups : list (list X)) :
  NoDup (List.concat groups) ->
  NoDup (List.concat (flat_map (classes key) groups)).
Proof.
  induction groups as [|g groups IH]; cbn [flat_map List.concat]; intros H;
    [constructor|].
  rewrite concat_app. apply NoDup_app.
  - apply nodup_concat_classes. eapply NoDup_app_remove_r. exact H.
  - apply IH. eapply NoDup_app_remove_l. exact H.
  - intros x Hx Hx'. apply in_concat in Hx, Hx'.
    destruct Hx as [c [Hc Hxc]], Hx' as [c' [Hc' Hxc']].
    apply in_flat_map in Hc'. destruct Hc' as [g' [Hg' Hc']].
    apply (@nodup_app_disjoint _ g (List.concat groups) x H).
    + eapply classes_member; eassumption.
    + apply in_concat. exists g'. split; [assumption|].
      eapply classes_member; eassumption.
Qed.

Lemma find_duplicates_phases (h : Heap.t) (e : DedupEngine.t) :
  DedupEngine.find_duplicates lib fs h e
  = (fst (confirm_duplicates lib fs
            (snd (find_potential_duplicates lib fs
                    {| heap := h; workspace := DedupEngine.workspace e |}))
            (fst (find_potential_duplicates lib fs
                    {| heap := h; workspace := DedupEngine.workspace e |}))),
     heap (snd (confirm_duplicates lib fs
            (snd (find_potential_duplicates lib fs
                    {| heap := h; workspace := DedupEngine.workspace e |}))
            (fst (find_potential_duplicates lib fs
                    {| heap := h; workspace := DedupEngine.workspace e |})))),
     {| DedupEngine.workspace :=
          workspace (snd (confirm_duplicates lib fs
            (snd (find_potential_duplicates lib fs
                    {| heap := h; workspace := DedupEngine.workspace e |}))
            (fst (find_potential_duplicates lib fs
                    {| heap := h; workspace := DedupEngine.workspace e |}))));
        DedupEngine.directories := DedupEngine.directories e |}).
Proof.
  unfold DedupEngine.find_duplicates.
  destruct (find_potential_duplicates lib fs
              {| heap := h; workspace := DedupEngine.workspace e |})
    as [groups st1]. cbn [fst snd].
  now destruct (confirm_duplicates lib fs st1 groups) as [confirmed st2].
Qed.

(** The dicts of the potential groups are among those made for the rows. *)
Lemma potential_groups_fresh (st : state) :
  incl (List.concat (fst (find_potential_duplicates lib fs st)))
       (fresh_refs (heap st) (Workspace.get_files (workspace st))).
Proof.
  destruct (find_potential_duplicates_spec lib fs st)
    as [_ [_ [_ [Hgroups _]]]].
  intros r Hr. apply in_concat in Hr. destruct Hr as [g [Hg Hr]].
  rewrite Hgroups in Hg. eapply classes_member; eassumption.
Qed.

Lemma potential_dict_of_row (st : state) (i : nat) (row : FileRecord) :
  nth_error (Workspace.get_files (workspace st)) i = Some row ->
  Heap.get (heap (snd (find_potential_duplicates lib fs st)))
    (Heap.next_ref (heap st) + i)%nat
  = fill_xxhash lib fs row.
Proof.
  intros Hi.
  destruct (find_potential_duplicates_spec lib fs st) as [Hmap _].
  assert (Hlt : (i < List.length (Workspace.get_files (workspace st)))%nat)
    by (apply nth_error_Some; congruence).
  pose proof (f_equal (fun l => nth_error l i) Hmap) as E. cbv beta in E.
  rewrite !nth_error_map in E. unfold fresh_refs in E.
  rewrite nth_error_seq, Hi in E.
  apply Nat.ltb_lt in Hlt. rewrite Hlt in E. cbn [option_map] in E.
  now inversion E.
Qed.

Lemma fresh_ref_row (h : Heap.t) (rows : list FileRecord) (r : Heap.ref) :
  In r (fresh_refs h rows) ->
  exists i row, r = (Heap.next_ref h + i)%nat /\ nth_error rows i = Some row.
Proof.
  unfold fresh_refs. intros Hr. apply in_seq in Hr.
  exists (r - Heap.next_ref h)%nat.
  destruct (nth_error rows (r - Heap.next_ref h)) as [row|] eqn:E.
  - exists row. split; [lia | reflexivity].
  - apply nth_error_None in E. lia.
Qed.

Lemma row_fresh_ref (h : Heap.t) (rows : list FileRecord) (i : nat)
    (row : FileRecord) :
  nth_error rows i = Some row -> In (Heap.next_ref h + i)%nat (fresh_refs h rows).
Proof.
  intros Hi. unfold fresh_refs. apply in_seq.
  assert (i < List.length rows)%nat by (apply nth_error_Some; congruence). lia.
Qed.

(** The confirmed groups in terms of the dicts as both phases leave them. *)
Lemma resolver_groups (st : state) (c : list Heap.ref) :
  In c (fst (confirm_duplicates lib fs
               (snd (find_potential_duplicates lib fs st))
               (fst (find_potential_duplicates lib fs st))))
  <-> exists kx km,
        c = filter
              (fun r =>
                 opt_eqb
                   (md5 (Heap.get
                           (heap (snd (confirm_duplicates lib fs
                                         (snd (find_potential_duplicates lib fs st))
                                         (fst (find_potential_duplicates lib fs st)))))
                           r)) km)
              (filter
                 (fun r =>
                    opt_eqb
                      (xxhash (Heap.get
                                 (heap (snd (confirm_duplicates lib fs
                                               (snd (find_potential_duplicates lib fs st))
                                               (fst (find_potential_duplicates lib fs st)))))
                                 r)) kx)
                 (fresh_refs (heap st) (Workspace.get_files (workspace st))))
        /\ (2 <= List.length c)%nat.
Proof.
  destruct (find_potential_duplicates_spec lib fs st)
    as [_ [_ [_ [Hgroups _]]]].
  set (pot := find_potential_duplicates lib fs st) in *.
  set (refs := fresh_refs (heap st) (Workspace.get_files (workspace st))) in *.
  destruct (confirm_duplicates_spec lib fs (snd pot) (fst pot)) as [Hconf Hmd5].
  destruct (confirm_duplicates_keeps lib fs (snd pot) (fst pot)) as [Hkeep _].
  set (conf := confirm_duplicates lib fs (snd pot) (fst pot)) in *.
  assert (Hxx : forall kx,
            filter (fun r => opt_eqb (xxhash (Heap.get (heap (snd conf)) r)) kx) refs
            = members (fun r => xxhash (Heap.get (heap (snd pot)) r)) kx refs).
  { intros kx. unfold members. apply filter_ext. intros r.
    destruct (Hkeep r) as [[_ [_ [_ [E _]]]] _]. now rewrite E. }
  assert (Hmm : forall g km, In g (fst pot) ->
            filter (fun r => opt_eqb (md5 (Heap.get (heap (snd conf)) r)) km) g
            = members (strong_hash lib fs (heap (snd pot))) km g).
  { intros g km Hg. unfold members. apply filter_ext_in. intros r Hr.
    now rewrite (Hmd5 g r Hg Hr). }
  rewrite Hconf, in_flat_map. split.
  - intros [g [Hg Hc]]. pose proof Hg as Hg'. rewrite Hgroups in Hg'.
    apply classes_in in Hg'. destruct Hg' as [kx [Eg _]].
    apply classes_in in Hc. destruct Hc as [km [Ec Hlen]].
    exists kx, km. split; [|exact Hlen].
    rewrite Hxx, <- Eg, Hmm by assumption. exact Ec.
  - intros [kx [km [Ec Hlen]]]. rewrite Hxx in Ec.
    set (g := members (fun r => xxhash (Heap.get (heap (snd pot)) r)) kx refs) in *.
    assert (Hg : In g (fst pot)).
    { rewrite Hgroups. apply classes_in. exists kx. split; [reflexivity|].
      rewrite Ec in Hlen.
      pose proof (filter_length_le
                    (fun r => opt_eqb (md5 (Heap.get (heap (snd conf)) r)) km) g).
      lia. }
    exists g. split; [exact Hg|].
    apply classes_in. exists km. split; [|exact Hlen].
    rewrite Ec. now apply Hmm.
Qed.

(** With one row per path, phase 1 leaves the dicts and the table in step. *)
Lemma potential_sync (st : state) :
  NoDup (map path (Workspace.get_files (workspace st))) ->
  in_sync (fresh_refs (heap st) (Workspace.get_files (workspace st)))
          (snd (find_potential_duplicates lib fs st))
  /\ same_paths (Workspace.get_files (workspace st))
                (Workspace.files (workspace (snd (find_potential_duplicates lib fs st)))).
Proof.
  intros Hnd.
  destruct (find_potential_duplicates_spec lib fs st)
    as [_ [_ [_ [_ [Hfiles _]]]]].
  set (rows := Workspace.get_files (workspace st)) in *.
  set (written := map (fill_xxhash lib fs) (filter lacks_xxhash rows)) in *.
  assert (Hpaths : map path written = map path (filter lacks_xxhash rows)).
  { unfold written. rewrite map_map. apply map_ext.
    intros row. apply fill_xxhash_path. }
  assert (Hin : forall row, In row rows ->
            In (fill_xxhash lib fs row) (upserts written rows)).
  { intros row Hrow. rewrite upserts_decompose. apply in_or_app.
    destruct (truthy (xxhash row)) eqn:T.
    - left. unfold fill_xxhash. rewrite T. apply filter_In.
      split; [assumption|]. apply untouched_spec. rewrite Hpaths. intros Hp.
      apply in_map_iff in Hp. destruct Hp as [row' [Hp Hrow']].
      apply filter_In in Hrow'. destruct Hrow' as [Hrow' Hlack].
      assert (row' = row) by (now apply (@nodup_paths_unique rows)).
      subst row'. unfold lacks_xxhash in Hlack. rewrite T in Hlack. discriminate.
    - right. rewrite upserts_fresh.
      + unfold written. apply in_map. apply filter_In. split; [assumption|].
        unfold lacks_xxhash. now rewrite T.
      + rewrite Hpaths. now apply nodup_map_filter. }
  split.
  - intros r Hr. apply fresh_ref_row in Hr. destruct Hr as [i [row [-> Hi]]].
    rewrite (potential_dict_of_row st i Hi), Hfiles.
    apply Hin. eapply nth_error_In; eassumption.
  - rewrite Hfiles. split; [now apply upserts_nodup|].
    intros p. split.
    + intros Hp. apply in_map_iff in Hp. destruct Hp as [row' [<- Hrow']].
      apply upserts_in_inv in Hrow'. destruct Hrow' as [Hw|Hr]; [|now apply in_map].
      unfold written in Hw. apply in_map_iff in Hw. destruct Hw as [row [<- Hrow]].
      rewrite fill_xxhash_path. apply in_map. apply filter_In in Hrow. tauto.
    + intros Hp. apply upserts_paths. now left.
Qed.

Lemma same_paths_trans (rows0 rows1 rows2 : list FileRecord) :
  same_paths rows0 rows1 -> same_paths rows1 rows2 -> same_paths rows0 rows2.
Proof.
  intros [_ H01] [Hnd H12]. split; [assumption|].
  intros p. now rewrite H12, H01.
Qed.
End ResolverPhases.

Section ConfirmIdle.
Import Deduper DeduperSpec ResolverSpec.
Variables (lib : HashLib) (fs : FileSystem).

Lemma same_but_md5_set (a b : FileRecord) (v : option string) :
  same_but_md5 a b -> md5 b = v -> b = set_md5 a v.
Proof.
  destruct a, b. unfold same_but_md5, set_md5. cbn.
  intros [-> [-> [-> [-> [-> ->]]]]] ->. reflexivity.
Qed.

Lemma filter_filter_andb (A : Type) (f g : A -> bool) (l : list A) :
  filter g (filter f l) = filter (fun x => f x && g x) l.
Proof.
  induction l as [|x l IH]; cbn [filter]; [reflexivity|].
  destruct (f x); cbn [filter andb]; [|assumption].
  destruct (g x); now rewrite IH.
Qed.

Lemma flat_map_ext_in (A B : Type) (f g : A -> list B) (l : list A) :
  (forall x, In x l -> f x = g x) -> flat_map f l = flat_map g l.
Proof.
  induction l as [|x l IH]; intros H; cbn [flat_map]; [reflexivity|].
  rewrite (H x) by (now left). f_equal. apply IH. intros y Hy. apply H. now right.
Qed.

(** Phase 2 over dicts that all bear an md5 leaves the state as it is. *)
Lemma confirm_duplicates_idle (st : state) (groups : list (list Heap.ref)) :
  (forall r, In r (List.concat groups) ->
     truthy (md5 (Heap.get (heap st) r)) = true) ->
  snd (confirm_duplicates lib fs st groups) = st.
Proof.
  intros Hall.
  assert (Hstep : forall acc r, In r (List.concat groups) ->
            fst acc = st -> fst (confirm_step lib fs acc r) = st).
  { intros [s m] r Hr E. cbn [fst] in E. subst s. unfold confirm_step.
    now rewrite (Hall r Hr). }
  assert (Hgroup : forall acc g, In g groups ->
            fst acc = st -> fst (confirm_group lib fs acc g) = st).
  { intros [s confirmed] g Hg E. unfold confirm_group. cbn [fst] in *.
    pose proof (@fold_left_invariant_in _ _ (confirm_step lib fs)
                  (fun acc => fst acc = st) g
                  (fun a b Hb => Hstep a b
                     (proj2 (in_concat groups b) (ex_intro _ g (conj Hg Hb))))
                  (s, []) E) as Hfold.
    destruct (fold_left (confirm_step lib fs) g (s, [])) as [s' m].
    exact Hfold. }
  unfold confirm_duplicates.
  pose proof (@fold_left_invariant_in _ _ (confirm_group lib fs)
                (fun acc => fst acc = st) groups Hgroup (st, []) eq_refl) as Hfold.
  destruct (fold_left (confirm_group lib fs) groups (st, [])) as [s' c].
  exact Hfold.
Qed.
End ConfirmIdle.

(** X8.  [confirm_duplicates] changes nothing of a dict but an empty [md5]
    field: a dict that bears an md5, and a dict of no group, is left as it
    is; a member of a group with no md5 gets what [compute_md5] gives for
    its path, null when the file cannot be read.  No dict is created, and
    the tables other than [files] are untouched. *)
Theorem confirm_duplicates_fills_empty_md5_only
    (lib : HashLib) (fs : FileSystem) (st : Deduper.state)
    (groups : list (list Heap.ref)) :
  let before := Deduper.heap st in
  let out := snd (Deduper.confirm_duplicates lib fs st groups) in
  let after := Deduper.heap out in
  (forall r,
     let a := Heap.get before r in
     let b := Heap.get after r in
     path b = path a /\ size b = size a /\ modified b = modified a
     /\ xxhash b = xxhash a /\ sha1 b = sha1 a /\ status b = status a)
  /\ (forall r, ~ In r (List.concat groups) ->
        Heap.get after r = Heap.get before r)
  /\ (forall r, truthy (md5 (Heap.get before r)) = true ->
        Heap.get after r = Heap.get before r)
  /\ (forall r, In r (List.concat groups) ->
        truthy (md5 (Heap.get before r)) = false ->
        Heap.get after r
        = set_md5 (Heap.get before r)
            (Hasher.compute_md5 lib fs (path (Heap.get before r))))
  /\ Heap.next_ref after = Heap.next_ref before
  /\ Workspace.workspace_config (Deduper.workspace out)
     = Workspace.workspace_config (Deduper.workspace st)
  /\ Workspace.workspace_directories (Deduper.workspace out)
     = Workspace.workspace_directories (Deduper.workspace st)
  /\ Workspace.workspace_metadata (Deduper.workspace out)
     = Workspace.workspace_metadata (Deduper.workspace st).
Proof.
  intros before out after.
  destruct (confirm_duplicates_keeps lib fs st groups) as [Hkeep [Hout [Hnext _]]].
  destruct (confirm_duplicates_spec lib fs st groups) as [_ Hmd5].
  destruct (confirm_duplicates_frame lib fs st groups) as [_ [Hc [Hm Hd]]].
  fold out in Hkeep, Hout, Hnext, Hmd5, Hc, Hm, Hd.
  fold after in Hkeep, Hout, Hnext, Hmd5. fold before in Hkeep, Hout, Hnext.
  split; [|split; [|split; [|split; [|split; [|split; [|split]]]]]].
  - intros r. exact (proj1 (Hkeep r)).
  - exact Hout.
  - intros r T. destruct (Hkeep r) as [Hsame [E|[F _]]]; [|congruence].
    rewrite (same_but_md5_set Hsame E). unfold set_md5.
    now destruct (Heap.get before r).
  - intros r Hr F. apply in_concat in Hr. destruct Hr as [g [Hg Hr]].
    apply same_but_md5_set; [exact (proj1 (Hkeep r))|].
    rewrite (Hmd5 g r Hg Hr). unfold DeduperSpec.strong_hash.
    fold before. now rewrite F.
  - exact Hnext.
  - exact Hc.
  - exact Hd.
  - exact Hm.
Qed.

(** X9.  [confirm_duplicates] trusts an md5 that a dict already bears: when
    every member of the groups has one, no file is read and nothing is
    written; the state is returned as it was and the confirmed groups are
    the classes of each group under the md5 held, whatever the files
    contain by now. *)
Theorem confirm_duplicates_trusts_stored_md5
    (lib : HashLib) (fs : FileSystem) (st : Deduper.state)
    (groups : list (list Heap.ref)) :
  (forall r, In r (List.concat groups) ->
     truthy (md5 (Heap.get (Deduper.heap st) r)) = true) ->
  Deduper.confirm_duplicates lib fs st groups
  = (flat_map
       (DeduperSpec.classes (fun r => md5 (Heap.get (Deduper.heap st) r)))
       groups,
     st)
  /\ forall (lib' : HashLib) (fs' : FileSystem),
       Deduper.confirm_duplicates lib' fs' st groups
       = Deduper.confirm_duplicates lib fs st groups.
Proof.
  intros Hall.
  assert (E : forall (lib0 : HashLib) (fs0 : FileSystem),
            Deduper.confirm_duplicates lib0 fs0 st groups
            = (flat_map
                 (DeduperSpec.classes
                    (fun r => md5 (Heap.get (Deduper.heap st) r)))
                 groups,
               st)).
  { intros lib0 fs0.
    rewrite (surjective_pairing (Deduper.confirm_duplicates lib0 fs0 st groups)).
    rewrite (confirm_duplicates_idle lib0 fs0 st groups Hall).
    rewrite (proj1 (confirm_duplicates_spec lib0 fs0 st groups)).
    f_equal. apply flat_map_ext_in. intros g Hg.
    apply classes_ext_in. intros r Hr. unfold DeduperSpec.strong_hash.
    rewrite Hall; [reflexivity|]. apply in_concat. now exists g. }
  split; [apply E|]. intros lib' fs'. now rewrite !E.
Qed.

Lemma confirm_duplicates_trusts_stored_md5_witness :
  let st := {| Deduper.heap := Examples.heap_of Examples.stale_md5;
               Deduper.workspace := Examples.workspace_of Examples.stale_md5 |} in
  Deduper.confirm_duplicates Examples.tagged_lib Examples.tree_A st [[0; 1]%nat]
  = ([[0; 1]%nat], st).
Proof.
  intros st.
  refine (eq_trans
            (proj1 (confirm_duplicates_trusts_stored_md5
                      Examples.tagged_lib Examples.tree_A st [[0; 1]%nat] _))
            _).
  - intros r [<-|[<-|[]]]; reflexivity.
  - reflexivity.
Defined.

(** X10.  [find_duplicates] makes one dict per stored row and reports the
    sets of these dicts that share both hashes: a confirmed group is
    exactly a set of at least two dicts with one xxhash and one md5 as the
    call leaves them, so two distinct dicts are in one group if and only if
    both fields agree, and no dict is in two groups.  A dict keeps the
    path, size, time, sha1 and status of its row; its xxhash is the stored
    one, else what [compute_xxhash] gives; its md5 is the stored one, else
    possibly what [compute_md5] gives.  The dicts that existed before, the
    roots and the tables other than [files] are untouched. *)
Theorem find_duplicates_reports_equal_hash_groups
    (lib : HashLib) (fs : FileSystem) (h : Heap.t) (e : DedupEngine.t) :
  let rows := DedupEngine.get_all_files e in
  let refs := seq (Heap.next_ref h) (List.length rows) in
  let out := DedupEngine.find_duplicates lib fs h e in
  let confirmed := fst (fst out) in
  let after := snd (fst out) in
  (forall i row, nth_error rows i = Some row ->
     let d := Heap.get after (Heap.next_ref h + i)%nat in
     path d = path row /\ size d = size row /\ modified d = modified row
     /\ sha1 d = sha1 row /\ status d = status row
     /\ xxhash d = (if truthy (xxhash row) then xxhash row
                    else Hasher.compute_xxhash lib fs (path row))
     /\ (md5 d = md5 row
         \/ (truthy (md5 row) = false
             /\ md5 d = Hasher.compute_md5 lib fs (path row))))
  /\ (forall c, In c confirmed <->
        exists kx km,
          c = filter (fun r => opt_eqb (xxhash (Heap.get after r)) kx
                               && opt_eqb (md5 (Heap.get after r)) km) refs
          /\ (2 <= List.length c)%nat)
  /\ (forall c, In c confirmed -> incl c refs /\ (2 <= List.length c)%nat)
  /\ (forall r1 r2, In r1 refs -> In r2 refs -> r1 <> r2 ->
        ((exists c, In c confirmed /\ In r1 c /\ In r2 c)
         <-> xxhash (Heap.get after r1) = xxhash (Heap.get after r2)
             /\ md5 (Heap.get after r1) = md5 (Heap.get after r2)))
  /\ NoDup (List.concat confirmed)
  /\ (forall r, (r < Heap.next_ref h)%nat -> Heap.get after r = Heap.get h r)
  /\ Heap.next_ref after = (Heap.next_ref h + List.length rows)%nat
  /\ DedupEngine.directories (snd out) = DedupEngine.directories e
  /\ Workspace.workspace_config (DedupEngine.workspace (snd out))
     = Workspace.workspace_config (DedupEngine.workspace e)
  /\ Workspace.workspace_directories (DedupEngine.workspace (snd out))
     = Workspace.workspace_directories (DedupEngine.workspace e)
  /\ Workspace.workspace_metadata (DedupEngine.workspace (snd out))
     = Workspace.workspace_metadata (DedupEngine.workspace e).
Proof.
  intros rows refs out confirmed after.
  set (st := {| Deduper.heap := h; Deduper.workspace := DedupEngine.workspace e |}).
  set (pot := Deduper.find_potential_duplicates lib fs st).
  set (conf := Deduper.confirm_duplicates lib fs (snd pot) (fst pot)).
  assert (Eout : out = (fst conf, Deduper.heap (snd conf),
                        {| DedupEngine.workspace := Deduper.workspace (snd conf);
                           DedupEngine.directories := DedupEngine.directories e |}))
    by apply find_duplicates_phases.
  assert (Econf : confirmed = fst conf) by (unfold confirmed; now rewrite Eout).
  assert (Eafter : after = Deduper.heap (snd conf))
    by (unfold after; now rewrite Eout).
  destruct (find_potential_duplicates_spec lib fs st)
    as [_ [Hlow [Hnext1 _]]].
  fold pot in Hlow, Hnext1.
  destruct (confirm_duplicates_keeps lib fs (snd pot) (fst pot))
    as [Hkeep [Houtside [Hnext2 _]]].
  fold conf in Hkeep, Houtside, Hnext2. rewrite <- Eafter in Hkeep, Houtside, Hnext2.
  pose proof (potential_groups_fresh lib fs st) as Hfresh. fold pot in Hfresh.
  change (ResolverSpec.fresh_refs (Deduper.heap st)
            (Workspace.get_files (Deduper.workspace st))) with refs in Hfresh.
  assert (Hchar : forall c, In c confirmed <->
            exists kx km,
              c = filter (fun r => opt_eqb (xxhash (Heap.get after r)) kx
                                   && opt_eqb (md5 (Heap.get after r)) km) refs
              /\ (2 <= List.length c)%nat).
  { intros c. rewrite Econf. unfold conf, pot.
    rewrite (resolver_groups lib fs st c). fold pot. fold conf.
    rewrite <- Eafter.
    change (ResolverSpec.fresh_refs (Deduper.heap st)
              (Workspace.get_files (Deduper.workspace st))) with refs.
    split; intros [kx [km [Ec Hlen]]]; exists kx, km; split; try assumption;
      rewrite Ec; [apply filter_filter_andb | symmetry; apply filter_filter_andb]. }
  split; [|split; [exact Hchar|split; [|split; [|split; [|split; [|split]]]]]].
  - intros i row Hi d.
    assert (Ed : Heap.get (Deduper.heap (snd pot)) (Heap.next_ref h + i)%nat
                 = ResolverSpec.fill_xxhash lib fs row)
      by (apply (potential_dict_of_row lib fs st i Hi)).
    destruct (Hkeep (Heap.next_ref h + i)%nat) as [Hsame Hmd5].
    fold d in Hsame, Hmd5. rewrite Ed in Hsame, Hmd5.
    unfold ResolverSpec.same_but_md5 in Hsame.
    unfold ResolverSpec.fill_xxhash in Hsame, Hmd5.
    destruct (truthy (xxhash row)); cbn [path size modified xxhash md5 sha1 status
                                         set_xxhash] in Hsame, Hmd5;
      intuition congruence.
  - intros c Hc. apply Hchar in Hc. destruct Hc as [kx [km [-> Hlen]]].
    split; [|exact Hlen]. intros r Hr. apply filter_In in Hr. tauto.
  - intros r1 r2 H1 H2 Hne. split.
    + intros [c [Hc [Hr1 Hr2]]]. apply Hchar in Hc.
      destruct Hc as [kx [km [-> _]]].
      apply filter_In in Hr1, Hr2.
      destruct Hr1 as [_ Hr1], Hr2 as [_ Hr2].
      apply andb_true_iff in Hr1, Hr2.
      destruct Hr1 as [X1 M1], Hr2 as [X2 M2].
      apply opt_eqb_eq in X1, X2, M1, M2. split; congruence.
    + intros [Ex Em].
      set (c := filter
                  (fun r => opt_eqb (xxhash (Heap.get after r))
                              (xxhash (Heap.get after r1))
                            && opt_eqb (md5 (Heap.get after r))
                                 (md5 (Heap.get after r1))) refs).
      assert (Hc1 : In r1 c)
        by (apply filter_In; split; [assumption|]; now rewrite !opt_eqb_refl).
      assert (Hc2 : In r2 c).
      { apply filter_In. split; [assumption|].
        rewrite <- Ex, <- Em. now rewrite !opt_eqb_refl. }
      exists c. split; [|now split].
      apply Hchar. exists (xxhash (Heap.get after r1)), (md5 (Heap.get after r1)).
      split; [reflexivity|]. now apply (@two_members_length _ c r1 r2).
  - rewrite Econf. unfold conf.
    rewrite (proj1 (confirm_duplicates_spec lib fs (snd pot) (fst pot))).
    apply nodup_concat_flat_map_classes.
    apply find_potential_duplicates_disjoint.
  - intros r Hr. rewrite Houtside; [now apply Hlow|].
    intros Hin. apply Hfresh in Hin. unfold refs in Hin. apply in_seq in Hin.
    cbn [Deduper.heap st] in Hin. lia.
  - rewrite Hnext2. exact Hnext1.
  - rewrite Eout. cbn [snd DedupEngine.directories DedupEngine.workspace].
    split; [reflexivity|].
    destruct (find_potential_duplicates_frame lib fs st) as [_ [Hc1 [Hm1 Hd1]]].
    destruct (confirm_duplicates_frame lib fs (snd pot) (fst pot))
      as [_ [Hc2 [Hm2 Hd2]]].
    fold pot in Hc1, Hm1, Hd1. fold conf in Hc2, Hm2, Hd2.
    cbn [Deduper.workspace st] in Hc1, Hm1, Hd1.
    split; [|split]; congruence.
Qed.

(** X11.  When the store has one record per path, [find_duplicates] adds
    and deletes no record: the store has one record per path afterwards,
    for the same paths, and its records are exactly the dicts as the call
    leaves them, so whatever the call computed for a file is what the store
    holds for it. *)
Theorem find_duplicates_store_holds_final_dicts
    (lib : HashLib) (fs : FileSystem) (h : Heap.t) (e : DedupEngine.t)
    (Hnd : NoDup (map path (DedupEngine.get_all_files e))) :
  let rows := DedupEngine.get_all_files e in
  let refs := seq (Heap.next_ref h) (List.length rows) in
  let out := DedupEngine.find_duplicates lib fs h e in
  let after := snd (fst out) in
  let stored := DedupEngine.get_all_files (snd out) in
  NoDup (map path stored)
  /\ (forall p, In p (map path stored) <-> In p (map path rows))
  /\ List.length stored = List.length rows
  /\ (forall row, In row stored <-> exists r, In r refs /\ row = Heap.get after r).
Proof.
  intros rows refs out after stored.
  set (st := {| Deduper.heap := h; Deduper.workspace := DedupEngine.workspace e |}).
  set (pot := Deduper.find_potential_duplicates lib fs st).
  set (conf := Deduper.confirm_duplicates lib fs (snd pot) (fst pot)).
  assert (Eout : out = (fst conf, Deduper.heap (snd conf),
                        {| DedupEngine.workspace := Deduper.workspace (snd conf);
                           DedupEngine.directories := DedupEngine.directories e |}))
    by apply find_duplicates_phases.
  assert (Eafter : after = Deduper.heap (snd conf))
    by (unfold after; now rewrite Eout).
  assert (Estored : stored = Workspace.files (Deduper.workspace (snd conf)))
    by (unfold stored; now rewrite Eout).
  destruct (potential_sync lib fs st Hnd) as [Hsync1 Hpaths1].
  fold pot in Hsync1, Hpaths1.
  pose proof (potential_groups_fresh lib fs st) as Hfresh. fold pot in Hfresh.
  change (ResolverSpec.fresh_refs (Deduper.heap st)
            (Workspace.get_files (Deduper.workspace st))) with refs in Hsync1, Hfresh.
  change (Workspace.get_files (Deduper.workspace st)) with rows in Hpaths1.
  assert (Hpath1 : forall r i row, r = (Heap.next_ref h + i)%nat ->
            nth_error rows i = Some row ->
            path (Heap.get (Deduper.heap (snd pot)) r) = path row).
  { intros r i row -> Hi.
    assert (Ed : Heap.get (Deduper.heap (snd pot)) (Heap.next_ref h + i)%nat
                 = ResolverSpec.fill_xxhash lib fs row)
      by (apply (potential_dict_of_row lib fs st i Hi)).
    rewrite Ed. apply fill_xxhash_path. }
  assert (Hinj : forall r1 r2, In r1 refs -> In r2 refs ->
            path (Heap.get (Deduper.heap (snd pot)) r1)
            = path (Heap.get (Deduper.heap (snd pot)) r2) -> r1 = r2).
  { intros r1 r2 H1 H2 Ep.
    apply (@fresh_ref_row h rows) in H1, H2.
    destruct H1 as [i1 [row1 [E1 Hi1]]], H2 as [i2 [row2 [E2 Hi2]]].
    rewrite (Hpath1 r1 i1 row1 E1 Hi1), (Hpath1 r2 i2 row2 E2 Hi2) in Ep.
    assert (i1 = i2); [|subst; reflexivity].
    apply (proj1 (NoDup_nth_error (map path rows)) Hnd).
    - rewrite length_map. apply nth_error_Some. congruence.
    - rewrite !nth_error_map, Hi1, Hi2. cbn [option_map]. now rewrite Ep. }
  pose proof (@confirm_duplicates_sync lib fs refs (snd pot) (fst pot)
                Hfresh Hinj Hsync1) as Hsync2.
  fold conf in Hsync2.
  destruct (confirm_duplicates_keeps lib fs (snd pot) (fst pot))
    as [Hkeep [_ [_ Hrows]]].
  fold conf in Hkeep, Hrows.
  destruct Hrows as [Hpaths2 _].
  { intros r Hr. apply Hsync1. now apply Hfresh. }
  { exact (proj1 Hpaths1). }
  destruct (same_paths_trans Hpaths1 Hpaths2) as [Hnd2 Hsame].
  rewrite <- Estored in Hnd2, Hsame.
  split; [exact Hnd2|]. split; [exact Hsame|]. split.
  - rewrite <- (length_map path stored), <- (length_map path rows).
    apply Permutation_length. now apply NoDup_Permutation.
  - intros row. split.
    + intros Hrow.
      assert (Hp : In (path row) (map path rows))
        by (apply Hsame; now apply in_map).
      apply in_map_iff in Hp. destruct Hp as [row0 [Ep Hrow0]].
      apply In_nth_error in Hrow0. destruct Hrow0 as [i Hi].
      exists (Heap.next_ref h + i)%nat.
      assert (Hr : In (Heap.next_ref h + i)%nat refs)
        by (apply (row_fresh_ref h rows i Hi)).
      split; [exact Hr|].
      apply (@nodup_paths_unique stored); [assumption|assumption| |].
      * rewrite Estored, Eafter. now apply Hsync2.
      * rewrite Eafter.
        destruct (Hkeep (Heap.next_ref h + i)%nat) as [[E _] _]. rewrite E.
        rewrite (Hpath1 _ i row0 eq_refl Hi). now symmetry.
    + intros [r [Hr ->]]. rewrite Estored, Eafter. now apply Hsync2.
Qed.

Lemma find_duplicates_store_holds_final_dicts_witness :
  let e := Examples.engine_of Examples.three_collided ["/A"] in
  let out := DedupEngine.find_duplicates Examples.colliding_lib Examples.tree_A
               Examples.empty_heap e in
  NoDup (map path (DedupEngine.get_all_files e))
  /\ List.length (DedupEngine.get_all_files (snd out)) = 3%nat.
Proof.
  intros e out.
  assert (Hnd : NoDup (map path (DedupEngine.get_all_files e))).
  { repeat constructor; cbn [In]; intuition discriminate. }
  split; [exact Hnd|].
  exact (proj1 (proj2 (proj2
           (@find_duplicates_store_holds_final_dicts
              Examples.colliding_lib Examples.tree_A Examples.empty_heap e Hnd)))).
Defined.

(** ** The statistics of a workspace *)

Section StatsFacts.
Import Workspace StoreSpec.

Lemma list_sum_step (n : nat) (l : list nat) :
  list_sum (n :: l) = (n + list_sum l)%nat.
Proof. reflexivity. Qed.

Lemma indicator_sum_le (ks : list string) (x : string) :
  NoDup ks ->
  (list_sum (map (fun k => if string_dec x k then 1 else 0)%nat ks) <= 1)%nat.
Proof.
  induction ks as [|k ks IH]; cbn [map]; intros H; [cbn; lia|].
  inversion H as [|? ? Hnot Hnd]; subst. rewrite list_sum_step.
  destruct (string_dec x k) as [->|Hne]; [|now apply IH].
  assert (E : list_sum (map (fun k' => if string_dec k k' then 1 else 0)%nat ks)
              = 0%nat).
  { clear IH Hnd H. induction ks as [|k' ks IH]; cbn [map]; [reflexivity|].
    rewrite list_sum_step.
    destruct (string_dec k k') as [->|_]; [elim Hnot; now left|].
    apply IH. intros Hin. apply Hnot. now right. }
  rewrite E. lia.
Qed.

Lemma count_sum_cons (l ks : list string) (x : string) :
  list_sum (map (count_occ string_dec (x :: l)) ks)
  = (list_sum (map (fun k => if string_dec x k then 1 else 0) ks)
     + list_sum (map (count_occ string_dec l) ks))%nat.
Proof.
  induction ks as [|k ks IH]; cbn [map]; [reflexivity|].
  rewrite !list_sum_step, IH. cbn [count_occ]. destruct (string_dec x k); lia.
Qed.

Lemma count_sum_le (l ks : list string) :
  NoDup ks ->
  (list_sum (map (count_occ string_dec l) ks) <= List.length l)%nat.
Proof.
  intros Hnd. induction l as [|x l IH].
  - clear Hnd. induction ks as [|k ks IHk]; cbn [map]; [cbn; lia|].
    rewrite list_sum_step. cbn [count_occ List.length] in *. lia.
  - rewrite count_sum_cons. pose proof (indicator_sum_le x Hnd).
    cbn [List.length]. lia.
Qed.

Lemma frequent_le_sum (f : string -> nat) (ks : list string) :
  (2 * List.length (filter (fun k => 1 <? f k) ks) <= list_sum (map f ks))%nat.
Proof.
  induction ks as [|k ks IH]; cbn [filter map]; [cbn; lia|].
  rewrite list_sum_step.
  destruct (1 <? f k)%nat eqn:E; cbn [List.length]; [|lia].
  apply Nat.ltb_lt in E. lia.
Qed.

Lemma select_xxhash_not_null_length (rows : list FileRecord) :
  (List.length (select_xxhash_not_null rows) <= List.length rows)%nat.
Proof.
  induction rows as [|r rows IH]; cbn [select_xxhash_not_null List.length]; [lia|].
  destruct (xxhash r); cbn [List.length]; lia.
Qed.

Lemma count_duplicate_groups_bounds (rows : list FileRecord) :
  0 <= count_duplicate_groups rows
  /\ 2 * count_duplicate_groups rows <= Z.of_nat (List.length rows).
Proof.
  unfold count_duplicate_groups.
  set (hashes := select_xxhash_not_null rows).
  pose proof (frequent_le_sum (count_occ string_dec hashes)
                (nodup string_dec hashes)) as H1.
  pose proof (@count_sum_le hashes (nodup string_dec hashes)
                (NoDup_nodup string_dec hashes)) as H2.
  pose proof (select_xxhash_not_null_length rows) as H3. fold hashes in H3.
  split; lia.
Qed.

Lemma run_keeps_metadata (codec : JsonCodec) (fs : FileSystem) (ops : list op) :
  forallb keeps_metadata ops = true ->
  forall ws,
    workspace_metadata (run codec fs ws ops) = workspace_metadata ws
    /\ db_path (run codec fs ws ops) = db_path ws.
Proof.
  unfold run.
  induction ops as [|o ops IH]; cbn [forallb fold_left]; intros H ws;
    [now split|].
  apply andb_true_iff in H. destruct H as [Ho Hops].
  destruct (IH Hops (exec codec fs ws o)) as [E1 E2]. rewrite E1, E2.
  destruct o; cbn [keeps_metadata] in Ho; try discriminate; now split.
Qed.
End StatsFacts.

Lemma sum_sizes_nonneg (rows : list FileRecord) :
  (forall r, In r rows -> 0 <= size r) -> 0 <= Workspace.sum_sizes rows.
Proof.
  induction rows as [|r rows IH]; intros H; cbn [Workspace.sum_sizes]; [lia|].
  pose proof (H r (or_introl eq_refl)).
  assert (0 <= Workspace.sum_sizes rows) by (apply IH; intros x Hx; apply H; now right).
  lia.
Qed.

(** The 64-bit sum of sizes that are not negative: the sum when it fits,
    and the error when it does not. *)
Lemma sqlite_sum_spec (rows : list FileRecord) :
  forall acc,
    0 <= acc <= 9223372036854775807 ->
    (forall r, In r rows -> 0 <= size r) ->
    Workspace.sqlite_sum acc rows
    = if acc + Workspace.sum_sizes rows <=? 9223372036854775807
      then Ok (acc + Workspace.sum_sizes rows)
      else Raise OperationalError.
Proof.
  induction rows as [|r rows IH]; intros acc Hacc Hpos;
    cbn [Workspace.sqlite_sum Workspace.sum_sizes].
  - rewrite Z.add_0_r.
    destruct (acc <=? 9223372036854775807) eqn:E; [reflexivity|].
    apply Z.leb_gt in E. lia.
  - pose proof (Hpos r (or_introl eq_refl)) as Hr.
    assert (Hrest : 0 <= Workspace.sum_sizes rows)
      by (apply sum_sizes_nonneg; intros x Hx; apply Hpos; now right).
    unfold Workspace.int64.
    destruct (acc + size r <=? 9223372036854775807) eqn:E.
    + apply Z.leb_le in E.
      replace (-9223372036854775808 <=? acc + size r) with true
        by (symmetry; apply Z.leb_le; lia).
      cbn [andb]. rewrite IH; [|lia|intros x Hx; apply Hpos; now right].
      now rewrite Z.add_assoc.
    + apply Z.leb_gt in E. rewrite andb_false_r.
      destruct (acc + (size r + Workspace.sum_sizes rows) <=? 9223372036854775807)
        eqn:E'; [|reflexivity].
      apply Z.leb_le in E'. lia.
Qed.

(** X12.  [update_workspace_metadata] with the 64-bit arithmetic of
    SQLite, over rows whose sizes are not negative.  When the sizes add up
    to at most 2^63 - 1 the call returns, and the statistics read back are
    those of table [files] at that moment: the number of rows, the sum of
    their sizes, and a number of duplicate groups between 0 and half the
    number of rows.  Both timestamps are the time of the update,
    [created_at] too, since the row is replaced as a whole; the name is
    the one given, or the base name of the database file when none or an
    empty one is given.  No other table is touched.  When the sizes add up
    to more, the call raises "integer overflow" and writes nothing. *)
Theorem update_workspace_metadata_then_stats
    (fs : FileSystem) (now : Z) (ws : Workspace.t) (name : option string) :
  let call := Workspace.try_update_workspace_metadata fs now ws name in
  let total := Workspace.sum_sizes (Workspace.files ws) in
  let sizes_not_negative :=
    forall r, In r (Workspace.files ws) -> 0 <= size r in
  (sizes_not_negative -> total <= 9223372036854775807 ->
   exists ws',
     call = Ok ws'
     /\ ws' = Workspace.update_workspace_metadata fs now ws name
     /\ let stats := Workspace.get_workspace_stats fs ws' in
        Workspace.stats_total_files stats
        = Z.of_nat (List.length (Workspace.files ws))
        /\ Workspace.stats_total_size stats = total
        /\ 0 <= Workspace.stats_duplicate_groups stats
        /\ 2 * Workspace.stats_duplicate_groups stats
           <= Workspace.stats_total_files stats
        /\ Workspace.stats_created_at stats = Some now
        /\ Workspace.stats_last_scan stats = Some now
        /\ (forall n, name = Some n -> n <> "" ->
              Workspace.stats_workspace_name stats = n)
        /\ (name = None \/ name = Some "" ->
              Workspace.stats_workspace_name stats
              = os_path_basename fs (Workspace.db_path ws))
        /\ Workspace.files ws' = Workspace.files ws
        /\ Workspace.workspace_config ws' = Workspace.workspace_config ws
        /\ Workspace.workspace_directories ws'
           = Workspace.workspace_directories ws)
  /\ (sizes_not_negative -> 9223372036854775807 < total ->
      call = Raise OperationalError).
Proof.
  intros call total sizes_not_negative.
  assert (Hsum : sizes_not_negative ->
            Workspace.sqlite_sum 0 (Workspace.files ws)
            = if total <=? 9223372036854775807
              then Ok total else Raise OperationalError).
  { intros Hpos. rewrite sqlite_sum_spec; [reflexivity | lia | exact Hpos]. }
  split.
  - intros Hpos Hfits. specialize (Hsum Hpos).
    rewrite (proj2 (Z.leb_le _ _) Hfits) in Hsum.
    exists (Workspace.update_workspace_metadata fs now ws name).
    split; [|split; [reflexivity|]].
    + unfold call, Workspace.try_update_workspace_metadata. now rewrite Hsum.
    + destruct (count_duplicate_groups_bounds (Workspace.files ws)) as [H0 H2].
      unfold Workspace.get_workspace_stats, Workspace.update_workspace_metadata.
      cbn [Workspace.workspace_metadata Workspace.stats_total_files
           Workspace.stats_total_size Workspace.stats_duplicate_groups
           Workspace.stats_created_at Workspace.stats_last_scan
           Workspace.stats_workspace_name Workspace.total_files
           Workspace.total_size Workspace.duplicate_groups Workspace.created_at
           Workspace.last_scan Workspace.workspace_name Workspace.files
           Workspace.workspace_config Workspace.workspace_directories].
      repeat (split; [first [reflexivity | assumption]|]).
      split; [|split; [|now repeat split]].
      * intros n -> Hn. destruct n; [contradiction | reflexivity].
      * intros [->| ->]; reflexivity.
  - intros Hpos Hover. specialize (Hsum Hpos).
    rewrite (proj2 (Z.leb_gt _ _) Hover) in Hsum.
    unfold call, Workspace.try_update_workspace_metadata. now rewrite Hsum.
Qed.

(** Two files of 2^62 bytes each: their sizes add up to 2^63, one more
    than SQLite can hold, and the statistics are not updated.  With the
    second file one byte shorter they are. *)
Example update_workspace_metadata_overflows :
  let rows := fun size2 =>
    [Examples.record "/A/f1" 4611686018427387904 1700000001 None None "present";
     Examples.record "/A/f2" size2 1700000002 None None "present"] in
  let call := fun size2 =>
    Workspace.try_update_workspace_metadata Examples.tree_A 1700000100
      (Examples.workspace_of (rows size2)) None in
  call 4611686018427387904 = Raise OperationalError
  /\ match call 4611686018427387903 with
     | Ok ws' =>
         Workspace.stats_total_size
           (Workspace.get_workspace_stats Examples.tree_A ws')
         = 9223372036854775807
     | Raise _ => False
     end.
Proof. split; reflexivity. Qed.

(** X13.  The statistics are a snapshot: [get_workspace_stats] answers
    from the row that the last [update_workspace_metadata] wrote, so no
    sequence of the other store operations changes its answer, nor does
    [scan_and_hash] or [find_duplicates].  Until the first update the
    answer is the default one (no files, no size, no groups, no
    timestamps), whatever the store holds. *)
Theorem workspace_stats_change_only_on_update
    (codec : JsonCodec) (lib : HashLib) (fs : FileSystem) (sched : Scheduler)
    (ops : list Workspace.op)
    (Hops : forallb StoreSpec.keeps_metadata ops = true) :
  (forall ws,
     Workspace.get_workspace_stats fs (Workspace.run codec fs ws ops)
     = Workspace.get_workspace_stats fs ws)
  /\ (forall workspace_path,
        Workspace.get_workspace_stats fs
          (Workspace.run codec fs (Workspace.create_workspace workspace_path) ops)
        = {| Workspace.stats_workspace_name := os_path_basename fs workspace_path;
             Workspace.stats_total_files := 0;
             Workspace.stats_total_size := 0;
             Workspace.stats_duplicate_groups := 0;
             Workspace.stats_created_at := None;
             Workspace.stats_last_scan := None |})
  /\ (forall sq e,
        Workspace.get_workspace_stats fs
          (DedupEngine.workspace
             (snd (DedupEngine.scan_and_hash sq lib fs sched e)))
        = Workspace.get_workspace_stats fs (DedupEngine.workspace e))
  /\ (forall h e,
        Workspace.get_workspace_stats fs
          (DedupEngine.workspace (snd (DedupEngine.find_duplicates lib fs h e)))
        = Workspace.get_workspace_stats fs (DedupEngine.workspace e)).
Proof.
  assert (Hrun : forall ws,
            Workspace.get_workspace_stats fs (Workspace.run codec fs ws ops)
            = Workspace.get_workspace_stats fs ws).
  { intros ws. destruct (run_keeps_metadata codec fs ops Hops ws) as [E1 E2].
    unfold Workspace.get_workspace_stats. now rewrite E1, E2. }
  split; [exact Hrun|]. split; [|split].
  - intros workspace_path. now rewrite Hrun.
  - intros sq e.
    destruct (scan_and_hash_other_tables lib fs sq sched e) as [E1 [_ [E2 _]]].
    unfold Workspace.get_workspace_stats. now rewrite E1, E2.
  - intros h e.
    destruct (find_duplicates_frame lib fs h e) as [E1 [_ [E2 _]]].
    unfold Workspace.get_workspace_stats. now rewrite E1, E2.
Qed.

Lemma workspace_stats_change_only_on_update_witness :
  Workspace.stats_total_files
    (Workspace.get_workspace_stats Examples.tree_A
       (Workspace.run Examples.plain_codec Examples.tree_A
          (Workspace.create_workspace "/home/u/photos.dedupe")
          [Workspace.AddFile "/A/f1" 3 1700000001 (Some "x:foo") None None "present";
           Workspace.SaveDirectories 1700000100 ["/A"]]))
  = 0.
Proof.
  exact (f_equal Workspace.stats_total_files
           (proj1 (proj2
              (@workspace_stats_change_only_on_update
                 Examples.plain_codec Examples.tagged_lib Examples.tree_A fifo
                 [Workspace.AddFile "/A/f1" 3 1700000001 (Some "x:foo") None None
                    "present";
                  Workspace.SaveDirectories 1700000100 ["/A"]]
                 eq_refl))
              "/home/u/photos.dedupe")).
Defined.

Section GroupCount.
Import Deduper DeduperSpec ResolverSpec.

Lemma filter_map_length (A B : Type) (p : B -> bool) (f : A -> B) (l : list A) :
  List.length (filter p (map f l)) = List.length (filter (fun x => p (f x)) l).
Proof.
  induction l as [|x l IH]; cbn [map filter]; [reflexivity|].
  destruct (p (f x)); cbn [List.length]; now rewrite IH.
Qed.

Lemma permutation_filter_length (A : Type) (p : A -> bool) (l l' : list A) :
  Permutation l l' -> List.length (filter p l) = List.length (filter p l').
Proof.
  intros H. induction H as [|x l l' H IH|x y l|l l' l'' H1 IH1 H2 IH2];
    cbn [filter].
  - reflexivity.
  - destruct (p x); cbn [List.length]; now rewrite IH.
  - destruct (p x), (p y); reflexivity.
  - now rewrite IH1.
Qed.

Lemma members_length (X : Type) (key : X -> option string) (k : option string)
    (l : list X) :
  List.length (members key k l)
  = List.length (filter (fun o => opt_eqb o k) (map key l)).
Proof. unfold members. symmetry. apply filter_map_length. Qed.

Lemma group_by_keys_in (X : Type) (key : X -> option string) (l : list X)
    (k : option string) :
  In k (dict_keys (group_by key l [])) <-> In k (map key l).
Proof.
  pose proof (group_by_grouped l (grouped_nil key)) as [Hnd Hget].
  cbn [app] in Hnd, Hget. split.
  - intros Hk.
    pose proof (dict_get_none opt_eqb opt_eqb_eq (group_by key l []) k) as Hnone.
    rewrite Hget in Hnone.
    destruct (members key k l) as [|x c] eqn:E.
    + exfalso. now apply (proj1 Hnone).
    + assert (Hm : In x (members key k l)) by (rewrite E; now left).
      apply members_in in Hm. destruct Hm as [Hin <-]. now apply in_map.
  - intros Hin. apply in_map_iff in Hin. destruct Hin as [x [<- Hin]].
    assert (Hm : In x (members key (key x) l)) by (now apply members_in).
    pose proof (Hget (key x)) as G.
    destruct (members key (key x) l) as [|y c]; [destruct Hm|].
    apply (dict_get_in opt_eqb opt_eqb_eq _ _ _ Hnd) in G.
    unfold dict_keys. change (key x) with (fst (key x, y :: c)).
    now apply in_map.
Qed.

Lemma classes_length (X : Type) (key : X -> option string) (l : list X) :
  List.length (classes key l)
  = List.length
      (filter
         (fun k =>
            (1 <? List.length (filter (fun o => opt_eqb o k) (map key l)))%nat)
         (dict_keys (group_by key l []))).
Proof.
  pose proof (group_by_grouped l (grouped_nil key)) as [Hnd Hget].
  cbn [app] in Hnd, Hget.
  unfold classes, dict_values, dict_keys. rewrite !filter_map_length.
  f_equal. apply filter_ext_in. intros [k c] Hin. cbn [fst snd].
  apply (dict_get_in opt_eqb opt_eqb_eq _ _ _ Hnd) in Hin.
  rewrite Hget in Hin. rewrite <- members_length.
  destruct (members key k l); [discriminate|]. now inversion Hin.
Qed.

Lemma classes_length_keys (X : Type) (key : X -> option string) (l : list X)
    (ks : list (option string)) :
  NoDup ks -> (forall k, In k ks <-> In k (map key l)) ->
  List.length (classes key l)
  = List.length
      (filter
         (fun k =>
            (1 <? List.length (filter (fun o => opt_eqb o k) (map key l)))%nat)
         ks).
Proof.
  intros Hnd Hin. rewrite classes_length.
  apply permutation_filter_length. apply NoDup_Permutation.
  - exact (proj1 (group_by_grouped l (grouped_nil key))).
  - exact Hnd.
  - intros k. now rewrite group_by_keys_in, Hin.
Qed.

Lemma count_occ_some (hashes : list string) (h : string) :
  List.length (filter (fun o => opt_eqb o (Some h)) (map Some hashes))
  = count_occ string_dec hashes h.
Proof.
  induction hashes as [|x hashes IH]; cbn [map filter count_occ]; [reflexivity|].
  cbn [opt_eqb]. destruct (string_dec x h) as [->|Hne].
  - rewrite String.eqb_refl. cbn [List.length]. now rewrite IH.
  - apply String.eqb_neq in Hne. now rewrite Hne.
Qed.

Lemma select_xxhash_all (rows : list FileRecord) :
  (forall row, In row rows -> truthy (xxhash row) = true) ->
  map xxhash rows = map Some (Workspace.select_xxhash_not_null rows).
Proof.
  induction rows as [|r rows IH]; intros H;
    cbn [map Workspace.select_xxhash_not_null]; [reflexivity|].
  pose proof (H r (or_introl eq_refl)) as T.
  destruct (xxhash r) as [x|]; [|discriminate]. cbn [map].
  f_equal. apply IH. intros row Hrow. apply H. now right.
Qed.

(** The count of the SQL query is the number of classes of more than one
    member, for any list filed under the non-null xxhash values of the
    rows. *)
Lemma count_duplicate_groups_classes (X : Type) (key : X -> option string)
    (l : list X) (rows : list FileRecord) :
  map key l = map Some (Workspace.select_xxhash_not_null rows) ->
  Workspace.count_duplicate_groups rows = Z.of_nat (List.length (classes key l)).
Proof.
  intros Hkeys. unfold Workspace.count_duplicate_groups. f_equal.
  set (hashes := Workspace.select_xxhash_not_null rows) in *.
  rewrite (@classes_length_keys X key l (map Some (nodup string_dec hashes))).
  - rewrite filter_map_length. f_equal. apply filter_ext. intros h.
    now rewrite Hkeys, count_occ_some.
  - apply Finite.Injective_map_NoDup; [|apply NoDup_nodup].
    intros a b E. now inversion E.
  - intros k. rewrite Hkeys, !in_map_iff. split; intros [h [E Hin]]; exists h;
      (split; [assumption|]); now apply nodup_In in Hin || apply nodup_In.
Qed.
End GroupCount.

(** X14.  When every stored row bears a non-empty xxhash, the
    [duplicate_groups] figure that [update_workspace_metadata] computes
    with its SQL query is the number of potential groups that
    [find_potential_duplicates] returns on the same store. *)
Theorem duplicate_groups_counts_potential_groups
    (lib : HashLib) (fs : FileSystem) (st : Deduper.state)
    (now : Z) (name : option string)
    (Hall : forall row, In row (Workspace.files (Deduper.workspace st)) ->
              truthy (xxhash row) = true) :
  Workspace.count_duplicate_groups (Workspace.files (Deduper.workspace st))
  = Z.of_nat (List.length (fst (Deduper.find_potential_duplicates lib fs st)))
  /\ Workspace.stats_duplicate_groups
       (Workspace.get_workspace_stats fs
          (Workspace.update_workspace_metadata fs now (Deduper.workspace st) name))
     = Z.of_nat (List.length (fst (Deduper.find_potential_duplicates lib fs st))).
Proof.
  assert (E : Workspace.count_duplicate_groups
                (Workspace.files (Deduper.workspace st))
              = Z.of_nat
                  (List.length (fst (Deduper.find_potential_duplicates lib fs st)))).
  { destruct (find_potential_duplicates_spec lib fs st)
      as [Hmap [_ [_ [Hgroups _]]]].
    rewrite Hgroups. apply count_duplicate_groups_classes.
    rewrite <- select_xxhash_all by exact Hall.
    rewrite <- (map_map (Heap.get _) xxhash), Hmap.
    unfold Workspace.get_files. rewrite map_map. apply map_ext_in.
    intros row Hrow. unfold ResolverSpec.fill_xxhash.
    now rewrite (Hall row Hrow). }
  split; [exact E|]. exact E.
Qed.

Lemma duplicate_groups_counts_potential_groups_witness :
  Workspace.count_duplicate_groups Examples.three_collided
  = Z.of_nat
      (List.length
         (fst (Deduper.find_potential_duplicates Examples.colliding_lib
                 Examples.tree_A
                 {| Deduper.heap := Examples.empty_heap;
                    Deduper.workspace :=
                      Examples.workspace_of Examples.three_collided |}))).
Proof.
  refine (proj1 (@duplicate_groups_counts_potential_groups
                   Examples.colliding_lib Examples.tree_A
                   {| Deduper.heap := Examples.empty_heap;
                      Deduper.workspace :=
                        Examples.workspace_of Examples.three_collided |}
                   0 None _)).
  intros row [<-|[<-|[<-|[]]]]; reflexivity.
Defined.

(** ** The list of recent workspaces *)

Section RecentFacts.
Import RecentWorkspaces RecentSpec.
Variables (fs : FileSystem) (abspath : string -> string).

Lemma valid_loop (l : list json_item) :
  forall valid,
    fold_left
      (fun valid workspace =>
         match item_path workspace with
         | Some p => if os_path_exists fs p then valid ++ [workspace] else valid
         | None => valid
         end)
      l valid
    = valid ++ filter (valid_item fs) l.
Proof.
  induction l as [|w l IH]; intros valid; cbn [fold_left filter].
  - now rewrite app_nil_r.
  - rewrite IH. unfold valid_item at 2.
    destruct (item_path w) as [p|]; [|reflexivity].
    destruct (os_path_exists fs p); [|reflexivity].
    now rewrite <- app_assoc.
Qed.

Lemma filter_same_length (A : Type) (f : A -> bool) (l : list A) :
  List.length (filter f l) = List.length l -> filter f l = l.
Proof.
  induction l as [|x l IH]; cbn [filter List.length]; [reflexivity|].
  pose proof (filter_length_le f l) as Hle.
  destruct (f x); cbn [List.length]; intros H; [|lia].
  f_equal. apply IH. lia.
Qed.

Lemma filter_all (A : Type) (f : A -> bool) (l : list A) :
  (forall x, In x l -> f x = true) -> filter f l = l.
Proof.
  induction l as [|x l IH]; cbn [filter]; intros H; [reflexivity|].
  rewrite (H x) by (now left). f_equal. apply IH. intros y Hy. apply H. now right.
Qed.

Lemma get_recent_workspaces_spec (settings : t) :
  get_recent_workspaces fs settings
  = (filter (valid_item fs) (stored_items settings),
     if (List.length (filter (valid_item fs) (stored_items settings))
         =? List.length (stored_items settings))%nat
     then settings
     else setValue (JsonText (filter (valid_item fs) (stored_items settings)))).
Proof.
  unfold get_recent_workspaces, stored_items.
  rewrite valid_loop. cbn [app].
  now destruct (_ =? _)%nat.
Qed.

Lemma get_recent_workspaces_stored (settings : t) :
  stored_items (snd (get_recent_workspaces fs settings))
  = fst (get_recent_workspaces fs settings).
Proof.
  rewrite get_recent_workspaces_spec. cbn [fst snd].
  destruct (_ =? _)%nat eqn:E; [|reflexivity].
  apply Nat.eqb_eq in E. symmetry. now apply filter_same_length.
Qed.

Lemma nodup_firstn (A : Type) (n : nat) (l : list A) :
  NoDup l -> NoDup (firstn n l).
Proof.
  revert l. induction n as [|n IH]; intros [|x l] H; cbn [firstn];
    try constructor.
  - inversion H as [|? ? Hnot Hnd]; subst. intros Hin. apply Hnot.
    rewrite <- (firstn_skipn n l). apply in_or_app. now left.
  - inversion H; subst. now apply IH.
Qed.

Lemma in_firstn (A : Type) (n : nat) (l : list A) (x : A) :
  In x (firstn n l) -> In x l.
Proof.
  intros H. rewrite <- (firstn_skipn n l). apply in_or_app. now left.
Qed.

Lemma well_formed_set (l : list json_item) :
  (List.length l <= max_recent)%nat -> NoDup (map item_path l) ->
  (forall w, In w l -> item_path w <> None) ->
  well_formed (setValue (json_dumps_items l)).
Proof. intros H1 H2 H3. exists l. now repeat split. Qed.

Lemma well_formed_stored (settings : t) (l : list json_item) :
  value settings = JsonText l -> stored_items settings = l.
Proof. unfold stored_items. now intros ->. Qed.

Lemma get_recent_workspaces_well_formed (settings : t) :
  well_formed settings ->
  well_formed (snd (get_recent_workspaces fs settings))
  /\ (List.length (fst (get_recent_workspaces fs settings)) <= max_recent)%nat
  /\ NoDup (map item_path (fst (get_recent_workspaces fs settings)))
  /\ forall w, In w (fst (get_recent_workspaces fs settings)) ->
       item_path w <> None.
Proof.
  intros [l [Hv [Hlen [Hnd Hpath]]]].
  rewrite get_recent_workspaces_spec. cbn [fst snd].
  rewrite (well_formed_stored settings Hv).
  pose proof (filter_length_le (valid_item fs) l) as Hle.
  assert (H1 : (List.length (filter (valid_item fs) l) <= max_recent)%nat) by lia.
  assert (H2 : NoDup (map item_path (filter (valid_item fs) l)))
    by (now apply nodup_map_filter).
  assert (H3 : forall w, In w (filter (valid_item fs) l) -> item_path w <> None).
  { intros w Hw. apply filter_In in Hw. now apply Hpath. }
  split; [|now repeat split].
  destruct (_ =? _)%nat.
  - exists l. now repeat split.
  - now apply well_formed_set.
Qed.

Lemma exec_well_formed (settings : t) (o : op) :
  well_formed settings -> well_formed (exec fs abspath settings o).
Proof.
  intros Hwf.
  destruct (get_recent_workspaces_well_formed Hwf) as [Hwf' [Hlen [Hnd Hpath]]].
  destruct o as [now p n| | |p|]; cbn [exec].
  - unfold add_workspace.
    destruct (os_path_exists fs p); cbn [negb]; [|assumption].
    destruct (get_recent_workspaces fs settings) as [recent settings'].
    cbn [fst snd] in *.
    set (entry := JDict _).
    set (rest := filter _ recent).
    assert (Hrest : NoDup (map item_path (entry :: rest))).
    { cbn [map]. constructor; [|now apply nodup_map_filter].
      intros Hin. apply in_map_iff in Hin. destruct Hin as [w [Ew Hw]].
      apply filter_In in Hw. destruct Hw as [_ Hw].
      rewrite Ew, opt_eqb_refl in Hw. discriminate. }
    apply well_formed_set.
    + apply firstn_le_length.
    + rewrite <- firstn_map. now apply nodup_firstn.
    + intros w Hw. apply in_firstn in Hw. destruct Hw as [<-|Hw].
      * discriminate.
      * apply filter_In in Hw. now apply Hpath.
  - exact Hwf'.
  - unfold get_last_workspace.
    destruct (get_recent_workspaces fs settings) as [recent settings'].
    cbn [fst snd] in *. now destruct recent.
  - unfold remove_workspace.
    destruct (get_recent_workspaces fs settings) as [recent settings'].
    cbn [fst snd] in *.
    pose proof (filter_length_le
                  (fun w => negb (opt_eqb (item_path w) (Some p))) recent) as Hle.
    apply well_formed_set.
    + lia.
    + now apply nodup_map_filter.
    + intros w Hw. apply filter_In in Hw. now apply Hpath.
  - apply well_formed_set; [cbn; lia | constructor | intros w []].
Qed.
End RecentFacts.

(** X15.  [get_recent_workspaces] returns, in stored order, the entries of
    the stored list that are dicts with a path that exists, and writes the
    cleaned list back only when it dropped an entry; after the call the
    stored list is the list returned, and a second call returns the same
    and changes nothing.  A value that cannot be decoded reads as the empty
    list and is left in place. *)
Theorem get_recent_workspaces_keeps_existing
    (fs : FileSystem) (settings : RecentWorkspaces.t) :
  let out := RecentWorkspaces.get_recent_workspaces fs settings in
  fst out = filter (RecentSpec.valid_item fs) (RecentSpec.stored_items settings)
  /\ (forall w, In w (fst out) ->
        exists p, RecentWorkspaces.item_path w = Some p
                  /\ os_path_exists fs p = true)
  /\ ((forall w, In w (RecentSpec.stored_items settings) ->
         RecentSpec.valid_item fs w = true) ->
      out = (RecentSpec.stored_items settings, settings))
  /\ ((exists w, In w (RecentSpec.stored_items settings)
                 /\ RecentSpec.valid_item fs w = false) ->
      snd out = RecentWorkspaces.setValue (RecentWorkspaces.JsonText (fst out)))
  /\ RecentSpec.stored_items (snd out) = fst out
  /\ RecentWorkspaces.get_recent_workspaces fs (snd out) = out
  /\ (RecentWorkspaces.recent_workspaces settings
      = Some RecentWorkspaces.Undecodable -> out = ([], settings)).
Proof.
  intros out.
  assert (Hfst : fst out
                 = filter (RecentSpec.valid_item fs)
                     (RecentSpec.stored_items settings))
    by (unfold out; now rewrite get_recent_workspaces_spec).
  assert (Hvalid : forall w, In w (fst out) -> RecentSpec.valid_item fs w = true).
  { intros w Hw. rewrite Hfst in Hw. apply filter_In in Hw. tauto. }
  assert (Hstored : RecentSpec.stored_items (snd out) = fst out)
    by apply get_recent_workspaces_stored.
  split; [exact Hfst|]. split; [|split; [|split; [|split; [exact Hstored|split]]]].
  - intros w Hw. apply Hvalid in Hw. unfold RecentSpec.valid_item in Hw.
    destruct (RecentWorkspaces.item_path w) as [p|]; [|discriminate].
    now exists p.
  - intros Hall. unfold out. rewrite get_recent_workspaces_spec.
    rewrite (filter_all _ _ Hall). now rewrite Nat.eqb_refl.
  - intros [w [Hw Hbad]]. unfold out. rewrite get_recent_workspaces_spec.
    cbn [fst snd]. destruct (_ =? _)%nat eqn:E; [|reflexivity].
    apply Nat.eqb_eq in E. apply filter_same_length in E.
    rewrite <- E in Hw. apply filter_In in Hw. destruct Hw as [_ Hw]. congruence.
  - rewrite get_recent_workspaces_spec, Hstored.
    rewrite (filter_all _ _ Hvalid), Nat.eqb_refl.
    now destruct out.
  - intros Hbad. unfold out. rewrite get_recent_workspaces_spec.
    unfold RecentSpec.stored_items, RecentWorkspaces.value. now rewrite Hbad.
Qed.

(** X16.  From the settings of a first run, whatever sequence of calls is
    made, the stored value is a list of at most ten entries, each a dict
    with a path, and no path occurs twice. *)
Theorem recent_workspaces_stays_well_formed
    (fs : FileSystem) (abspath : string -> string)
    (ops : list RecentWorkspaces.op) :
  exists l,
    RecentWorkspaces.value
      (RecentWorkspaces.run fs abspath RecentSpec.fresh ops)
    = RecentWorkspaces.JsonText l
    /\ (List.length l <= 10)%nat
    /\ NoDup (map RecentWorkspaces.item_path l)
    /\ forall w, In w l -> RecentWorkspaces.item_path w <> None.
Proof.
  apply (@fold_left_invariant _ _ (RecentWorkspaces.exec fs abspath)
           RecentSpec.well_formed).
  - intros s o. apply exec_well_formed.
  - exists []. repeat split; [cbn; lia | constructor | intros w []].
Qed.

(** X17.  [add_workspace] on a path that does not exist changes nothing.
    On a path that exists it stores the new entry, with the absolute path,
    in front of the entries that were valid and had another path, cut to
    ten.  When the absolute path exists too, the list read back starts
    with it, [get_last_workspace] answers it, and after
    [remove_workspace] of it no entry of the list has it. *)
Theorem add_workspace_puts_entry_first
    (fs : FileSystem) (abspath : string -> string) (now : string)
    (settings : RecentWorkspaces.t) (workspace_path : string)
    (workspace_name : option string)
    (Hexists : os_path_exists fs workspace_path = true)
    (Habs : os_path_exists fs (abspath workspace_path) = true) :
  let after :=
    RecentWorkspaces.add_workspace fs abspath now settings workspace_path
      workspace_name in
  let others :=
    filter
      (fun w =>
         negb (opt_eqb (RecentWorkspaces.item_path w)
                 (Some (abspath workspace_path))))
      (filter (RecentSpec.valid_item fs) (RecentSpec.stored_items settings)) in
  (exists entry,
     RecentWorkspaces.item_path entry = Some (abspath workspace_path)
     /\ RecentWorkspaces.get_recent_workspaces fs after
        = (entry :: firstn 9 others, after))
  /\ RecentWorkspaces.get_last_workspace fs after
     = (Some (abspath workspace_path), after)
  /\ (forall w,
        In w (fst (RecentWorkspaces.get_recent_workspaces fs
                     (RecentWorkspaces.remove_workspace fs after
                        (abspath workspace_path)))) ->
        RecentWorkspaces.item_path w <> Some (abspath workspace_path))
  /\ (forall other,
        os_path_exists fs other = false ->
        RecentWorkspaces.add_workspace fs abspath now settings other
          workspace_name
        = settings).
Proof.
  intros after others.
  set (entry :=
         RecentWorkspaces.JDict
           [("path", abspath workspace_path);
            ("name", match workspace_name with
                     | Some (String _ _ as n) => n
                     | _ => os_path_basename fs workspace_path
                     end);
            ("last_opened", now)]).
  assert (Eafter : after
                   = RecentWorkspaces.setValue
                       (RecentWorkspaces.JsonText (entry :: firstn 9 others))).
  { unfold after, RecentWorkspaces.add_workspace. rewrite Hexists. cbn [negb].
    rewrite get_recent_workspaces_spec. reflexivity. }
  assert (Hvalid : forall w, In w (entry :: firstn 9 others) ->
            RecentSpec.valid_item fs w = true).
  { intros w [<-|Hw].
    - unfold RecentSpec.valid_item. cbn. exact Habs.
    - apply in_firstn in Hw. unfold others in Hw.
      apply filter_In in Hw. destruct Hw as [Hw _].
      apply filter_In in Hw. tauto. }
  assert (Hget : RecentWorkspaces.get_recent_workspaces fs after
                 = (entry :: firstn 9 others, after)).
  { rewrite get_recent_workspaces_spec.
    assert (Es : RecentSpec.stored_items after = entry :: firstn 9 others)
      by (now rewrite Eafter).
    rewrite Es, (filter_all _ _ Hvalid). now rewrite Nat.eqb_refl. }
  split; [|split; [|split]].
  - exists entry. split; [reflexivity | exact Hget].
  - unfold RecentWorkspaces.get_last_workspace. now rewrite Hget.
  - intros w Hw. rewrite get_recent_workspaces_spec in Hw. cbn [fst] in Hw.
    apply filter_In in Hw. destruct Hw as [Hw _].
    unfold RecentWorkspaces.remove_workspace in Hw. rewrite Hget in Hw.
    change (In w (filter
                    (fun w => negb (opt_eqb (RecentWorkspaces.item_path w)
                                      (Some (abspath workspace_path))))
                    (entry :: firstn 9 others))) in Hw.
    apply filter_In in Hw. destruct Hw as [_ Hw].
    intros E. rewrite E, opt_eqb_refl in Hw. discriminate.
  - intros other Hother. unfold RecentWorkspaces.add_workspace.
    now rewrite Hother.
Qed.

Lemma add_workspace_puts_entry_first_witness :
  RecentWorkspaces.get_last_workspace Examples.tree_A
    (RecentWorkspaces.add_workspace Examples.tree_A (fun p => p)
       "2024-05-01T10:00:00" RecentSpec.fresh "/A" None)
  = (Some "/A",
     RecentWorkspaces.add_workspace Examples.tree_A (fun p => p)
       "2024-05-01T10:00:00" RecentSpec.fresh "/A" None).
Proof.
  exact (proj1 (proj2
           (@add_workspace_puts_entry_first Examples.tree_A (fun p => p)
              "2024-05-01T10:00:00" RecentSpec.fresh "/A" None
              eq_refl eq_refl))).
Defined.

(** ** Resuming after a scan *)

Section ResumeAfterScan.
Import DedupEngine PipelineSpec ScanThread ScanThreadSpec.
Variables (lib : HashLib) (fs : FileSystem) (sched : Scheduler).

Lemma scan_directories_stat (roots : list string) (p : string) (s m : Z) :
  In (p, s, m) (Scanner.scan_directories fs roots) -> os_stat fs p = Ok (s, m).
Proof.
  rewrite scan_directories_spec, in_flat_map. intros [directory [_ Hin]].
  apply files_under_in in Hin.
  destruct Hin as [root [dirs [filenames [filename [_ [_ [_ Hstat]]]]]]].
  exact Hstat.
Qed.

Lemma upserts_in (rows table : list FileRecord) (r : FileRecord) :
  functional_rows rows -> In r rows -> In r (upserts rows table).
Proof.
  intros Hf Hr. rewrite upserts_decompose. apply in_or_app. right.
  now apply upserts_written.
Qed.

Lemma upserts_untouched_in (rows table : list FileRecord) (r : FileRecord) :
  ~ In (path r) (map path rows) -> In r table -> In r (upserts rows table).
Proof.
  intros Hp Hr. rewrite upserts_decompose. apply in_or_app. left.
  apply filter_In. split; [assumption|]. now apply untouched_spec.
Qed.

(** After a scan that stored every hashing result, a discovered file has a
    current record exactly when it was hashed or had one before. *)
Lemma already_current_after_scan (sq : Sqlite) (e : t) (p : string) (s m : Z) :
  binds_discovered sq fs (directories e) ->
  In (p, s, m) (Scanner.scan_directories fs (directories e)) ->
  (already_current (workspace (snd (scan_and_hash sq lib fs sched e))) (p, s, m)
   <-> truthy (Hasher.compute_xxhash lib fs p) = true
       \/ already_current (workspace e) (p, s, m)).
Proof.
  intros Hb Hin.
  assert (Hroots : directories e <> []).
  { intros E. rewrite E in Hin. destruct Hin. }
  pose proof (scan_and_hash_files lib fs sq sched e) as Hfiles.
  rewrite (proj2 (stored_rows_all lib sched Hb)) in Hfiles.
  destruct (directories e) as [|d ds] eqn:Ed; [congruence|].
  rewrite <- Ed in *. clear Ed d ds.
  unfold already_current. cbn [fst snd]. split.
  - intros [r [Hr [Hp Hrest]]].
    destruct (truthy (Hasher.compute_xxhash lib fs p)) eqn:T; [now left | right].
    rewrite Hfiles in Hr. apply upserts_in_inv in Hr. destruct Hr as [Hr|Hr].
    + apply scan_rows_in in Hr. destruct Hr as [_ [[h [Hh [Hne _]]] _]].
      rewrite Hp in Hh. rewrite Hh in T.
      destruct h; [contradiction | discriminate].
    + exists r. now split.
  - intros H. destruct (truthy (Hasher.compute_xxhash lib fs p)) eqn:T.
    + destruct (Hasher.compute_xxhash lib fs p) as [h|] eqn:Hh; [|discriminate].
      assert (Hne : h <> "") by (intros ->; discriminate).
      pose proof (@scan_rows_complete lib fs sched _ _ _ _ _ Hin Hh Hne) as Hp.
      apply in_map_iff in Hp. destruct Hp as [r [Hp Hr]].
      pose proof (scan_rows_in _ _ _ _ _ Hr) as [_ [[h' [Hh' [_ Hx]]] [Hd _]]].
      apply build_file_dict_in in Hd. rewrite Hp in Hd.
      apply scan_directories_stat in Hd. apply scan_directories_stat in Hin.
      rewrite Hin in Hd. injection Hd as Hs Hm.
      exists r. split; [|split; [assumption|split; [now symmetry|split]]].
      * rewrite Hfiles. apply upserts_in; [apply scan_rows_functional | exact Hr].
      * rewrite Hx. discriminate.
      * now symmetry.
    + destruct H as [H|[r [Hr [Hp Hrest]]]]; [discriminate|].
      exists r. split; [|now split].
      rewrite Hfiles. apply upserts_untouched_in; [|exact Hr].
      intros Hp'. apply in_map_iff in Hp'. destruct Hp' as [r' [Ep Hr']].
      apply scan_rows_in in Hr'. destruct Hr' as [_ [[h [Hh [Hne _]]] _]].
      rewrite Ep, Hp in Hh. rewrite Hh in T.
      destruct h; [contradiction | discriminate].
Qed.
End ResumeAfterScan.

(** X18.  Over a tree whose discovered paths [sqlite3] all binds, the
    resume filter run on the files a scan discovered, against the store as
    [scan_and_hash] left it, keeps exactly the discovered files for which
    no fingerprint was obtained and that had no current record before the
    scan; run after a scan into an empty store it keeps exactly the files
    whose hashing failed.  Every file the scan hashed is skipped. *)
Theorem resume_after_scan_keeps_failed_files
    (sq : Sqlite) (lib : HashLib) (fs : FileSystem) (sched : Scheduler)
    (e : DedupEngine.t)
    (Hnd : NoDup (map path (Workspace.files (DedupEngine.workspace e))))
    (Hbinds : forall p s m,
        In (p, s, m) (Scanner.scan_directories fs (DedupEngine.directories e)) ->
        binds sq p = true) :
  let discovered := Scanner.scan_directories fs (DedupEngine.directories e) in
  let after :=
    DedupEngine.workspace (snd (DedupEngine.scan_and_hash sq lib fs sched e)) in
  let failed := fun f : file_info =>
    negb (truthy (Hasher.compute_xxhash lib fs (fst (fst f)))) in
  ScanThread._filter_unhashed_files (Some after) discovered
  = filter
      (fun f => failed f && ScanThreadSpec.needs_hash (DedupEngine.workspace e) f)
      discovered
  /\ (Workspace.files (DedupEngine.workspace e) = [] ->
      ScanThread._filter_unhashed_files (Some after) discovered
      = filter failed discovered)
  /\ (forall p s m h,
        Hasher.compute_xxhash lib fs p = Some h -> h <> "" ->
        ~ In (p, s, m) (ScanThread._filter_unhashed_files (Some after) discovered)).
Proof.
  intros discovered after failed.
  assert (Hnd' : NoDup (map path (Workspace.files after)))
    by (now apply scan_and_hash_nodup).
  assert (Hmain : ScanThread._filter_unhashed_files (Some after) discovered
                  = filter
                      (fun f => failed f
                                && ScanThreadSpec.needs_hash (DedupEngine.workspace e) f)
                      discovered).
  { rewrite filter_unhashed_files_spec. apply filter_ext_in.
    intros [[p s] m] Hin. apply eq_true_iff_eq.
    rewrite andb_true_iff. unfold failed. cbn [fst]. rewrite negb_true_iff.
    rewrite (@needs_hash_spec after (p, s, m) Hnd').
    rewrite (@needs_hash_spec (DedupEngine.workspace e) (p, s, m) Hnd).
    unfold after.
    rewrite (@already_current_after_scan lib fs sched sq e p s m Hbinds Hin).
    destruct (truthy (Hasher.compute_xxhash lib fs p)); intuition congruence. }
  split; [exact Hmain|]. split.
  - intros Hempty. rewrite Hmain. apply filter_ext. intros [[p s] m].
    unfold ScanThreadSpec.needs_hash. rewrite Hempty. cbn.
    apply andb_true_r.
  - intros p s m h Hh Hne Hin. rewrite Hmain in Hin. apply filter_In in Hin.
    destruct Hin as [_ Hin]. apply andb_true_iff in Hin. destruct Hin as [Hf _].
    unfold failed in Hf. cbn [fst] in Hf. rewrite Hh in Hf.
    destruct h; [contradiction | discriminate].
Qed.

Lemma resume_after_scan_keeps_failed_files_witness :
  let e := Examples.engine_of [] ["/A"] in
  ScanThread._filter_unhashed_files
    (Some (DedupEngine.workspace
             (snd (DedupEngine.scan_and_hash Examples.ascii_sqlite
                     Examples.tagged_lib Examples.tree_A fifo e))))
    (Scanner.scan_directories Examples.tree_A (DedupEngine.directories e))
  = filter
      (fun f => negb (truthy (Hasher.compute_xxhash Examples.tagged_lib
                                Examples.tree_A (fst (fst f)))))
      (Scanner.scan_directories Examples.tree_A (DedupEngine.directories e)).
Proof.
  intros e.
  refine (proj1 (proj2
           (@resume_after_scan_keeps_failed_files Examples.ascii_sqlite
              Examples.tagged_lib Examples.tree_A fifo e (NoDup_nil _) _))
           eq_refl).
  intros p s m Hin. vm_compute in Hin.
  destruct Hin as [H|[H|[H|[H|[]]]]]; injection H as <- _ _; reflexivity.
Defined.

(** ** Clearing, scanning and resolving, end to end *)

Section Pipeline.
Import Deduper DeduperSpec ResolverSpec PipelineSpec.
Variables (lib : HashLib) (fs : FileSystem).

(** The dict behind a member of a confirmed group, and the hashes it was
    filed under. *)
Lemma resolver_member (st : state) (c : list Heap.ref) (r : Heap.ref) :
  In c (fst (confirm_duplicates lib fs
               (snd (find_potential_duplicates lib fs st))
               (fst (find_potential_duplicates lib fs st)))) ->
  In r c ->
  exists i row,
    r = (Heap.next_ref (heap st) + i)%nat
    /\ nth_error (Workspace.get_files (workspace st)) i = Some row
    /\ md5_filled lib fs (fill_xxhash lib fs row)
         (Heap.get (heap (snd (confirm_duplicates lib fs
                                 (snd (find_potential_duplicates lib fs st))
                                 (fst (find_potential_duplicates lib fs st))))) r)
    /\ md5 (Heap.get (heap (snd (confirm_duplicates lib fs
                                   (snd (find_potential_duplicates lib fs st))
                                   (fst (find_potential_duplicates lib fs st))))) r)
       = (if truthy (md5 row) then md5 row
          else Hasher.compute_md5 lib fs (path row)).
Proof.
  set (pot := find_potential_duplicates lib fs st).
  destruct (confirm_duplicates_spec lib fs (snd pot) (fst pot)) as [Hconf Hmd5].
  destruct (confirm_duplicates_keeps lib fs (snd pot) (fst pot)) as [Hkeep _].
  set (conf := confirm_duplicates lib fs (snd pot) (fst pot)) in *.
  intros Hc Hr. rewrite Hconf in Hc. apply in_flat_map in Hc.
  destruct Hc as [g [Hg Hc]].
  assert (Hrg : In r g) by (eapply classes_member; eassumption).
  assert (Hfresh : In r (fresh_refs (heap st) (Workspace.get_files (workspace st)))).
  { apply (potential_groups_fresh lib fs st). apply in_concat. now exists g. }
  apply fresh_ref_row in Hfresh. destruct Hfresh as [i [row [-> Hi]]].
  exists i, row. split; [reflexivity|]. split; [exact Hi|].
  pose proof (potential_dict_of_row lib fs st i Hi) as Ed. fold pot in Ed.
  split.
  - rewrite <- Ed. apply Hkeep.
  - rewrite (Hmd5 g _ Hg Hrg). unfold strong_hash. rewrite Ed.
    unfold fill_xxhash. now destruct (truthy (xxhash row)).
Qed.

(** Two dicts filed under the same two hashes are confirmed together. *)
Lemma resolver_pair (st : state) (i1 i2 : nat) (row1 row2 : FileRecord) :
  nth_error (Workspace.get_files (workspace st)) i1 = Some row1 ->
  nth_error (Workspace.get_files (workspace st)) i2 = Some row2 ->
  i1 <> i2 ->
  xxhash (fill_xxhash lib fs row1) = xxhash (fill_xxhash lib fs row2) ->
  (if truthy (md5 row1) then md5 row1 else Hasher.compute_md5 lib fs (path row1))
  = (if truthy (md5 row2) then md5 row2 else Hasher.compute_md5 lib fs (path row2)) ->
  exists c,
    In c (fst (confirm_duplicates lib fs
                 (snd (find_potential_duplicates lib fs st))
                 (fst (find_potential_duplicates lib fs st))))
    /\ In (Heap.next_ref (heap st) + i1)%nat c
    /\ In (Heap.next_ref (heap st) + i2)%nat c.
Proof.
  intros Hi1 Hi2 Hne Hx Hm.
  destruct (find_potential_duplicates_spec lib fs st)
    as [_ [_ [_ [Hgroups _]]]].
  pose proof (potential_dict_of_row lib fs st i1 Hi1) as Ed1.
  pose proof (potential_dict_of_row lib fs st i2 Hi2) as Ed2.
  set (pot := find_potential_duplicates lib fs st) in *.
  set (refs := fresh_refs (heap st) (Workspace.get_files (workspace st))) in *.
  set (r1 := (Heap.next_ref (heap st) + i1)%nat) in *.
  set (r2 := (Heap.next_ref (heap st) + i2)%nat) in *.
  assert (Hr1 : In r1 refs) by (apply (row_fresh_ref (heap st) _ i1 Hi1)).
  assert (Hr2 : In r2 refs) by (apply (row_fresh_ref (heap st) _ i2 Hi2)).
  assert (Hr : r1 <> r2) by (unfold r1, r2; lia).
  set (key := fun r => xxhash (Heap.get (heap (snd pot)) r)) in *.
  set (g := members key (key r1) refs).
  assert (Hg1 : In r1 g) by (now apply members_in).
  assert (Hg2 : In r2 g).
  { apply members_in. split; [assumption|]. unfold key. now rewrite Ed1, Ed2. }
  assert (Hg : In g (fst pot)).
  { rewrite Hgroups. apply classes_in. exists (key r1). split; [reflexivity|].
    now apply (@two_members_length _ g r1 r2). }
  assert (Hs : forall i row, nth_error (Workspace.get_files (workspace st)) i = Some row ->
            strong_hash lib fs (heap (snd pot)) (Heap.next_ref (heap st) + i)%nat
            = (if truthy (md5 row) then md5 row
               else Hasher.compute_md5 lib fs (path row))).
  { intros i row Hi. unfold strong_hash.
    pose proof (potential_dict_of_row lib fs st i Hi) as Ed. fold pot in Ed.
    rewrite Ed. unfold fill_xxhash. now destruct (truthy (xxhash row)). }
  set (strong := strong_hash lib fs (heap (snd pot))).
  set (c := members strong (strong r1) g).
  assert (Hc1 : In r1 c) by (now apply members_in).
  assert (Hc2 : In r2 c).
  { apply members_in. split; [assumption|]. unfold strong, r1, r2.
    now rewrite (Hs i1 row1 Hi1), (Hs i2 row2 Hi2). }
  exists c. split; [|now split].
  rewrite (proj1 (confirm_duplicates_spec lib fs (snd pot) (fst pot))).
  apply in_flat_map. exists g. split; [exact Hg|].
  apply classes_in. exists (strong r1). split; [reflexivity|].
  now apply (@two_members_length _ c r1 r2).
Qed.
End Pipeline.

(** X19.  Clearing the store, scanning and resolving, as a whole.  Every
    member of a confirmed group is a discovered file with a non-empty
    fingerprint, and its dict holds the xxhash and md5 that
    [compute_xxhash] and [compute_md5] give for its path; the members of
    one group agree on both and are distinct files; this holds also when
    [sqlite3] cut the scan's store loop short.  Conversely, over a tree
    whose discovered paths [sqlite3] all binds, two distinct discovered
    files with one non-empty fingerprint and one md5 outcome are reported
    in one confirmed group. *)
Theorem clear_scan_find_reports_equal_digests
    (sq : Sqlite) (lib : HashLib) (fs : FileSystem) (sched : Scheduler)
    (h : Heap.t) (e : DedupEngine.t) :
  let cleared :=
    {| DedupEngine.workspace := Workspace.clear_files (DedupEngine.workspace e);
       DedupEngine.directories := DedupEngine.directories e |} in
  let discovered := Scanner.scan_directories fs (DedupEngine.directories e) in
  let scanned := snd (DedupEngine.scan_and_hash sq lib fs sched cleared) in
  let out := DedupEngine.find_duplicates lib fs h scanned in
  let confirmed := fst (fst out) in
  let dict := fun r => Heap.get (snd (fst out)) r in
  (forall c r, In c confirmed -> In r c ->
     (exists s m, In (path (dict r), s, m) discovered)
     /\ truthy (xxhash (dict r)) = true
     /\ xxhash (dict r) = Hasher.compute_xxhash lib fs (path (dict r))
     /\ md5 (dict r) = Hasher.compute_md5 lib fs (path (dict r)))
  /\ (forall c r1 r2, In c confirmed -> In r1 c -> In r2 c ->
        Hasher.compute_xxhash lib fs (path (dict r1))
        = Hasher.compute_xxhash lib fs (path (dict r2))
        /\ Hasher.compute_md5 lib fs (path (dict r1))
           = Hasher.compute_md5 lib fs (path (dict r2)))
  /\ (forall c r1 r2, In c confirmed -> In r1 c -> In r2 c -> r1 <> r2 ->
        path (dict r1) <> path (dict r2))
  /\ ((forall p s m, In (p, s, m) discovered -> binds sq p = true) ->
      forall p1 p2 s1 m1 s2 m2,
        In (p1, s1, m1) discovered -> In (p2, s2, m2) discovered -> p1 <> p2 ->
        truthy (Hasher.compute_xxhash lib fs p1) = true ->
        Hasher.compute_xxhash lib fs p1 = Hasher.compute_xxhash lib fs p2 ->
        Hasher.compute_md5 lib fs p1 = Hasher.compute_md5 lib fs p2 ->
        exists c r1 r2,
          In c confirmed /\ In r1 c /\ In r2 c
          /\ path (dict r1) = p1 /\ path (dict r2) = p2).
Proof.
  intros cleared discovered scanned out confirmed dict.
  set (rows := Workspace.files (DedupEngine.workspace scanned)).
  set (st := {| Deduper.heap := h;
                Deduper.workspace := DedupEngine.workspace scanned |}).
  set (pot := Deduper.find_potential_duplicates lib fs st).
  set (conf := Deduper.confirm_duplicates lib fs (snd pot) (fst pot)).
  assert (Eout : out = (fst conf, Deduper.heap (snd conf),
                        {| DedupEngine.workspace := Deduper.workspace (snd conf);
                           DedupEngine.directories :=
                             DedupEngine.directories scanned |}))
    by apply find_duplicates_phases.
  assert (Econf : confirmed = fst conf) by (unfold confirmed; now rewrite Eout).
  assert (Edict : forall r, dict r = Heap.get (Deduper.heap (snd conf)) r)
    by (intros r; unfold dict; now rewrite Eout).
  assert (Hrows : rows
                  = match DedupEngine.directories e with
                    | [] => []
                    | _ :: _ =>
                        PipelineSpec.upserts
                          (PipelineSpec.stored_rows sq lib fs sched
                             (DedupEngine.directories e)) []
                    end)
    by (unfold rows, scanned; now rewrite scan_and_hash_files).
  assert (HR : forall row, In row rows ->
            (exists s m, In (path row, s, m) discovered)
            /\ (exists x, Hasher.compute_xxhash lib fs (path row) = Some x
                          /\ x <> "" /\ xxhash row = Some x)
            /\ md5 row = None).
  { intros row Hrow. rewrite Hrows in Hrow. unfold discovered.
    destruct (DedupEngine.directories e) as [|d ds]; [destruct Hrow|].
    apply upserts_nil_in in Hrow. apply stored_rows_in, scan_rows_in in Hrow.
    destruct Hrow as [Hd [Hx [_ [Hm _]]]].
    split; [exact Hd|]. split; [exact Hx | exact Hm]. }
  assert (HN : NoDup (map path rows)).
  { unfold rows, scanned. apply scan_and_hash_nodup. constructor. }
  assert (HC : (forall p s m, In (p, s, m) discovered -> binds sq p = true) ->
            forall p s m, In (p, s, m) discovered ->
            truthy (Hasher.compute_xxhash lib fs p) = true ->
            exists row, In row rows /\ path row = p).
  { intros Hb p s m Hin T.
    destruct (Hasher.compute_xxhash lib fs p) as [x|] eqn:Hx; [|discriminate].
    assert (Hne : x <> "") by (intros ->; discriminate).
    pose proof (@scan_rows_complete lib fs sched _ _ _ _ _ Hin Hx Hne) as Hp.
    rewrite <- (proj2 (stored_rows_all lib sched Hb)) in Hp.
    assert (Hp' : In p (map path rows)).
    { rewrite Hrows. unfold discovered in Hin.
      destruct (DedupEngine.directories e) as [|d ds]; [destruct Hin|].
      apply upserts_paths. now right. }
    apply in_map_iff in Hp'. destruct Hp' as [row [Ep Hrow]]. now exists row. }
  assert (Hmember : forall c r, In c confirmed -> In r c ->
            exists i row,
              r = (Heap.next_ref h + i)%nat
              /\ nth_error rows i = Some row
              /\ path (dict r) = path row
              /\ xxhash (dict r) = xxhash row
              /\ md5 (dict r) = Hasher.compute_md5 lib fs (path row)).
  { intros c r Hc Hr. rewrite Econf in Hc.
    destruct (resolver_member lib fs st c r Hc Hr)
      as [i [row [Er [Hi [[Hsame _] Hmd5]]]]].
    fold pot in Hsame, Hmd5. fold conf in Hsame, Hmd5.
    rewrite <- Edict in Hsame, Hmd5.
    exists i, row. split; [exact Er|]. split; [exact Hi|].
    destruct (HR row (nth_error_In _ _ Hi)) as [_ [[x [_ [Hne Hx]]] Hm]].
    assert (T : truthy (xxhash row) = true)
      by (rewrite Hx; destruct x; [contradiction | reflexivity]).
    unfold ResolverSpec.fill_xxhash in Hsame. rewrite T in Hsame.
    destruct Hsame as [Hp [_ [_ [Hxx _]]]].
    rewrite Hm in Hmd5. cbn [truthy] in Hmd5. now repeat split. }
  assert (Hone : forall c r, In c confirmed -> In r c ->
            (exists s m, In (path (dict r), s, m) discovered)
            /\ truthy (xxhash (dict r)) = true
            /\ xxhash (dict r) = Hasher.compute_xxhash lib fs (path (dict r))
            /\ md5 (dict r) = Hasher.compute_md5 lib fs (path (dict r))).
  { intros c r Hc Hr.
    destruct (Hmember c r Hc Hr) as [i [row [_ [Hi [Hp [Hxx Hmd5]]]]]].
    destruct (HR row (nth_error_In _ _ Hi)) as [Hd [[x [Hcx [Hne Hx]]] _]].
    rewrite Hp, Hxx, Hmd5, Hx, Hcx. split; [exact Hd|].
    split; [destruct x; [contradiction | reflexivity]|]. now split. }
  assert (Hgroup : forall c r1 r2, In c confirmed -> In r1 c -> In r2 c ->
            xxhash (dict r1) = xxhash (dict r2) /\ md5 (dict r1) = md5 (dict r2)).
  { intros c r1 r2 Hc H1 H2. rewrite Econf in Hc. unfold conf, pot in Hc.
    apply (resolver_groups lib fs st c) in Hc.
    destruct Hc as [kx [km [-> _]]].
    apply filter_In in H1, H2. destruct H1 as [H1 M1], H2 as [H2 M2].
    apply filter_In in H1, H2. destruct H1 as [_ X1], H2 as [_ X2].
    apply opt_eqb_eq in M1, M2, X1, X2.
    fold pot in M1, M2, X1, X2. fold conf in M1, M2, X1, X2.
    rewrite <- Edict in M1, M2, X1, X2. split; congruence. }
  split; [exact Hone|]. split; [|split].
  - intros c r1 r2 Hc H1 H2.
    destruct (Hone c r1 Hc H1) as [_ [_ [X1 M1]]].
    destruct (Hone c r2 Hc H2) as [_ [_ [X2 M2]]].
    destruct (Hgroup c r1 r2 Hc H1 H2) as [Ex Em].
    rewrite <- X1, <- X2, <- M1, <- M2. now split.
  - intros c r1 r2 Hc H1 H2 Hne Ep.
    destruct (Hmember c r1 Hc H1) as [i1 [row1 [E1 [Hi1 [Hp1 _]]]]].
    destruct (Hmember c r2 Hc H2) as [i2 [row2 [E2 [Hi2 [Hp2 _]]]]].
    apply Hne. rewrite E1, E2. f_equal.
    apply (proj1 (NoDup_nth_error (map path rows)) HN).
    + rewrite length_map. apply nth_error_Some. congruence.
    + rewrite !nth_error_map, Hi1, Hi2. cbn [option_map]. congruence.
  - intros Hb p1 p2 s1 m1 s2 m2 Hd1 Hd2 Hne T Ex Em.
    assert (T2 : truthy (Hasher.compute_xxhash lib fs p2) = true)
      by (now rewrite <- Ex).
    destruct (HC Hb p1 s1 m1 Hd1 T) as [row1 [Hrow1 Ep1]].
    destruct (HC Hb p2 s2 m2 Hd2 T2) as [row2 [Hrow2 Ep2]].
    destruct (HR row1 Hrow1) as [_ [[x1 [Hcx1 [Hne1 Hx1]]] Hm1]].
    destruct (HR row2 Hrow2) as [_ [[x2 [Hcx2 [Hne2 Hx2]]] Hm2]].
    apply In_nth_error in Hrow1, Hrow2.
    destruct Hrow1 as [i1 Hi1], Hrow2 as [i2 Hi2].
    assert (Hi : i1 <> i2) by (intros ->; congruence).
    assert (Fill : forall row x, xxhash row = Some x -> x <> "" ->
              ResolverSpec.fill_xxhash lib fs row = row).
    { intros row x Hx Hnx. unfold ResolverSpec.fill_xxhash. rewrite Hx.
      destruct x; [contradiction | reflexivity]. }
    destruct (@resolver_pair lib fs st i1 i2 row1 row2 Hi1 Hi2 Hi)
      as [c [Hc [H1 H2]]].
    + rewrite (Fill row1 x1 Hx1 Hne1), (Fill row2 x2 Hx2 Hne2).
      rewrite Hx1, Hx2, <- Hcx1, <- Hcx2, Ep1, Ep2. exact Ex.
    + rewrite Hm1, Hm2. cbn [truthy]. now rewrite Ep1, Ep2.
    + fold pot in Hc. fold conf in Hc. rewrite <- Econf in Hc.
      cbn [Deduper.heap st] in H1, H2.
      exists c, (Heap.next_ref h + i1)%nat, (Heap.next_ref h + i2)%nat.
      split; [exact Hc|]. split; [exact H1|]. split; [exact H2|].
      destruct (Hmember c _ Hc H1) as [j1 [r1' [E1 [Hj1 [Hp1 _]]]]].
      destruct (Hmember c _ Hc H2) as [j2 [r2' [E2 [Hj2 [Hp2 _]]]]].
      assert (j1 = i1) by lia. assert (j2 = i2) by lia. subst j1 j2.
      rewrite Hp1, Hp2. split; congruence.
Qed.

(** ** Writing a record and resuming *)

Section ResumeAfterWrite.
Import ScanThread ScanThreadSpec.

End ResumeAfterWrite.



(** ** The pools with core tracking *)

Section TrackingFacts.
Import ParallelProcessor TrackingSpec.
Variable hash_func : string -> future.

Lemma reference_cons (f : file_info) (files : list file_info) (core_id : nat) :
  single_pool_reference (f :: files) hash_func
  = kept (hash_func (fst (fst f)), (fst (fst f), core_id))
    ++ single_pool_reference files hash_func.
Proof.
  destruct f as [[p s] m]. cbn [single_pool_reference kept fst snd].
  destruct (hash_func p) as [[[|c h]|]|]; reflexivity.
Qed.

Lemma collect_fst (acc : list (string * string) * core_activity) (e : entry) :
  fst (collect acc e) = fst acc ++ kept e.
Proof.
  destruct acc as [results cores], e as [fut [p c]].
  unfold collect, kept. cbn [fst snd].
  destruct fut as [[[|ch h]|]|]; cbn [truthy]; now rewrite ?app_nil_r.
Qed.

Lemma collect_snd (acc : list (string * string) * core_activity) (e : entry) :
  snd (collect acc e) = set_core (snd acc) (snd (snd e)) idle.
Proof. now destruct acc as [results cores], e as [fut [p c]]. Qed.

Lemma collect_all_fst (es : list entry) :
  forall acc, fst (fold_left collect es acc) = fst acc ++ flat_map kept es.
Proof.
  induction es as [|e es IH]; intros acc; cbn [fold_left flat_map].
  - now rewrite app_nil_r.
  - now rewrite IH, collect_fst, <- app_assoc.
Qed.

Lemma get_set_core (cores : core_activity) (c c' : nat) (a : activity) :
  dict_get Nat.eqb (set_core cores c a) c'
  = if Nat.eqb c' c then Some a else dict_get Nat.eqb cores c'.
Proof. apply dict_get_set. apply Nat.eqb_eq. Qed.

Lemma busy_only_collect (cores0 : core_activity) (e : entry)
    (pending : list entry) (acc : list (string * string) * core_activity) :
  busy_only cores0 (e :: pending) (snd acc) ->
  busy_only cores0 pending (snd (collect acc e)).
Proof.
  intros H c a. rewrite collect_snd, get_set_core.
  destruct (Nat.eqb c (snd (snd e))) eqn:E.
  - intros Ha. left. congruence.
  - intros Ha. apply Nat.eqb_neq in E.
    destruct (H c a Ha) as [Hi|[H0|[e' [[<-|He'] Hc]]]]; auto.
    + congruence.
    + right. right. now exists e'.
Qed.

Lemma busy_only_collect_all (cores0 : core_activity) (es waiting : list entry) :
  forall acc,
    busy_only cores0 (es ++ waiting) (snd acc) ->
    busy_only cores0 waiting (snd (fold_left collect es acc)).
Proof.
  induction es as [|e es IH]; intros acc H; cbn [fold_left]; [exact H|].
  apply IH. now apply busy_only_collect.
Qed.

Lemma busy_only_perm (cores0 : core_activity) (pending pending' : list entry)
    (cores : core_activity) :
  (forall e, In e pending -> In e pending') ->
  busy_only cores0 pending cores -> busy_only cores0 pending' cores.
Proof.
  intros Hsub H c a Ha. destruct (H c a Ha) as [Hi|[H0|[e [He Hc]]]]; auto.
  right. right. exists e. split; [now apply Hsub | exact Hc].
Qed.

Lemma busy_only_submit (cores0 : core_activity) (pending : list entry)
    (cores : core_activity) (e : entry) (a : activity) :
  busy_only cores0 pending cores ->
  busy_only cores0 (pending ++ [e]) (set_core cores (snd (snd e)) a).
Proof.
  intros H c a'. rewrite get_set_core.
  destruct (Nat.eqb c (snd (snd e))) eqn:E.
  - intros _. apply Nat.eqb_eq in E. right. right. exists e.
    split; [apply in_or_app; right; now left | now symmetry].
  - intros Ha. destruct (H c a' Ha) as [Hi|[H0|[e' [He' Hc]]]]; auto.
    right. right. exists e'. split; [apply in_or_app; now left | exact Hc].
Qed.

Lemma busy_only_reset (cores0 : core_activity) (ids : list nat) :
  forall cores,
    busy_only cores0 [] cores ->
    busy_only cores0 []
      (fold_left (fun cores i => set_core cores i idle) ids cores).
Proof.
  induction ids as [|i ids IH]; intros cores H; cbn [fold_left]; [exact H|].
  apply IH. intros c a. rewrite get_set_core.
  destruct (Nat.eqb c i); [intros Ha; left; congruence | apply H].
Qed.

Lemma submit_large_all (finishes : finishing) (large_cores : nat)
    (cores0 : core_activity) (l : list file_info) :
  forall i future_to_file cores,
    busy_only cores0 future_to_file cores ->
    exists entries cores',
      fold_left (submit_large hash_func large_cores) (enumerate_nat i l)
        (future_to_file, cores)
      = (future_to_file ++ entries, cores')
      /\ flat_map kept entries
         = single_pool_reference
             (firstn (large_cores - List.length future_to_file) l) hash_func
      /\ busy_only cores0 (future_to_file ++ entries) cores'
      /\ forallb (completes finishes) entries
         = forallb (file_completes finishes)
             (firstn (large_cores - List.length future_to_file) l).
Proof.
  induction l as [|f l IH]; intros i future_to_file cores H;
    cbn [enumerate_nat fold_left].
  - exists [], cores. rewrite app_nil_r, firstn_nil. now repeat split.
  - unfold submit_large at 2.
    destruct (List.length future_to_file <? large_cores)%nat eqn:E.
    + apply Nat.ltb_lt in E.
      set (e := (hash_func (fst (fst f)),
                 (fst (fst f), (i mod large_cores)%nat))).
      destruct (IH (S i) (future_to_file ++ [e])
                  (set_core cores (i mod large_cores)%nat
                     {| activity_status := "Hashing (Large)";
                        activity_file := Some (fst (fst f)) |}))
        as [entries [cores' [Hfold [Hkept [Hbusy Hfin]]]]].
      { apply (@busy_only_submit cores0 future_to_file cores e). exact H. }
      exists (e :: entries), cores'. rewrite Hfold, <- app_assoc.
      split; [reflexivity|].
      rewrite length_app in Hkept, Hfin. cbn [List.length] in Hkept, Hfin.
      replace (large_cores - List.length future_to_file)%nat
        with (S (large_cores - (List.length future_to_file + 1)))%nat by lia.
      cbn [firstn flat_map forallb].
      split; [|split; [now rewrite <- app_assoc in Hbusy|]].
      * rewrite (reference_cons f _ (i mod large_cores)%nat). now rewrite Hkept.
      * now rewrite Hfin.
    + apply Nat.ltb_ge in E.
      destruct (IH (S i) future_to_file cores H)
        as [entries [cores' [Hfold [Hkept [Hbusy Hfin]]]]].
      exists entries, cores'. split; [exact Hfold|].
      rewrite Hkept, Hfin.
      replace (large_cores - List.length future_to_file)%nat with 0%nat by lia.
      now repeat split.
Qed.

Lemma submit_small_spec (finishes : finishing) (small_cores : nat)
    (cores0 : core_activity) (rest : list file_info) :
  forall file_index pending cores,
    busy_only cores0 pending cores ->
    exists rest' file_index' pending' cores',
      submit_small hash_func small_cores rest file_index pending cores
      = (rest', file_index', pending', cores')
      /\ flat_map kept pending' ++ single_pool_reference rest' hash_func
         = flat_map kept pending ++ single_pool_reference rest hash_func
      /\ (List.length rest' + List.length pending'
          = List.length rest + List.length pending)%nat
      /\ busy_only cores0 pending' cores'
      /\ ((0 < small_cores)%nat -> rest <> [] \/ pending <> [] -> pending' <> [])
      /\ all_finish finishes pending' rest' = all_finish finishes pending rest.
Proof.
  induction rest as [|f rest IH]; intros file_index pending cores H;
    cbn [submit_small].
  - exists [], file_index, pending, cores. repeat split; try assumption.
    intros _ [Hr|Hp]; [congruence | exact Hp].
  - destruct (List.length pending <? small_cores)%nat eqn:E.
    + set (e := (hash_func (fst (fst f)),
                 (fst (fst f), (file_index mod small_cores)%nat))).
      destruct (IH (S file_index) (pending ++ [e])
                  (set_core cores (file_index mod small_cores)%nat
                     {| activity_status := "Hashing (Small)";
                        activity_file := Some (fst (fst f)) |}))
        as [rest' [idx' [pending' [cores' [Hs [Hk [Hlen [Hbusy [Hne Hfin]]]]]]]]].
      { apply (@busy_only_submit cores0 pending cores e). exact H. }
      exists rest', idx', pending', cores'. split; [exact Hs|].
      split; [|split; [|split; [exact Hbusy|split]]].
      * rewrite Hk, flat_map_app, <- app_assoc. cbn [flat_map].
        rewrite app_nil_r.
        now rewrite (reference_cons f rest (file_index mod small_cores)%nat).
      * rewrite Hlen, length_app. cbn [List.length]. lia.
      * intros Hpos _. apply (Hne Hpos). right.
        destruct pending; discriminate.
      * rewrite Hfin. unfold all_finish. rewrite forallb_app.
        cbn [forallb]. unfold completes at 2, file_completes at 2.
        cbn [fst snd]. rewrite andb_true_r. now rewrite andb_assoc.
    + exists (f :: rest), file_index, pending, cores.
      repeat split; try assumption.
      intros Hpos _ ->. apply Nat.ltb_ge in E. cbn [List.length] in E. lia.
Qed.

Lemma split_done_perm (finishes : finishing) (mask : list bool)
    (pending : list entry) :
  Permutation (fst (split_done finishes mask pending)
               ++ snd (split_done finishes mask pending))
              pending.
Proof.
  revert mask. induction pending as [|e pending IH]; intros mask;
    cbn [split_done]; [constructor|].
  specialize (IH (tl mask)).
  destruct (split_done finishes (tl mask) pending) as [finished waiting].
  cbn [fst snd] in IH.
  destruct (hd false mask && completes finishes e); cbn [fst snd app].
  - now constructor.
  - eapply Permutation_trans; [apply Permutation_sym, Permutation_middle|].
    now constructor.
Qed.

Lemma split_done_finished (finishes : finishing) (mask : list bool)
    (pending : list entry) :
  forallb (completes finishes) (fst (split_done finishes mask pending)) = true.
Proof.
  revert mask. induction pending as [|e pending IH]; intros mask;
    cbn [split_done]; [reflexivity|].
  specialize (IH (tl mask)).
  destruct (split_done finishes (tl mask) pending) as [finished waiting].
  cbn [fst] in IH.
  destruct (hd false mask && completes finishes e) eqn:E; cbn [fst forallb];
    [|exact IH].
  apply andb_true_iff in E. now rewrite (proj2 E).
Qed.

Lemma split_done_none (finishes : finishing) (mask : list bool)
    (pending : list entry) :
  forallb negb mask = true -> split_done finishes mask pending = ([], pending).
Proof.
  revert mask. induction pending as [|e pending IH]; intros mask Hm;
    cbn [split_done]; [reflexivity|].
  assert (Htl : forallb negb (tl mask) = true).
  { destruct mask as [|b mask]; [reflexivity|].
    cbn [forallb tl] in *. apply andb_true_iff in Hm. tauto. }
  rewrite (IH (tl mask) Htl).
  destruct mask as [|b mask]; [reflexivity|].
  cbn [forallb hd] in *. apply andb_true_iff in Hm.
  destruct Hm as [Hb _]. now destruct b.
Qed.

Lemma pick_spec (finishes : finishing) (pending : list entry) :
  forall k e l,
    pick finishes k pending = Some (e, l) ->
    Permutation (e :: l) pending /\ completes finishes e = true.
Proof.
  induction pending as [|a pending IH]; intros k e l; cbn [pick];
    [discriminate|].
  assert (Hkeep : forall k',
            option_map (fun '(x, l0) => (x, a :: l0)) (pick finishes k' pending)
            = Some (e, l) ->
            Permutation (e :: l) (a :: pending) /\ completes finishes e = true).
  { intros k' H.
    destruct (pick finishes k' pending) as [[x l0]|] eqn:Ep; [|discriminate].
    cbn [option_map] in H. injection H as <- <-.
    destruct (IH k' x l0 Ep) as [Hp Hc]. split; [|exact Hc].
    eapply Permutation_trans; [apply perm_swap|]. now constructor. }
  destruct (completes finishes a) eqn:Ea; [|apply Hkeep].
  destruct k as [|k]; [|apply Hkeep].
  intros H. injection H as <- <-. split; [apply Permutation_refl | exact Ea].
Qed.

Lemma pick_none (finishes : finishing) (pending : list entry) :
  forall k,
    pick finishes k pending = None ->
    (List.length (filter (completes finishes) pending) <= k)%nat.
Proof.
  induction pending as [|a pending IH]; intros k; cbn [pick filter];
    [cbn [List.length]; lia|].
  destruct (completes finishes a).
  - destruct k as [|k]; [discriminate|].
    destruct (pick finishes k pending) as [[x l0]|] eqn:Ep; [discriminate|].
    intros _. cbn [List.length]. apply IH in Ep. lia.
  - destruct (pick finishes k pending) as [[x l0]|] eqn:Ep; [discriminate|].
    intros _. now apply IH.
Qed.

Lemma forallb_filter_all (A : Type) (p : A -> bool) (l : list A) :
  forallb p l = true -> filter p l = l.
Proof.
  induction l as [|x l IH]; cbn [forallb filter]; [reflexivity|].
  intros H. apply andb_true_iff in H. destruct H as [Hx Hl].
  now rewrite Hx, IH.
Qed.

Lemma forallb_perm (A : Type) (p : A -> bool) (l l' : list A) :
  Permutation l l' -> forallb p l = forallb p l'.
Proof.
  intros H. induction H as [|x l l' H IH|x y l|l l' l'' H1 IH1 H2 IH2];
    cbn [forallb].
  - reflexivity.
  - now rewrite IH.
  - now rewrite !andb_assoc, (andb_comm (p y)).
  - congruence.
Qed.

(** While every pending call finishes, one can be picked. *)
Lemma pick_some (finishes : finishing) (pending : list entry) (k : nat) :
  pending <> [] -> forallb (completes finishes) pending = true ->
  pick finishes (k mod List.length (filter (completes finishes) pending)) pending
  <> None.
Proof.
  intros Hne Hall Hnone. apply pick_none in Hnone.
  rewrite (forallb_filter_all _ _ Hall) in Hnone.
  assert (Hlen : (0 < List.length pending)%nat)
    by (destruct pending; [congruence | cbn [List.length]; lia]).
  pose proof (Nat.mod_upper_bound k (List.length pending)). lia.
Qed.

Lemma leave_pool_cases (A : Type) (finishes : finishing) (pending : list entry) :
  (forall a : A, leave_pool finishes pending TimeoutError <> Returned a)
  /\ (forallb (completes finishes) pending = true ->
      leave_pool finishes pending (@TimeoutError A) = TimeoutError).
Proof.
  unfold leave_pool. split.
  - intros a. destruct (forallb (completes finishes) pending); discriminate.
  - now intros ->.
Qed.

(** The small-file loop, given passes enough: it ends, by returning, by
    raising or by blocking.  What it returns is the start value with what
    the pending and the remaining files add, in some order, every core
    idle again, and it returns only if every call finished; it blocks
    only if some call does not finish. *)
Lemma small_loop_spec (poll : Poller) (finishes : finishing)
    (small_cores : nat) (cores0 : core_activity) :
  (0 < small_cores)%nat ->
  forall fuel pass rest file_index pending acc,
    (List.length rest + List.length pending < fuel)%nat ->
    busy_only cores0 pending (snd acc) ->
    exists out,
      small_loop fuel poll hash_func finishes small_cores pass rest file_index
        pending acc
      = Some out
      /\ (forall results cores,
            out = Returned (results, cores) ->
            Permutation results
              (fst acc ++ flat_map kept pending
               ++ single_pool_reference rest hash_func)
            /\ busy_only cores0 [] cores
            /\ all_finish finishes pending rest = true)
      /\ (all_finish finishes pending rest = true -> out <> Blocks).
Proof.
  intros Hpos. induction fuel as [|fuel IH];
    intros pass rest file_index pending acc Hfuel Hbusy; [lia|].
  cbn [small_loop].
  assert (Hcase : (rest = [] /\ pending = []) \/ (rest <> [] \/ pending <> [])).
  { destruct rest; [|right; left; discriminate].
    destruct pending; [now left | right; right; discriminate]. }
  destruct Hcase as [[-> ->]|Hmore].
  - exists (Returned acc). split; [reflexivity|]. split; [|discriminate].
    intros results cores E. injection E as E. subst acc.
    cbn [fst snd flat_map single_pool_reference] in *.
    rewrite app_nil_r. split; [apply Permutation_refl|]. now split.
  - destruct (@submit_small_spec finishes small_cores cores0 rest file_index
                pending (snd acc) Hbusy)
      as [rest' [idx' [pending' [cores' [Hs [Hk [Hlen [Hbusy' [Hne Hfin]]]]]]]]].
    specialize (Hne Hpos Hmore). rewrite <- Hfin.
    cut (exists out,
           match pending' with
           | [] =>
               small_loop fuel poll hash_func finishes small_cores (S pass) rest'
                 idx' pending' (fst acc, cores')
           | _ :: _ =>
               let '(finished, waiting) :=
                 split_done finishes (done poll pass) pending' in
               match finished with
               | _ :: _ =>
                   small_loop fuel poll hash_func finishes small_cores (S pass)
                     rest' idx' waiting
                     (fold_left collect finished (fst acc, cores'))
               | [] =>
                   match completes_in_time poll pass with
                   | None => Some (leave_pool finishes pending' TimeoutError)
                   | Some k =>
                       let able :=
                         List.length (filter (completes finishes) pending') in
                       match pick finishes (k mod able) pending' with
                       | Some (e, pending0) =>
                           small_loop fuel poll hash_func finishes small_cores
                             (S pass) rest' idx' pending0
                             (collect (fst acc, cores') e)
                       | None =>
                           Some (leave_pool finishes pending' TimeoutError)
                       end
                   end
               end
           end = Some out
           /\ (forall results cores,
                 out = Returned (results, cores) ->
                 Permutation results
                   (fst acc ++ flat_map kept pending
                    ++ single_pool_reference rest hash_func)
                 /\ busy_only cores0 [] cores
                 /\ all_finish finishes pending' rest' = true)
           /\ (all_finish finishes pending' rest' = true -> out <> Blocks)).
    { intros Hgoal.
      destruct rest as [|f rest0], pending as [|p0 pending0];
        [destruct Hmore; congruence | | |]; rewrite Hs; exact Hgoal. }
    destruct pending' as [|first pending'']; [congruence|].
    set (pending' := first :: pending'') in *.
    pose proof (split_done_perm finishes (done poll pass) pending') as Hperm.
    pose proof (split_done_finished finishes (done poll pass) pending') as Hdone.
    destruct (split_done finishes (done poll pass) pending')
      as [finished waiting].
    cbn [fst snd] in Hperm, Hdone.
    assert (Hsum : (List.length finished + List.length waiting
                    = List.length pending')%nat).
    { rewrite <- length_app. now apply Permutation_length. }
    destruct finished as [|e finished].
    + destruct (completes_in_time poll pass) as [k|].
      * cbv zeta.
        destruct (pick finishes
                    (k mod List.length (filter (completes finishes) pending'))
                    pending') as [[e l]|] eqn:Epick.
        -- destruct (pick_spec _ _ _ Epick) as [Hpop He].
           destruct (IH (S pass) rest' idx' l (collect (fst acc, cores') e))
             as [out [Hout [Hres Hnb]]].
           { apply Permutation_length in Hpop. cbn [List.length] in Hpop. lia. }
           { apply busy_only_collect. cbn [snd].
             apply (@busy_only_perm cores0 pending'); [|exact Hbusy'].
             intros e' He'. apply (Permutation_in _ (Permutation_sym Hpop) He'). }
           assert (Hall : all_finish finishes pending' rest'
                          = all_finish finishes l rest').
           { unfold all_finish.
             rewrite <- (forallb_perm (completes finishes) Hpop).
             cbn [forallb]. now rewrite He. }
           exists out. split; [exact Hout|]. split.
           ++ intros results cores E.
              destruct (Hres results cores E) as [Hp [Hb Hf]].
              split; [|split; [exact Hb | now rewrite Hall]].
              eapply Permutation_trans; [exact Hp|].
              rewrite collect_fst. cbn [fst]. rewrite <- Hk, <- !app_assoc.
              apply Permutation_app_head. rewrite !app_assoc.
              apply Permutation_app_tail.
              change (kept e ++ flat_map kept l) with (flat_map kept (e :: l)).
              apply Permutation_flat_map. exact Hpop.
           ++ rewrite Hall. exact Hnb.
        -- exists (leave_pool finishes pending' TimeoutError).
           split; [reflexivity|]. split.
           ++ intros results cores E.
              now apply (proj1 (leave_pool_cases _ finishes pending')) in E.
           ++ intros Hall. exfalso. unfold all_finish in Hall.
              apply andb_true_iff in Hall.
              apply (@pick_some finishes pending' k); [discriminate | tauto|].
              exact Epick.
      * exists (leave_pool finishes pending' TimeoutError).
        split; [reflexivity|]. split.
        -- intros results cores E.
           now apply (proj1 (leave_pool_cases _ finishes pending')) in E.
        -- intros Hall. unfold all_finish in Hall. apply andb_true_iff in Hall.
           rewrite (proj2 (leave_pool_cases _ finishes pending'))
             by tauto.
           discriminate.
    + destruct (IH (S pass) rest' idx' waiting
                  (fold_left collect (e :: finished) (fst acc, cores')))
        as [out [Hout [Hres Hnb]]].
      { cbn [List.length] in Hsum. lia. }
      { apply busy_only_collect_all. cbn [snd].
        apply (@busy_only_perm cores0 pending'); [|exact Hbusy'].
        intros e' He'. apply (Permutation_in _ (Permutation_sym Hperm) He'). }
      assert (Hall : all_finish finishes pending' rest'
                     = all_finish finishes waiting rest').
      { unfold all_finish.
        rewrite <- (forallb_perm (completes finishes) Hperm), forallb_app.
        now rewrite Hdone. }
      exists out. split; [exact Hout|]. split.
      * intros results cores E. destruct (Hres results cores E) as [Hp [Hb Hf]].
        split; [|split; [exact Hb | now rewrite Hall]].
        eapply Permutation_trans; [exact Hp|].
        rewrite collect_all_fst. cbn [fst]. rewrite <- Hk, <- !app_assoc.
        apply Permutation_app_head. rewrite !app_assoc.
        apply Permutation_app_tail. rewrite <- flat_map_app.
        apply Permutation_flat_map. exact Hperm.
      * rewrite Hall. exact Hnb.
Qed.
End TrackingFacts.

Section TrackedRun.
Import ParallelProcessor TrackingSpec.
Variable hash_func : string -> future.
Variable finishes : finishing.

Lemma small_loop_timeout (poll : Poller) (small_cores : nat) (fuel pass : nat)
    (rest : list file_info) (file_index : nat) (pending : list entry)
    (acc : list (string * string) * core_activity) :
  (0 < small_cores)%nat -> rest <> [] \/ pending <> [] ->
  forallb negb (done poll pass) = true ->
  completes_in_time poll pass = None ->
  small_loop (S fuel) poll hash_func finishes small_cores pass rest file_index
    pending acc
  = Some (if all_finish finishes pending rest then TimeoutError else Blocks)
  \/ (all_finish finishes pending rest = false
      /\ small_loop (S fuel) poll hash_func finishes small_cores pass rest
           file_index pending acc
         = Some TimeoutError).
Proof.
  intros Hpos Hmore Hdone Hwait. cbn [small_loop].
  destruct (@submit_small_spec hash_func finishes small_cores (snd acc) rest
              file_index pending (snd acc))
    as [rest' [idx' [pending' [cores' [Hs [_ [_ [_ [Hne Hfin]]]]]]]]].
  { intros c a Ha. right. now left. }
  specialize (Hne Hpos Hmore).
  cut (match pending' with
       | [] =>
           small_loop fuel poll hash_func finishes small_cores (S pass) rest'
             idx' pending' (fst acc, cores')
       | _ :: _ =>
           let '(finished, waiting) :=
             split_done finishes (done poll pass) pending' in
           match finished with
           | _ :: _ =>
               small_loop fuel poll hash_func finishes small_cores (S pass)
                 rest' idx' waiting
                 (fold_left collect finished (fst acc, cores'))
           | [] =>
               match completes_in_time poll pass with
               | None => Some (leave_pool finishes pending' TimeoutError)
               | Some k =>
                   let able :=
                     List.length (filter (completes finishes) pending') in
                   match pick finishes (k mod able) pending' with
                   | Some (e, pending0) =>
                       small_loop fuel poll hash_func finishes small_cores
                         (S pass) rest' idx' pending0
                         (collect (fst acc, cores') e)
                   | None =>
                       Some (leave_pool finishes pending' TimeoutError)
                   end
               end
           end
       end = Some (leave_pool finishes pending' TimeoutError)).
  { intros Hgoal.
    assert (Hrun : small_loop (S fuel) poll hash_func finishes small_cores pass
                     rest file_index pending acc
                   = Some (leave_pool finishes pending' TimeoutError)).
    { cbn [small_loop].
      destruct rest as [|f rest0], pending as [|p0 pending0];
        [destruct Hmore; congruence | | |]; rewrite Hs; exact Hgoal. }
    cbn [small_loop] in Hrun. rewrite Hrun. unfold leave_pool.
    rewrite <- Hfin. unfold all_finish.
    destruct (forallb (completes finishes) pending') eqn:Ep; cbn [andb].
    - destruct (forallb (file_completes finishes) rest');
        [now left | right; now split].
    - now left. }
  destruct pending' as [|first pending'']; [congruence|].
  rewrite (split_done_none _ _ _ Hdone). now rewrite Hwait.
Qed.

(** The large-file pool: what it adds to the results and how it leaves
    the cores, when every call it submitted finishes; else it blocks. *)
Lemma large_pool_spec (sched : TrackedScheduler) (large_cores : nat)
    (cores0 cores : core_activity) (large_files : list file_info) :
  busy_only cores0 [] cores ->
  let large :=
    match large_files with
    | [] => Some ([], cores)
    | _ :: _ =>
        let '(future_to_file, cores) :=
          fold_left (submit_large hash_func large_cores)
            (enumerate_nat 0 large_files) ([], cores) in
        if forallb (completes finishes) future_to_file
        then Some (fold_left collect (tracked_completed sched future_to_file)
                     ([], cores))
        else None
    end in
  match large with
  | Some acc =>
      Permutation (fst acc)
        (single_pool_reference (firstn large_cores large_files) hash_func)
      /\ busy_only cores0 [] (snd acc)
      /\ forallb (file_completes finishes) (firstn large_cores large_files)
         = true
  | None =>
      forallb (file_completes finishes) (firstn large_cores large_files) = false
  end.
Proof.
  intros Hbusy. cbv zeta.
  destruct large_files as [|f large_files'].
  - cbn [fst snd]. rewrite firstn_nil.
    split; [constructor | split; [exact Hbusy | reflexivity]].
  - destruct (@submit_large_all hash_func finishes large_cores cores0
                (f :: large_files') 0 [] cores Hbusy)
      as [entries [cores' [Hfold [Hkept [Hbusy' Hfin]]]]].
    cbn [app List.length] in Hfold, Hkept, Hbusy', Hfin.
    rewrite Nat.sub_0_r in Hkept, Hfin. rewrite Hfold, Hfin.
    destruct (forallb (file_completes finishes)
                (firstn large_cores (f :: large_files'))); [|reflexivity].
    split; [|split; [|reflexivity]].
    + rewrite collect_all_fst. cbn [fst app]. rewrite <- Hkept.
      apply Permutation_flat_map. apply tracked_completed_perm.
    + apply busy_only_collect_all. cbn [snd]. rewrite app_nil_r.
      apply (@busy_only_perm cores0 entries); [|exact Hbusy'].
      intros e He.
      apply (Permutation_in _
               (Permutation_sym (tracked_completed_perm sched entries)) He).
Qed.
End TrackedRun.

(** X21.  [process_files_with_core_tracking] when every call it submits
    finishes, and when one does not.  If every submitted call finishes,
    the call ends: it returns, or the wait of 0.1 s in its small-file loop
    raises [TimeoutError].  It returns only if every submitted call
    finished, and then the results are those of the single-pool reference
    on the small files and the first few large files only: the large-file
    pool takes no more futures than it has workers, 2 to 4, so a large
    file beyond those is never hashed; every core the call touched is idle
    again.  If the call on one of the large files submitted never
    finishes, the call blocks for ever.  With no small file and every
    call finishing the call returns; with a small file and a pool in which
    nothing finishes in time at the first pass it raises, and the results
    of the large files are lost. *)
Theorem process_files_with_core_tracking_outcomes
    (sched : ParallelProcessor.TrackedScheduler) (poll : ParallelProcessor.Poller)
    (max_workers cpu_count : positive) (cores : ParallelProcessor.core_activity)
    (files : list file_info) (hash_func : string -> future)
    (finishes : ParallelProcessor.finishing) :
  let large_files :=
    filter (fun '(_, s, _) => ParallelProcessor.large_file_threshold <=? s) files in
  let small_files :=
    filter (fun '(_, s, _) => s <? ParallelProcessor.large_file_threshold) files in
  let large_submitted :=
    firstn (TrackingSpec.large_cores max_workers cpu_count) large_files in
  let submitted := large_submitted ++ small_files in
  let all_finish := fun l : list file_info =>
    forall f, In f l -> finishes (fst (fst f)) = true in
  let run :=
    ParallelProcessor.process_files_with_core_tracking sched poll max_workers
      cpu_count cores files hash_func finishes in
  (exists out, run = Some out)
  /\ (all_finish submitted ->
      (exists r, run = Some (ParallelProcessor.Returned r))
      \/ run = Some ParallelProcessor.TimeoutError)
  /\ (forall results cores',
        run = Some (ParallelProcessor.Returned (results, cores')) ->
        all_finish submitted
        /\ Permutation results
             (ParallelProcessor.single_pool_reference submitted hash_func)
        /\ (forall filepath h,
              In (filepath, h) results
              <-> (exists s m, In (filepath, s, m) submitted)
                  /\ hash_func filepath = Ok (Some h) /\ h <> "")
        /\ (forall c a,
              dict_get Nat.eqb cores' c = Some a ->
              a = ParallelProcessor.idle \/ dict_get Nat.eqb cores c = Some a))
  /\ (2 <= TrackingSpec.large_cores max_workers cpu_count <= 4)%nat
  /\ (~ all_finish large_submitted -> run = Some ParallelProcessor.Blocks)
  /\ (small_files = [] -> all_finish large_submitted ->
      exists r, run = Some (ParallelProcessor.Returned r))
  /\ (small_files <> [] -> all_finish submitted ->
      forallb negb (ParallelProcessor.done poll 0) = true ->
      ParallelProcessor.completes_in_time poll 0 = None ->
      run = Some ParallelProcessor.TimeoutError).
Proof.
  intros large_files small_files large_submitted submitted all_finish run.
  set (max_cores := Nat.min (Pos.to_nat max_workers) (Pos.to_nat cpu_count)).
  set (cores1 := fold_left
                   (fun cores i =>
                      ParallelProcessor.set_core cores i ParallelProcessor.idle)
                   (seq 0 max_cores) cores).
  assert (Hbusy1 : TrackingSpec.busy_only cores [] cores1).
  { apply busy_only_reset. intros c a Ha. right. now left. }
  set (large := match large_files with
                | [] => Some ([], cores1)
                | _ :: _ =>
                    let '(future_to_file, cores) :=
                      fold_left
                        (ParallelProcessor.submit_large hash_func
                           (TrackingSpec.large_cores max_workers cpu_count))
                        (ParallelProcessor.enumerate_nat 0 large_files)
                        ([], cores1) in
                    if forallb (ParallelProcessor.completes finishes)
                         future_to_file
                    then Some (fold_left ParallelProcessor.collect
                                 (ParallelProcessor.tracked_completed sched
                                    future_to_file)
                                 ([], cores))
                    else None
                end).
  assert (Hlarge :
            match large with
            | Some acc =>
                Permutation (fst acc)
                  (ParallelProcessor.single_pool_reference large_submitted
                     hash_func)
                /\ TrackingSpec.busy_only cores [] (snd acc)
                /\ forallb (TrackingSpec.file_completes finishes) large_submitted
                   = true
            | None =>
                forallb (TrackingSpec.file_completes finishes) large_submitted
                = false
            end)
    by exact (@large_pool_spec hash_func finishes sched
                (TrackingSpec.large_cores max_workers cpu_count)
                cores cores1 large_files Hbusy1).
  set (small_cores := Nat.min (Pos.to_nat max_workers) max_cores).
  assert (Hpos : (0 < small_cores)%nat).
  { unfold small_cores, max_cores.
    pose proof (Pos2Nat.is_pos max_workers). pose proof (Pos2Nat.is_pos cpu_count).
    lia. }
  assert (Erun : run
                 = match large with
                   | None => Some ParallelProcessor.Blocks
                   | Some acc =>
                       match small_files with
                       | [] => Some (ParallelProcessor.Returned acc)
                       | _ :: _ =>
                           ParallelProcessor.small_loop
                             (S (List.length small_files))
                             poll hash_func finishes small_cores 0 small_files
                             0 [] acc
                       end
                   end) by reflexivity.
  assert (Hall : forall l,
            forallb (TrackingSpec.file_completes finishes) l = true
            <-> all_finish l).
  { intros l. unfold all_finish. rewrite forallb_forall. reflexivity. }
  assert (Hsplit : all_finish submitted
                   <-> all_finish large_submitted /\ all_finish small_files).
  { unfold all_finish, submitted. split.
    - intros H. split; intros f Hf; apply H, in_or_app; [now left | now right].
    - intros [H1 H2] f Hf. apply in_app_or in Hf. destruct Hf; auto. }
  clearbody run large. clearbody small_files large_files.
  assert (Hloop : exists out,
            run = Some out
            /\ (forall results cores',
                  out = ParallelProcessor.Returned (results, cores') ->
                  Permutation results
                    (ParallelProcessor.single_pool_reference submitted hash_func)
                  /\ TrackingSpec.busy_only cores [] cores'
                  /\ all_finish submitted)
            /\ (all_finish submitted -> out <> ParallelProcessor.Blocks)).
  { destruct large as [acc|]; cbv iota beta in Hlarge.
    - destruct Hlarge as [Hperm [Hbusy Hfin]]. apply Hall in Hfin.
      unfold submitted at 1. rewrite reference_app.
      destruct small_files as [|f small_files'] eqn:Es.
      + exists (ParallelProcessor.Returned acc). split; [exact Erun|].
        split; [|discriminate].
        intros results cores' E. injection E as E.
        cbn [ParallelProcessor.single_pool_reference]. rewrite app_nil_r.
        rewrite E in Hperm, Hbusy. split; [exact Hperm|]. split; [exact Hbusy|].
        apply Hsplit. split; [exact Hfin|]. intros f [].
      + destruct (@small_loop_spec hash_func poll finishes small_cores cores Hpos
                    (S (List.length (f :: small_files'))) 0%nat
                    (f :: small_files') 0%nat [] acc)
          as [out [Hout [Hres Hnb]]];
          [rewrite Nat.add_0_r; apply Nat.lt_succ_diag_r | exact Hbusy |].
        exists out. split; [rewrite Erun; exact Hout|]. split.
        * intros results cores' E.
          destruct (Hres results cores' E) as [Hp [Hb Hf]].
          split; [|split; [exact Hb|]].
          -- cbn [flat_map app] in Hp.
             eapply Permutation_trans; [exact Hp|].
             now apply Permutation_app_tail.
          -- apply Hsplit. split; [exact Hfin|]. apply Hall.
             unfold TrackingSpec.all_finish in Hf. exact Hf.
        * intros Ha. apply Hnb. unfold TrackingSpec.all_finish.
          apply andb_true_iff. split; [reflexivity|].
          apply Hall. now apply Hsplit in Ha.
    - exists ParallelProcessor.Blocks. split; [exact Erun|]. split.
      + discriminate.
      + intros Ha. apply Hsplit in Ha. destruct Ha as [Ha _].
        apply Hall in Ha. congruence. }
  destruct Hloop as [out [Hout [Hres Hnb]]].
  split; [now exists out|]. split; [|split; [|split; [|split; [|split]]]].
  - intros Ha. specialize (Hnb Ha). rewrite Hout.
    destruct out as [r| |]; [left; now exists r | now right | congruence].
  - intros results cores' E. rewrite Hout in E. injection E as E.
    destruct (Hres results cores' E) as [Hp [Hb Ha]].
    split; [exact Ha|]. split; [exact Hp|]. split.
    + intros filepath h. rewrite <- (reference_in hash_func submitted filepath h).
      split; intros Hin.
      * exact (Permutation_in _ Hp Hin).
      * exact (Permutation_in _ (Permutation_sym Hp) Hin).
    + intros c a Ha'. destruct (Hb c a Ha') as [Hi|[H0|[e [[] _]]]]; auto.
  - unfold TrackingSpec.large_cores. lia.
  - intros Hnot. rewrite Erun.
    destruct large as [acc|]; cbv iota beta in Hlarge; [|reflexivity].
    destruct Hlarge as [_ [_ Hfin]]. apply Hall in Hfin. contradiction.
  - intros Es Ha. rewrite Erun.
    destruct large as [acc|]; cbv iota beta in Hlarge.
    + rewrite Es. now exists acc.
    + apply Hall in Ha. congruence.
  - intros Hne Ha Hdone Hwait. rewrite Erun.
    apply Hsplit in Ha. destruct Ha as [Hl Hs].
    destruct large as [acc|]; cbv iota beta in Hlarge;
      [|apply Hall in Hl; congruence].
    destruct small_files as [|f small_files'] eqn:Es; [congruence|].
    assert (Hfin : TrackingSpec.all_finish finishes [] (f :: small_files') = true)
      by (unfold TrackingSpec.all_finish; apply andb_true_iff;
          split; [reflexivity | now apply Hall]).
    destruct (@small_loop_timeout hash_func finishes poll small_cores
                (List.length (f :: small_files')) 0 (f :: small_files') 0 []
                acc Hpos (or_introl Hne) Hdone Hwait)
      as [E|[E _]]; [|congruence].
    rewrite E, Hfin. reflexivity.
Qed.

(** Five large files and two small ones on eight cores: the fifth large
    file is never hashed; in a pool where nothing finishes in time the
    call raises; when the call on the second large file never finishes,
    or the one on a small file while nothing else finishes in time, the
    call blocks. *)
Lemma core_tracking_five_large_files :
  let big := 60 * 1024 * 1024 in
  let files :=
    [("/L1", big, 1); ("/L2", big, 2); ("/s1", 10, 3); ("/L3", big, 4);
     ("/L4", big, 5); ("/L5", big, 6); ("/s2", 20, 7)] in
  let hash_func := fun p : string => Ok (Some ("x:" ++ p)%string) in
  let all_but := fun p q : string => negb (String.eqb p q) in
  option_map
    (fun out =>
       match out with
       | ParallelProcessor.Returned (results, _) => Some (map fst results)
       | _ => None
       end)
    (ParallelProcessor.process_files_with_core_tracking
       TrackingSpec.tracked_fifo TrackingSpec.in_turn 8 8 [] files hash_func
       TrackingSpec.always)
  = Some (Some ["/L1"; "/L2"; "/L3"; "/L4"; "/s1"; "/s2"])
  /\ ParallelProcessor.process_files_with_core_tracking
       TrackingSpec.tracked_fifo TrackingSpec.stalled 8 8 [] files hash_func
       TrackingSpec.always
     = Some ParallelProcessor.TimeoutError
  /\ ParallelProcessor.process_files_with_core_tracking
       TrackingSpec.tracked_fifo TrackingSpec.in_turn 8 8 [] files hash_func
       (all_but "/L2")
     = Some ParallelProcessor.Blocks
  /\ ParallelProcessor.process_files_with_core_tracking
       TrackingSpec.tracked_fifo TrackingSpec.in_turn 8 8 [] files hash_func
       (all_but "/L5")
     = ParallelProcessor.process_files_with_core_tracking
         TrackingSpec.tracked_fifo TrackingSpec.in_turn 8 8 [] files hash_func
         TrackingSpec.always
  /\ ParallelProcessor.process_files_with_core_tracking
       TrackingSpec.tracked_fifo TrackingSpec.in_turn 8 8 [] files hash_func
       (all_but "/s2")
     = Some ParallelProcessor.Blocks.
Proof. split; [|split; [|split; [|split]]]; vm_compute; reflexivity. Qed.

(** ** The three hash functions side by side *)

(** X22.  The three hash functions behave alike on any file, ending or
    not.  After the same number of reads either none of the three has
    returned, or all three have returned [None], or the file is one that
    ends and each has returned the digest of its entire content.  So a
    call of [compute_md5] returns a digest exactly when a call of
    [compute_xxhash] on the same file does, and hangs exactly when that
    one hangs. *)
Theorem hash_functions_fail_together
    (lib : HashLib) (open_ : string -> result HasherSteps.opened)
    (path_ : string) (reads : nat) :
  let x := HasherSteps.compute_xxhash reads lib open_ path_ in
  let m := HasherSteps.compute_md5 reads lib open_ path_ in
  let s := HasherSteps.compute_sha1 reads lib open_ path_ in
  (x = None /\ m = None /\ s = None)
  \/ (x = Some None /\ m = Some None /\ s = Some None)
  \/ (exists f,
        open_ path_ = Ok (HasherSteps.Ending f)
        /\ x = Some (Some (xxh64_hexdigest lib (remaining f)))
        /\ m = Some (Some (md5_hexdigest lib (remaining f)))
        /\ s = Some (Some (sha1_hexdigest lib (remaining f)))).
Proof.
  intros x m s. unfold x, m, s, HasherSteps.compute_xxhash,
    HasherSteps.compute_md5, HasherSteps.compute_sha1.
  rewrite !steps_stream_digest.
  destruct (open_ path_) as [[f|bytes pos]|e]; [| now left | right; now left].
  destruct (Hasher.read_loop reads f Hasher.new_hash) as [[h|e]|] eqn:El;
    [| right; now left | now left].
  right. right. exists f. split; [reflexivity|].
  apply read_loop_returns in El. unfold HasherSpec.loop_outcome in El.
  assert (h = remaining f); [|now subst].
  unfold Hasher.new_hash in El. cbn [app] in El.
  destruct (reads_until_fault f) as [k|]; [|congruence].
  destruct (N.of_nat k <? HasherSpec.reads_needed (remaining f))%N; congruence.
Qed.
